(** * gp_relaccess_stats: the access-statistics aggregation engine

    A shallow embedding of [src/gp_relaccess_stats.c] and the properties
    of its staging buffer, commit merge, spill and ingestion paths.

    Conventions of the embedding.
    - [Oid] and [AclMode] are 32-bit unsigned, [TimestampTz] and the
      counters are 64-bit signed; all are carried as [Z], the counters
      with their wrap-around written out ([add64]).
    - A dynahash table that the code scans with [hash_seq_search] is a
      list in scan order with one element per key; a new element goes to
      the end.  Tables that are only probed by key are [gmap]s.
    - The process-local statics of one backend are the record [backend];
      what all backends share (the shared-memory table and the bytes in
      its free slots, the stats directory, the outcome of the next [fwrite]
      calls) is the record [world].  Every operation maps a [backend * world] pair to a new
      one; the two LWLocks make each operation atomic, so they do not
      appear.  Several backends are several [backend] values threaded
      through one [world].
    - What a function reads from its environment is an argument: the user
      and the clock of a [memorize_local_access_entry] call, the catalog
      name of a relation, the outcome of [SPI_connect] and [SPI_execute].
    - A dump file is the list of the records appended to it; a record is
      written and read back as one [relaccessEntry], a successful [fwrite]
      puts its record into the file and a failed one leaves the file as it
      was.
    - Outside the model: a failing [AllocateFile], the buffering of the
      dump streams and the result of [FreeFile], allocation failure in the
      local tables, the chained hooks of other extensions, and [Assert]s. *)

From Stdlib Require Import ZArith Lia Bool Sorted.
From stdpp Require Import gmap strings list pretty.

Local Open Scope Z_scope.

(** ** Scalar types and constants of the host *)

Definition Oid := Z.
Definition AclMode := Z.
Definition TimestampTz := Z.

Definition InvalidOid : Oid := 0.
Definition NAMEDATALEN : nat := 64.

(** PostgreSQL's [parsenodes.h]: [ACL_INSERT (1<<0)], [ACL_SELECT (1<<1)],
    [ACL_UPDATE (1<<2)], [ACL_DELETE (1<<3)], [ACL_TRUNCATE (1<<4)]. *)
Definition ACL_INSERT : AclMode := Z.shiftl 1 0.
Definition ACL_SELECT : AclMode := Z.shiftl 1 1.
Definition ACL_UPDATE : AclMode := Z.shiftl 1 2.
Definition ACL_DELETE : AclMode := Z.shiftl 1 3.
Definition ACL_TRUNCATE : AclMode := Z.shiftl 1 4.

(** [catalog/pg_database.h]: the class id of [pg_database]. *)
Definition DatabaseRelationId : Oid := 1262.

(** [#define is_write(perms)] *)
Definition is_write (perms : AclMode) : bool :=
  negb (Z.land perms
          (Z.lor ACL_INSERT (Z.lor ACL_UPDATE (Z.lor ACL_DELETE ACL_TRUNCATE)))
        =? 0).

(** [#define is_read(perms)] *)
Definition is_read (perms : AclMode) : bool :=
  negb (is_write perms) && negb (Z.land perms ACL_SELECT =? 0).

(** The C test [perms & ACL_x] used as a condition. *)
Definition has_perm (perms bit : AclMode) : bool :=
  negb (Z.land perms bit =? 0).

(** [int64] addition as the host compiles it (two's complement wrap). *)
Definition INT64_MAX : Z := 2 ^ 63 - 1.
Definition add64 (x y : Z) : Z := (x + y + 2 ^ 63) mod 2 ^ 64 - 2 ^ 63.

(** [int] increment of [stmt_counter]. *)
Definition add32 (x y : Z) : Z := (x + y + 2 ^ 31) mod 2 ^ 32 - 2 ^ 31.

(** [strlcpy(dst, src, size)]: at most [size - 1] characters are kept. *)
Definition strlcpy (src : string) (size : nat) : string :=
  String.substring 0 (size - 1) src.

(** ** Structures *)

Record relaccessHashKey := mkKey { dbid : Oid; relid : Oid }.

Record relaccessEntry := mkEntry {
  key : relaccessHashKey;
  relname : string;
  last_reader_id : Oid;
  last_writer_id : Oid;
  last_read : TimestampTz;
  last_write : TimestampTz;
  n_select : Z;
  n_insert : Z;
  n_update : Z;
  n_delete : Z;
  n_truncate : Z
}.

Record localAccessKey := mkLocalKey { l_relid : Oid; stmt_cnt : Z }.

Record localAccessEntry := mkLocal {
  l_key : localAccessKey;
  l_last_reader_id : Oid;
  l_last_writer_id : Oid;
  l_last_read : TimestampTz;
  l_last_write : TimestampTz;
  perms : AclMode
}.

Inductive GpRoleValue := GP_ROLE_UTILITY | GP_ROLE_DISPATCH | GP_ROLE_EXECUTE.

Inductive XactEvent :=
  XACT_EVENT_COMMIT | XACT_EVENT_ABORT | XACT_EVENT_PREPARE.

Inductive ObjectAccessType := OAT_POST_CREATE | OAT_DROP | OAT_POST_ALTER.

(** The three [WARNING]s of the module, in the order of the source. *)
Inductive warning :=
| WARN_unable_to_dump
| WARN_max_tables_exceeded
| WARN_could_not_write (db : Oid).

(** Process-local statics and settings of one backend. *)
Record backend := mkBackend {
  MyDatabaseId : Oid;
  Gp_role : GpRoleValue;
  is_enabled : bool;
  dump_on_overflow : bool;
  local_access_entries : list localAccessEntry;
  relname_cache : gmap Oid string;
  stmt_counter : Z;
  had_ht_overflow : bool;
  server_log : list warning
}.

(** What the backends share.  [relaccess_size] is fixed at postmaster
    start.  [dump_files] maps a database to the records of its dump file
    when the file exists.  [fwrite_results] scripts the environment: its
    head is the outcome of the next [fwrite] ([false]: short write); an
    exhausted script means every further write succeeds.  [slot_bytes]
    gives, for a key, the bytes found in the free slot that
    [HASH_ENTER_NULL] hands out for it: dynahash neither clears a slot when
    it allocates it nor when an element is removed, so these are whatever an
    earlier element left there. *)
Record world := mkWorld {
  relaccess_size : Z;
  relaccesses : list relaccessEntry;
  dump_files : gmap Oid (list relaccessEntry);
  fwrite_results : list bool;
  slot_bytes : relaccessHashKey -> relaccessEntry
}.

(** What one call of [memorize_local_access_entry] reads from its
    environment: the current user, the clock, and the bytes found in the
    two actor fields of a slot that [HASH_ENTER] hands out for a new key
    (the code does not initialise them). *)
Record call_env := mkEnv {
  GetUserId : Oid;
  GetCurrentTimestamp : TimestampTz;
  slot_reader_id : Oid;
  slot_writer_id : Oid
}.

(** Outcome of [SPI_execute]: a status code, or a non-local exit by
    [ereport(ERROR)] from inside the executed query. *)
Inductive spi_outcome := SPI_returns (ret : Z) | SPI_raises.

Inductive call_result := RETURN_VOID | ERROR_SPI_connect (ret : Z)
                       | ERROR_SPI_execute (ret : Z) | ERROR_raised.

(** ** Key comparison *)

(** [relaccess_match_fn]: 0 on a match, as [memcmp] would. *)
Definition relaccess_match_fn (k1 k2 : relaccessHashKey) : Z :=
  if (dbid k1 =? dbid k2) && (relid k1 =? relid k2) then 0 else 1.

(** [local_relaccess_match_fn] *)
Definition local_relaccess_match_fn (k1 k2 : localAccessKey) : Z :=
  if (stmt_cnt k1 =? stmt_cnt k2) && (l_relid k1 =? l_relid k2) then 0 else 1.

Definition key_eqb (k1 k2 : relaccessHashKey) : bool :=
  relaccess_match_fn k1 k2 =? 0.

Definition local_key_eqb (k1 k2 : localAccessKey) : bool :=
  local_relaccess_match_fn k1 k2 =? 0.

(** ** Field updates *)

Definition set_local_access_entries (l : list localAccessEntry) (b : backend) :=
  mkBackend (MyDatabaseId b) (Gp_role b) (is_enabled b) (dump_on_overflow b)
    l (relname_cache b) (stmt_counter b) (had_ht_overflow b) (server_log b).

Definition set_relname_cache (c : gmap Oid string) (b : backend) :=
  mkBackend (MyDatabaseId b) (Gp_role b) (is_enabled b) (dump_on_overflow b)
    (local_access_entries b) c (stmt_counter b) (had_ht_overflow b)
    (server_log b).

Definition set_stmt_counter (n : Z) (b : backend) :=
  mkBackend (MyDatabaseId b) (Gp_role b) (is_enabled b) (dump_on_overflow b)
    (local_access_entries b) (relname_cache b) n (had_ht_overflow b)
    (server_log b).

Definition set_had_ht_overflow (f : bool) (b : backend) :=
  mkBackend (MyDatabaseId b) (Gp_role b) (is_enabled b) (dump_on_overflow b)
    (local_access_entries b) (relname_cache b) (stmt_counter b) f
    (server_log b).

Definition set_is_enabled (f : bool) (b : backend) :=
  mkBackend (MyDatabaseId b) (Gp_role b) f (dump_on_overflow b)
    (local_access_entries b) (relname_cache b) (stmt_counter b)
    (had_ht_overflow b) (server_log b).

(** [elog(WARNING, ...)] / [ereport(WARNING, ...)] *)
Definition elog (m : warning) (b : backend) :=
  mkBackend (MyDatabaseId b) (Gp_role b) (is_enabled b) (dump_on_overflow b)
    (local_access_entries b) (relname_cache b) (stmt_counter b)
    (had_ht_overflow b) (server_log b ++ [m]).

Definition set_relaccesses (t : list relaccessEntry) (w : world) :=
  mkWorld (relaccess_size w) t (dump_files w) (fwrite_results w) (slot_bytes w).

Definition set_dump_files (d : gmap Oid (list relaccessEntry)) (w : world) :=
  mkWorld (relaccess_size w) (relaccesses w) d (fwrite_results w) (slot_bytes w).

Definition set_fwrite_results (r : list bool) (w : world) :=
  mkWorld (relaccess_size w) (relaccesses w) (dump_files w) r (slot_bytes w).

Definition set_slot_bytes (f : relaccessHashKey -> relaccessEntry) (w : world) :=
  mkWorld (relaccess_size w) (relaccesses w) (dump_files w) (fwrite_results w) f.

(** ** The shared table [relaccesses] (dynahash, [HASH_FIXED_SIZE]) *)

Fixpoint hash_find (k : relaccessHashKey) (t : list relaccessEntry)
  : option relaccessEntry :=
  match t with
  | [] => None
  | e :: t' => if key_eqb (key e) k then Some e else hash_find k t'
  end.

(** [hash_search(.., HASH_REMOVE, ..)] *)
Fixpoint hash_remove (k : relaccessHashKey) (t : list relaccessEntry)
  : list relaccessEntry :=
  match t with
  | [] => []
  | e :: t' => if key_eqb (key e) k then t' else e :: hash_remove k t'
  end.

(** Assignments through a pointer returned by [hash_search]: the element
    with the key of [e'] becomes [e'], in place. *)
Fixpoint hash_store (e' : relaccessEntry) (t : list relaccessEntry)
  : list relaccessEntry :=
  match t with
  | [] => []
  | e :: t' =>
      if key_eqb (key e) (key e') then e' :: t' else e :: hash_store e' t'
  end.

(** The slot that [HASH_ENTER_NULL] hands out for a new key: [hash_search]
    copies the key into it and leaves every other byte as it finds it. *)
Definition new_slot (k : relaccessHashKey) (bytes : relaccessEntry)
  : relaccessEntry :=
  mkEntry k (relname bytes) (last_reader_id bytes) (last_writer_id bytes)
    (last_read bytes) (last_write bytes) (n_select bytes) (n_insert bytes)
    (n_update bytes) (n_delete bytes) (n_truncate bytes).

(** An entry of key [k] with the values that the [!found] block of
    [relaccess_xact_callback] assigns, and an empty name. *)
Definition fresh_entry (k : relaccessHashKey) : relaccessEntry :=
  mkEntry k EmptyString InvalidOid InvalidOid 0 0 0 0 0 0 0.

(** [hash_search(relaccesses, &key, HASH_FIND, &found)]: the entry or
    [NULL], and [found]. *)
Definition hash_search_FIND (k : relaccessHashKey) (t : list relaccessEntry)
  : option relaccessEntry * bool * list relaccessEntry :=
  match hash_find k t with
  | Some e => (Some e, true, t)
  | None => (None, false, t)
  end.

(** [hash_search(relaccesses, &key, HASH_ENTER_NULL, &found)] on the
    fixed-size table: [NULL] when the key is absent and no slot is free;
    [bytes] is what the free slot holds. *)
Definition hash_search_ENTER_NULL (max : Z) (k : relaccessHashKey)
    (t : list relaccessEntry) (bytes : relaccessEntry)
  : option relaccessEntry * bool * list relaccessEntry :=
  match hash_find k t with
  | Some e => (Some e, true, t)
  | None =>
      if Z.of_nat (length t) <? max
      then (Some (new_slot k bytes), false, t ++ [new_slot k bytes])
      else (None, false, t)
  end.

(** ** The transaction-local tables *)

Fixpoint local_find (k : localAccessKey) (t : list localAccessEntry)
  : option localAccessEntry :=
  match t with
  | [] => None
  | e :: t' => if local_key_eqb (l_key e) k then Some e else local_find k t'
  end.

Fixpoint local_store (e' : localAccessEntry) (t : list localAccessEntry)
  : list localAccessEntry :=
  match t with
  | [] => []
  | e :: t' =>
      if local_key_eqb (l_key e) (l_key e') then e' :: t'
      else e :: local_store e' t'
  end.

(** Lines 715-723 of [memorize_local_access_entry]: the actor and the time
    of the side that the permission set of this call is classified as. *)
Definition stamp_access (perms_ : AclMode) (env : call_env)
    (entry : localAccessEntry) : localAccessEntry :=
  let curts := GetCurrentTimestamp env in
  let entry :=
    if is_read perms_
    then mkLocal (l_key entry) (GetUserId env) (l_last_writer_id entry)
           curts (l_last_write entry) (perms entry)
    else entry in
  if is_write perms_
  then mkLocal (l_key entry) (l_last_reader_id entry) (GetUserId env)
         (l_last_read entry) curts (perms entry)
  else entry.

(** [entry->perms |= perms] *)
Definition or_perms (perms_ : AclMode) (entry : localAccessEntry)
  : localAccessEntry :=
  mkLocal (l_key entry) (l_last_reader_id entry) (l_last_writer_id entry)
    (l_last_read entry) (l_last_write entry) (Z.lor (perms entry) perms_).

(** The slot of a new key after the [!found] block.  The slot keeps
    whatever its two actor fields held: [entry->last_read =
    entry->last_write = InvalidOid] assigns the two times, which are then
    set to 0 again. *)
Definition new_local_entry (k : localAccessKey) (perms_ : AclMode)
    (env : call_env) : localAccessEntry :=
  mkLocal k (slot_reader_id env) (slot_writer_id env) 0 0 perms_.

(** [memorize_local_access_entry] *)
Definition memorize_local_access_entry (relid_ : Oid) (perms_ : AclMode)
    (env : call_env) (b : backend) : backend :=
  let k := mkLocalKey relid_ (stmt_counter b) in
  let '(entry, t) :=
    match local_find k (local_access_entries b) with
    | None =>
        let e := new_local_entry k perms_ env in
        (e, local_access_entries b ++ [e])
    | Some e => (or_perms perms_ e, local_access_entries b)
    end in
  set_local_access_entries (local_store (stamp_access perms_ env entry) t) b.

(** [update_relname_cache]: [relname_ = None] is the [NULL] argument, for
    which the name comes from the catalog ([get_rel_name]). *)
Definition update_relname_cache (relid_ : Oid) (relname_ : option string)
    (get_rel_name : Oid -> string) (b : backend) : backend :=
  match relname_cache b !! relid_ with
  | Some _ => b
  | None =>
      let name :=
        match relname_ with
        | None => strlcpy (get_rel_name relid_) NAMEDATALEN
        | Some n => strlcpy n NAMEDATALEN
        end in
      set_relname_cache (<[relid_ := name]> (relname_cache b)) b
  end.

(** [relaccess_executor_end_hook] (the chained hook is the host's). *)
Definition relaccess_executor_end_hook (b : backend) : backend :=
  set_stmt_counter (add32 (stmt_counter b) 1) b.

Inductive RTEKind := RTE_RELATION | RTE_SUBQUERY | RTE_JOIN | RTE_FUNCTION.

Record RangeTblEntry := mkRTE {
  rtekind : RTEKind;
  rte_relid : Oid;
  requiredPerms : AclMode
}.

Definition is_dispatch (r : GpRoleValue) : bool :=
  match r with GP_ROLE_DISPATCH => true | _ => false end.

(** [collect_relaccess_hook] with no previous hook installed.  Each range
    table entry is paired with what its [memorize_local_access_entry] call
    reads from the environment. *)
Definition collect_relaccess_hook (rangeTable : list (RangeTblEntry * call_env))
    (get_rel_name : Oid -> string) (b : backend) : backend :=
  if is_dispatch (Gp_role b) && is_enabled b then
    fold_left
      (fun b '(rte, env) =>
         match rtekind rte with
         | RTE_RELATION =>
             if is_read (requiredPerms rte) || is_write (requiredPerms rte)
             then update_relname_cache (rte_relid rte) None get_rel_name
                    (memorize_local_access_entry (rte_relid rte)
                       (requiredPerms rte) env b)
             else b
         | _ => b
         end)
      rangeTable b
  else b.

(** [collect_truncate_hook] for a [TruncateStmt]: every relation of the
    statement is given by its oid (from [heap_openrv]) and the name written
    in the statement. *)
Definition collect_truncate_hook (relations : list (Oid * string * call_env))
    (b : backend) : backend :=
  if is_enabled b && is_dispatch (Gp_role b) then
    fold_left
      (fun b '(relid_, rv_relname, env) =>
         update_relname_cache relid_ (Some rv_relname) (fun _ => rv_relname)
           (memorize_local_access_entry relid_ ACL_TRUNCATE env b))
      relations b
  else b.

(** ** Spill to the per-database dump files *)

(** [fwrite(entry, sizeof(relaccessEntry), 1, file) != 1] is decided by the
    environment: the head of the script, success once it is exhausted.  A
    write that returns 1 is taken to put the record into the file and a
    failed one to leave the file as it is: the stream's buffer and the
    unchecked result of [FreeFile] (line 619) are outside the model, so
    [dump_files] is what the code has successfully handed to [fwrite]. *)
Definition fwrite (w : world) : bool * world :=
  match fwrite_results w with
  | [] => (true, w)
  | r :: rs => (r, set_fwrite_results rs w)
  end.

(** A record appended to the dump file of database [d]. *)
Definition append_record (d : Oid) (e : relaccessEntry) (w : world) : world :=
  set_dump_files
    (<[d := default [] (dump_files w !! d) ++ [e]]> (dump_files w)) w.

(** [add_file_dump_entry]: [AllocateFile(name, "ab")] creates the file when
    it does not exist; the open handles are the set [files].  (A failing
    [AllocateFile] is outside the model.) *)
Definition add_file_dump_entry (d : Oid) (s : gset Oid * world)
  : gset Oid * world :=
  let '(files, w) := s in
  if decide (d ∈ files) then s
  else ({[d]} ∪ files,
        match dump_files w !! d with
        | Some _ => w
        | None => set_dump_files (<[d := []]> (dump_files w)) w
        end).

(** The loop of [relaccess_dump_to_files_internal] over the entries still
    to be visited by the sequential scan. *)
Fixpoint relaccess_dump_scan (files : gset Oid) (scan : list relaccessEntry)
    (s : backend * world) : backend * world :=
  match scan with
  | [] => s
  | entry :: rest =>
      if decide (dbid (key entry) ∈ files) then
        let '(written, w) := fwrite s.2 in
        if written then
          relaccess_dump_scan files rest
            (set_had_ht_overflow false s.1,
             set_relaccesses (hash_remove (key entry) (relaccesses w))
               (append_record (dbid (key entry)) entry w))
        else
          (* hash_seq_term; ereport(WARNING); break *)
          (elog (WARN_could_not_write (dbid (key entry))) s.1, w)
      else
        (* we don't want to dump events from this DB *)
        relaccess_dump_scan files rest s
  end.

Definition relaccess_dump_to_files_internal (files : gset Oid)
    (s : backend * world) : backend * world :=
  relaccess_dump_scan files (relaccesses s.2) s.

(** [relaccess_dump_to_files] *)
Definition relaccess_dump_to_files (only_this_db : bool)
    (s : backend * world) : backend * world :=
  let '(b, w) := s in
  let '(file_mapping, w) :=
    if only_this_db then add_file_dump_entry (MyDatabaseId b) (∅, w)
    else
      fold_left
        (fun s access_entry => add_file_dump_entry (dbid (key access_entry)) s)
        (relaccesses w) (∅, w) in
  relaccess_dump_to_files_internal file_mapping (b, w).

(** [relaccess_stats_dump] *)
Definition relaccess_stats_dump (s : backend * world) : backend * world :=
  relaccess_dump_to_files true s.

(** [relaccess_shmem_shutdown] *)
Definition relaccess_shmem_shutdown (code : Z) (s : backend * world)
  : backend * world :=
  if negb (code =? 0) then s else relaccess_dump_to_files false s.

(** ** Commit merge *)

(** [UPDATE_STAT(lowercase, uppercase)] on one counter. *)
Definition UPDATE_STAT (n : Z) (src_perms bit : AclMode) : Z :=
  add64 n (if has_perm src_perms bit then 1 else 0).

(** Lines 424-434 of [relaccess_xact_callback]: the [!found] block. *)
Definition reset_if_new (found : bool) (dst_entry : relaccessEntry)
  : relaccessEntry :=
  if found then dst_entry
  else mkEntry (key dst_entry) (relname dst_entry)
         InvalidOid InvalidOid 0 0 0 0 0 0 0.

(** Lines 424-452 of [relaccess_xact_callback] applied to the entry that
    [dst_entry] points to: the [!found] block, the five counters, the two
    guarded time/actor pairs and the copy of the cached name. *)
Definition merge_entry (src_entry : localAccessEntry) (found : bool)
    (cached_relname : string) (dst_entry : relaccessEntry) : relaccessEntry :=
  let d := reset_if_new found dst_entry in
  let p := perms src_entry in
  let d :=
    mkEntry (key d) (relname d) (last_reader_id d) (last_writer_id d)
      (last_read d) (last_write d)
      (UPDATE_STAT (n_select d) p ACL_SELECT)
      (UPDATE_STAT (n_insert d) p ACL_INSERT)
      (UPDATE_STAT (n_update d) p ACL_UPDATE)
      (UPDATE_STAT (n_delete d) p ACL_DELETE)
      (UPDATE_STAT (n_truncate d) p ACL_TRUNCATE) in
  let d :=
    if l_last_read src_entry >? last_read d
    then mkEntry (key d) (relname d) (l_last_reader_id src_entry)
           (last_writer_id d) (l_last_read src_entry) (last_write d)
           (n_select d) (n_insert d) (n_update d) (n_delete d) (n_truncate d)
    else d in
  let d :=
    if l_last_write src_entry >? last_write d
    then mkEntry (key d) (relname d) (last_reader_id d)
           (l_last_writer_id src_entry) (last_read d) (l_last_write src_entry)
           (n_select d) (n_insert d) (n_update d) (n_delete d) (n_truncate d)
    else d in
  mkEntry (key d) (strlcpy cached_relname NAMEDATALEN)
    (last_reader_id d) (last_writer_id d) (last_read d) (last_write d)
    (n_select d) (n_insert d) (n_update d) (n_delete d) (n_truncate d).

(** [hash_search(relname_cache, &key.relid, HASH_ENTER, &found)]: a missing
    relation gets a slot, whose name bytes the model takes as empty. *)
Definition relname_cache_ENTER (relid_ : Oid) (c : gmap Oid string)
  : string * gmap Oid string :=
  match c !! relid_ with
  | Some n => (n, c)
  | None => (EmptyString, <[relid_ := EmptyString]> c)
  end.

(** The tail of the loop body once [dst_entry] is not [NULL]. *)
Definition record_access (src_entry : localAccessEntry) (found : bool)
    (dst_entry : relaccessEntry) (s : backend * world) : backend * world :=
  let '(b, w) := s in
  let '(name, c) := relname_cache_ENTER (relid (key dst_entry)) (relname_cache b) in
  (set_relname_cache c b,
   set_relaccesses
     (hash_store (merge_entry src_entry found name dst_entry) (relaccesses w))
     w).

(** Lines 393-403: probe for the key with [HASH_FIND] when the table is at
    [relaccess_size], with [HASH_ENTER_NULL] otherwise. *)
Definition find_or_insert (k : relaccessHashKey) (w : world)
  : option relaccessEntry * bool * list relaccessEntry :=
  let n_access_records := Z.of_nat (length (relaccesses w)) in
  if n_access_records =? relaccess_size w
  then hash_search_FIND k (relaccesses w)
  else hash_search_ENTER_NULL (relaccess_size w) k (relaccesses w)
         (slot_bytes w k).

(** One iteration of the [while] loop of [relaccess_xact_callback] on
    [XACT_EVENT_COMMIT]. *)
Definition commit_entry (src_entry : localAccessEntry) (s : backend * world)
  : backend * world :=
  let '(b, w) := s in
  let k := mkKey (MyDatabaseId b) (l_relid (l_key src_entry)) in
  let '(dst_entry, found, t) := find_or_insert k w in
  let w := set_relaccesses t w in
  match dst_entry with
  | Some dst => record_access src_entry found dst (b, w)
  | None =>
      if dump_on_overflow b then
        (* we are out of shared memory and need to dump *)
        let '(b, w) := relaccess_dump_to_files false (b, w) in
        let '(dst_entry, found, t) :=
          hash_search_ENTER_NULL (relaccess_size w) k (relaccesses w)
            (slot_bytes w k) in
        match dst_entry with
        | None =>
            (* still no memory left *)
            (if had_ht_overflow b then b
             else set_had_ht_overflow true (elog WARN_unable_to_dump b), w)
        | Some dst =>
            record_access src_entry found dst
              (set_had_ht_overflow false b, set_relaccesses t w)
        end
      else
        (set_had_ht_overflow true
           (if had_ht_overflow b then b else elog WARN_max_tables_exceeded b),
         w)
  end.

(** [CLEAR_HTAB] on both transaction-local tables. *)
Definition clear_local_tables (b : backend) : backend :=
  set_relname_cache ∅ (set_local_access_entries [] b).

(** [relaccess_xact_callback].  The loop visits the staging entries in the
    order of the list, which stands for the order of [hash_seq_search]. *)
Definition relaccess_xact_callback (event : XactEvent) (s : backend * world)
  : backend * world :=
  let '(b, w) := s in
  if negb (is_dispatch (Gp_role b)) || negb (is_enabled b) then s
  else
    match event with
    | XACT_EVENT_COMMIT =>
        let '(b', w') :=
          fold_left (fun s src_entry => commit_entry src_entry s)
            (local_access_entries b) (b, w) in
        (clear_local_tables b', w')
    | XACT_EVENT_ABORT => (clear_local_tables b, w)
    | _ => s
    end.

(** ** Ingestion, read-back and drop *)

(** [unlink] of the dump file of database [d]. *)
Definition unlink (d : Oid) (w : world) : world :=
  set_dump_files (delete d (dump_files w)) w.

(** [relaccess_upsert_from_file].  [connect] is what [SPI_connect] returns,
    [exec] what happens in [SPI_execute]; when that call raises, control
    never reaches the statements after it. *)
Definition relaccess_upsert_from_file (connect : Z) (exec : spi_outcome)
    (s : backend * world) : call_result * (backend * world) :=
  let '(b, w) := s in
  if connect <? 0 then (ERROR_SPI_connect connect, s)
  else
    match exec with
    | SPI_raises => (ERROR_raised, s)
    | SPI_returns ret =>
        let w := unlink (MyDatabaseId b) w in
        if ret <? 0 then (ERROR_SPI_execute ret, (b, w))
        else (RETURN_VOID, (b, w))
    end.

(** [relaccess_stats_update_internal] / [relaccess_stats_update] *)
Definition relaccess_stats_update (connect : Z) (exec : spi_outcome)
    (s : backend * world) : call_result * (backend * world) :=
  relaccess_upsert_from_file connect exec (relaccess_dump_to_files true s).

(** The read loop of [relaccess_stats_from_dump] (lines 523-536): the
    records of the dump file of the current database, none when the file
    cannot be opened. *)
Definition read_dump_file (s : backend * world) : list relaccessEntry :=
  default [] (dump_files s.2 !! MyDatabaseId s.1).

(** The eleven columns that [relaccess_stats_from_dump] returns per record. *)
Definition stats_row (entry : relaccessEntry) :=
  (relid (key entry), relname entry, last_reader_id entry,
   last_writer_id entry, last_read entry, last_write entry,
   n_select entry, n_insert entry, n_update entry, n_delete entry,
   n_truncate entry).

Definition relaccess_stats_from_dump (s : backend * world) :=
  map stats_row (read_dump_file s).

(** The loop of [relaccess_drop_hook] over the entries of the scan. *)
Fixpoint relaccess_drop_scan (objectId : Oid) (scan : list relaccessEntry)
    (s : backend * world) : backend * world :=
  match scan with
  | [] => s
  | entry :: rest =>
      if dbid (key entry) =? objectId then
        relaccess_drop_scan objectId rest
          (set_had_ht_overflow false s.1,
           set_relaccesses (hash_remove (key entry) (relaccesses s.2)) s.2)
      else relaccess_drop_scan objectId rest s
  end.

(** [relaccess_drop_hook] with no previous hook installed. *)
Definition relaccess_drop_hook (access : ObjectAccessType) (classId : Oid)
    (objectId : Oid) (s : backend * world) : backend * world :=
  match access with
  | OAT_DROP =>
      if classId =? DatabaseRelationId then
        let '(b, w) := relaccess_drop_scan objectId (relaccesses s.2) s in
        (b, unlink objectId w)
      else s
  | _ => s
  end.

(** ** Specification-side notions used in the statements *)

(** A sequence of calls of [memorize_local_access_entry] for one relation:
    each event is the permission set of the call and what it read from its
    environment. *)
Definition memorize_events (relid_ : Oid) (evs : list (AclMode * call_env))
    (b : backend) : backend :=
  fold_left (fun b ev => memorize_local_access_entry relid_ ev.1 ev.2 b) evs b.

(** Spec side: the bitwise OR of the permission sets of the events. *)
Definition spec_perms_union (evs : list (AclMode * call_env)) : AclMode :=
  fold_right (fun ev acc => Z.lor ev.1 acc) 0 evs.

(** The timestamps of the events that [kind] selects, in event order. *)
Definition times_of (kind : AclMode -> bool) (evs : list (AclMode * call_env))
  : list TimestampTz :=
  map (fun ev => GetCurrentTimestamp ev.2) (filter (fun ev => kind ev.1 = true) evs).

(** Spec side: the maximum of a list of timestamps, and 0 (the value a
    staging entry starts from) when there is none. *)
Definition spec_max_time (ts : list TimestampTz) : TimestampTz :=
  match ts with
  | [] => 0
  | t :: ts' => fold_right Z.max t ts'
  end.

(** The most recent timestamp of a list in event order, 0 when empty. *)
Definition latest_time (ts : list TimestampTz) : TimestampTz :=
  default 0 (last ts).

(** Event timestamps as a clock that never steps back produces them. *)
Definition clock_monotone (evs : list (AclMode * call_env)) : Prop :=
  StronglySorted Z.le (map (fun ev => GetCurrentTimestamp ev.2) evs).

(** One key per element: the invariant of a hash table. *)
Definition unique_keys (t : list relaccessEntry) : Prop := NoDup (map key t).

(** The records of the dump file of database [d] as a reader finds them. *)
Definition file_records (d : Oid) (w : world) : list relaccessEntry :=
  default [] (dump_files w !! d).

(** The entries of database [d], in scan order. *)
Definition entries_of_db (d : Oid) (t : list relaccessEntry)
  : list relaccessEntry :=
  filter (fun e => dbid (key e) = d) t.

(** Every stored time is at or after the epoch value 0 that new entries
    start from. *)
Definition times_nonneg (t : list relaccessEntry) : Prop :=
  Forall (fun e => 0 <= last_read e /\ 0 <= last_write e) t.

(** The entry of the relation after further events of the same statement. *)
Definition replay (evs : list (AclMode * call_env)) (e : localAccessEntry)
  : localAccessEntry :=
  fold_left (fun e ev => stamp_access ev.1 ev.2 (or_perms ev.1 e)) evs e.

(** ** Concrete states and events used by the examples *)

Definition demo_backend (db : Oid) (spill : bool) : backend :=
  mkBackend db GP_ROLE_DISPATCH true spill [] ∅ 0 false [].

(** The bytes an earlier element left in every free slot of the examples. *)
Definition demo_slot_bytes (k : relaccessHashKey) : relaccessEntry :=
  mkEntry (mkKey 9 9) "stale" 77 88 999 998 41 42 43 44 45.

Definition demo_world (capacity : Z) : world :=
  mkWorld capacity [] ∅ [] demo_slot_bytes.

Definition demo_env (user : Oid) (now : TimestampTz) : call_env :=
  mkEnv user now 4242 4343.

Definition demo_names (r : Oid) : string := "t"%string.

(** Three accesses to one relation while the clock advances. *)
Definition evs_clock_forward : list (AclMode * call_env) :=
  [(ACL_SELECT, demo_env 10 100); (ACL_INSERT, demo_env 11 105);
   (ACL_SELECT, demo_env 12 110)].

(** Two reads of one relation between which the wall clock is set back. *)
Definition evs_clock_back : list (AclMode * call_env) :=
  [(ACL_SELECT, demo_env 10 100); (ACL_SELECT, demo_env 10 90)].

(** The files that [relaccess_dump_to_files] opens. *)
Definition dump_scope (only_this_db : bool) (b : backend) (w : world)
    (d : Oid) : Prop :=
  if only_this_db then d = MyDatabaseId b
  else exists e, e ∈ relaccesses w /\ dbid (key e) = d.

Global Instance relaccessHashKey_eq_dec : EqDecision relaccessHashKey.
Proof. solve_decision. Defined.

(** A table entry of the examples: relation [rel] of database [db], last
    read by [reader] at [rd], selected [nsel] times. *)
Definition demo_entry (db rel reader : Oid) (rd : TimestampTz) (nsel : Z)
  : relaccessEntry :=
  mkEntry (mkKey db rel) "t" reader InvalidOid rd 0 nsel 0 0 0 0.

(** Two relations of database 5 around one of database 6. *)
Definition demo_store : list relaccessEntry :=
  [demo_entry 5 1 10 100 1; demo_entry 6 9 11 101 1; demo_entry 5 2 10 102 2].

(** The table [demo_store] (capacity 8), no dump file yet, and the given
    outcomes of the coming [fwrite] calls. *)
Definition demo_world_store (script : list bool) : world :=
  mkWorld 8 demo_store ∅ script demo_slot_bytes.

(** One statement that selects from relation [rel] at time [now], run by
    [user], up to the end of its executor run. *)
Definition demo_select (rel user : Oid) (now : TimestampTz) (b : backend)
  : backend :=
  relaccess_executor_end_hook
    (collect_relaccess_hook
       [(mkRTE RTE_RELATION rel ACL_SELECT, demo_env user now)] demo_names b).

(** The state of a backend in front of the shared table in which its
    overflow flag, if set, finds the table at capacity.  (The calls of the
    backend itself keep it; a spill by another backend does not.) *)
Definition overflow_means_full (s : backend * world) : Prop :=
  had_ht_overflow s.1 = true ->
  relaccess_size s.2 <= Z.of_nat (length (relaccesses s.2)).

(** One statement selecting from [rel], then the commit of its
    transaction. *)
Definition demo_commit_select (rel user : Oid) (now : TimestampTz)
    (s : backend * world) : backend * world :=
  relaccess_xact_callback XACT_EVENT_COMMIT (demo_select rel user now s.1, s.2).

(** A backend of database 5 whose overflow flag is set, with spilling on,
    and a staged read of relation 3; a table of capacity 1 holding
    relation 1. *)
Definition demo_flagged_backend : backend :=
  mkBackend 5 GP_ROLE_DISPATCH true true [] {[3 := "t"%string]} 1 true
    [WARN_max_tables_exceeded].

Definition demo_staged_read : localAccessEntry :=
  mkLocal (mkLocalKey 3 0) 10 4343 100 0 ACL_SELECT.

Definition demo_full_world : world :=
  mkWorld 1 [demo_entry 5 1 10 90 1] ∅ [] demo_slot_bytes.

(** A full table of capacity 2 holding relations 1 and 2 of database 5. *)
Definition demo_two_world : world :=
  mkWorld 2 [demo_entry 5 1 10 100 1; demo_entry 5 2 10 102 1] ∅ []
    demo_slot_bytes.

(** A staged read of relation 1 by user 13 at time 120. *)
Definition demo_later_read : localAccessEntry :=
  mkLocal (mkLocalKey 1 0) 13 4343 120 0 ACL_SELECT.

(** ** Further entry points of the module *)

(** Narrowing to [int16_t] and to [int]. *)
Definition to_int16 (z : Z) : Z := (z + 2 ^ 15) mod 2 ^ 16 - 2 ^ 15.
Definition to_int32 (z : Z) : Z := (z + 2 ^ 31) mod 2 ^ 32 - 2 ^ 31.

Definition INT_MAX : Z := 2 ^ 31 - 1.

(** The range that [_PG_init] gives [gp_relaccess_stats.max_tables]
    ([DefineCustomIntVariable(..., 65536, 128, INT_MAX, PGC_POSTMASTER, ...)]). *)
Definition max_tables_in_range (w : world) : Prop :=
  128 <= relaccess_size w <= INT_MAX.

(** [relaccess_shmem_startup]: the shared table is created empty with
    [relaccess_size] slots, in shared memory that starts out as zero bytes;
    the stats directory and the environment are what they are at that
    time. *)
Definition relaccess_shmem_startup (max_tables : Z)
    (files : gmap Oid (list relaccessEntry)) (script : list bool) : world :=
  mkWorld max_tables [] files script fresh_entry.

(** [relaccess_stats_fillfactor]: [hash_get_num_entries(relaccesses) * 100 /
    relaccess_size] is computed in [long] (C division truncates) and
    narrowed to [int16_t]. *)
Definition relaccess_stats_fillfactor (w : world) : Z :=
  to_int16 (Z.quot (Z.of_nat (length (relaccesses w)) * 100) (relaccess_size w)).

(** [PGSTAT_STAT_PERMANENT_DIRECTORY] of [pgstat.h]; the header comment of
    the module names the files [pg_stat/relaccess_stats_dump_<dbid>.csv]. *)
Definition PGSTAT_STAT_PERMANENT_DIRECTORY : string := "pg_stat".

(** [get_dump_filename]: ["%s/relaccess_stats_dump_%d.csv"]; [%d] prints the
    oid as an [int]. *)
Definition get_dump_filename (dbid_ : Oid) : string :=
  PGSTAT_STAT_PERMANENT_DIRECTORY +:+ "/relaccess_stats_dump_" +:+
  pretty (to_int32 dbid_) +:+ ".csv".

(** [collect_relaccess_hook] behind a previous [ExecutorCheckPerms_hook]:
    [prev] is [None] when no hook was installed, else what that hook
    returns.  The result is the verdict handed back to the executor. *)
Definition collect_relaccess_hook_chain (prev : option bool)
    (rangeTable : list (RangeTblEntry * call_env))
    (get_rel_name : Oid -> string) (b : backend) : bool * backend :=
  match prev with
  | Some false => (false, b)
  | _ => (true, collect_relaccess_hook rangeTable get_rel_name b)
  end.

(** What one call into the module by some backend does to the shared
    state: a transaction end, an explicit dump, a flush-and-ingest, the drop
    of an object, or the shutdown of the postmaster; and what the
    environment may do between calls: decide the outcome of the coming
    writes, and leave any bytes in the free slots of the table. *)
Inductive world_step : world -> world -> Prop :=
| step_xact b event w :
    world_step w (relaccess_xact_callback event (b, w)).2
| step_dump b w :
    world_step w (relaccess_stats_dump (b, w)).2
| step_update b connect exec w :
    world_step w (relaccess_stats_update connect exec (b, w)).2.2
| step_drop b access classId objectId w :
    world_step w (relaccess_drop_hook access classId objectId (b, w)).2
| step_shutdown b code w :
    world_step w (relaccess_shmem_shutdown code (b, w)).2
| step_environment w script :
    world_step w (set_fwrite_results script w)
| step_slot_bytes w bytes :
    world_step w (set_slot_bytes bytes w).

(** The shared states that calls into the module lead to. *)
Inductive reachable_from (w0 : world) : world -> Prop :=
| reachable_start : reachable_from w0 w0
| reachable_step w w' :
    reachable_from w0 w -> world_step w w' -> reachable_from w0 w'.

(** The three properties of the shared table that every call relies on:
    no more than [relaccess_size] elements (the [Assert] of line 395), one
    element per key, and stored times at or after 0. *)
Definition table_ok (w : world) : Prop :=
  Z.of_nat (length (relaccesses w)) <= relaccess_size w /\
  unique_keys (relaccesses w) /\ times_nonneg (relaccesses w).

(** ** Notions used to state what the hooks stage and what a commit counts *)

(** A range table entry that [collect_relaccess_hook] records: a plain
    relation whose required permissions classify as a read or a write. *)
Definition tracked (rte : RangeTblEntry) : bool :=
  match rtekind rte with
  | RTE_RELATION => is_read (requiredPerms rte) || is_write (requiredPerms rte)
  | _ => false
  end.

(** One pair of calls [memorize_local_access_entry(relid, perms)];
    [update_relname_cache(relid, relname)] as both hooks issue them, with
    what the first call reads from its environment. *)
Definition access_call : Type := Oid * AclMode * call_env * option string.

Definition record_call (get_rel_name : Oid -> string) (b : backend)
    (c : access_call) : backend :=
  let '(relid_, perms_, env, relname_) := c in
  update_relname_cache relid_ relname_ get_rel_name
    (memorize_local_access_entry relid_ perms_ env b).

(** The calls that [collect_relaccess_hook] issues for a range table, and
    those that [collect_truncate_hook] issues for the relations of a
    [TRUNCATE], in order. *)
Definition calls_of_rangeTable (rangeTable : list (RangeTblEntry * call_env))
  : list access_call :=
  omap (fun '(rte, env) =>
          if tracked rte
          then Some (rte_relid rte, requiredPerms rte, env, None)
          else None)
       rangeTable.

Definition calls_of_truncate (relations : list (Oid * string * call_env))
  : list access_call :=
  map (fun '(relid_, rv_relname, env) =>
         (relid_, ACL_TRUNCATE, env, Some rv_relname))
      relations.

(** The access events of relation [r] among the calls, and the names that
    the calls offer for it (the statement's name, else the catalog's), both
    in call order. *)
Definition events_for (r : Oid) (cs : list access_call)
  : list (AclMode * call_env) :=
  omap (fun '(relid_, perms_, env, _) =>
          if decide (relid_ = r) then Some (perms_, env) else None) cs.

Definition names_for (r : Oid) (get_rel_name : Oid -> string)
    (cs : list access_call) : list string :=
  omap (fun '(relid_, _, _, relname_) =>
          if decide (relid_ = r)
          then Some (strlcpy (default (get_rel_name r) relname_) NAMEDATALEN)
          else None) cs.

(** The staging entries of relation [r], one per statement that touched
    it, and a counter after [UPDATE_STAT] ran for each of them. *)
Definition staged_for (r : Oid) (t : list localAccessEntry)
  : list localAccessEntry :=
  filter (fun src => l_relid (l_key src) = r) t.

Definition count_statements (bit : AclMode) (t : list localAccessEntry)
    (n : Z) : Z :=
  fold_left (fun n src => UPDATE_STAT n (perms src) bit) t n.

(** The entry that a commit merges into: the one of the key, or, for a new
    key, its slot as the [!found] block leaves it. *)
Definition entry_or_fresh (k : relaccessHashKey) (t : list relaccessEntry)
  : relaccessEntry :=
  default (fresh_entry k) (hash_find k t).

(** A range table of one statement: relation 1 is read twice and relation 2
    written; a subquery and a relation that needs no tracked permission
    come along. *)
Definition demo_rangeTable : list (RangeTblEntry * call_env) :=
  [(mkRTE RTE_RELATION 1 ACL_SELECT, demo_env 10 100);
   (mkRTE RTE_SUBQUERY 0 ACL_SELECT, demo_env 10 101);
   (mkRTE RTE_RELATION 2 (Z.lor ACL_INSERT ACL_SELECT), demo_env 10 102);
   (mkRTE RTE_RELATION 3 0, demo_env 10 103);
   (mkRTE RTE_RELATION 1 ACL_SELECT, demo_env 10 104)].

(** The catalog name of a relation before and after a rename. *)
Definition demo_old_names (r : Oid) : string := "tbl"%string.
Definition demo_new_names (r : Oid) : string := "new_tbl"%string.

(** The slot of a key that is not staged yet, before the first call for it
    writes the permissions and the times. *)
Definition blank_local_entry (k : localAccessKey) (env : call_env)
  : localAccessEntry :=
  mkLocal k (slot_reader_id env) (slot_writer_id env) 0 0 0.

(** [TRUNCATE t1, t2, t1] as user 10, with relation 1 named a second time
    under another name. *)
Definition demo_truncate : list (Oid * string * call_env) :=
  [(1, "t1"%string, demo_env 10 100); (2, "t2"%string, demo_env 10 101);
   (1, "t1_again"%string, demo_env 10 102)].

(** The five counters of [e'] are those of [e0] after [UPDATE_STAT] ran
    once for each staging entry of [mine]. *)
Definition counted (mine : list localAccessEntry) (e0 e' : relaccessEntry)
  : Prop :=
  n_select e' = count_statements ACL_SELECT mine (n_select e0) /\
  n_insert e' = count_statements ACL_INSERT mine (n_insert e0) /\
  n_update e' = count_statements ACL_UPDATE mine (n_update e0) /\
  n_delete e' = count_statements ACL_DELETE mine (n_delete e0) /\
  n_truncate e' = count_statements ACL_TRUNCATE mine (n_truncate e0).

(** A backend with spilling on and a staged read of relation 3, in front of
    the full table [demo_two_world]. *)
Definition demo_spill_backend : backend :=
  mkBackend 5 GP_ROLE_DISPATCH true true [] {[3 := "t"%string]} 1 false [].

(** [INSERT INTO tbl]; [ALTER TABLE tbl RENAME TO new_tbl]; [SELECT FROM
    new_tbl] in one transaction on relation 7, as in the note of
    [update_relname_cache]: the two statements up to the end of the second
    permission check. *)
Definition demo_renamed (b : backend) : backend :=
  collect_relaccess_hook [(mkRTE RTE_RELATION 7 ACL_SELECT, demo_env 10 110)]
    demo_new_names
    (relaccess_executor_end_hook
       (collect_relaccess_hook
          [(mkRTE RTE_RELATION 7 ACL_INSERT, demo_env 10 100)]
          demo_old_names b)).

(** * Properties *)

(** ** Keys and table probes *)

Lemma key_eqb_eq k1 k2 : key_eqb k1 k2 = true <-> k1 = k2.
Proof.
  unfold key_eqb, relaccess_match_fn. destruct k1 as [d1 r1], k2 as [d2 r2]; simpl.
  destruct (Z.eqb_spec d1 d2), (Z.eqb_spec r1 r2); simpl;
    split; intros H; try discriminate; try congruence.
Qed.

Lemma key_eqb_refl k : key_eqb k k = true.
Proof. by apply key_eqb_eq. Qed.

Lemma key_eqb_neq k1 k2 : key_eqb k1 k2 = false <-> k1 <> k2.
Proof.
  rewrite <- key_eqb_eq. destruct (key_eqb k1 k2); split; congruence.
Qed.

Lemma local_key_eqb_eq k1 k2 : local_key_eqb k1 k2 = true <-> k1 = k2.
Proof.
  unfold local_key_eqb, local_relaccess_match_fn.
  destruct k1 as [r1 c1], k2 as [r2 c2]; simpl.
  destruct (Z.eqb_spec c1 c2), (Z.eqb_spec r1 r2); simpl;
    split; intros H; try discriminate; try congruence.
Qed.

Lemma local_key_eqb_refl k : local_key_eqb k k = true.
Proof. by apply local_key_eqb_eq. Qed.

(** ** Classification of permission sets *)

Lemma is_write_bits p :
  is_write p =
  has_perm p ACL_INSERT || has_perm p ACL_UPDATE ||
  has_perm p ACL_DELETE || has_perm p ACL_TRUNCATE.
Proof.
  unfold is_write, has_perm. rewrite !Z.land_lor_distr_r.
  destruct (Z.eqb_spec (Z.land p ACL_INSERT) 0) as [-> | ?];
  destruct (Z.eqb_spec (Z.land p ACL_UPDATE) 0) as [-> | ?];
  destruct (Z.eqb_spec (Z.land p ACL_DELETE) 0) as [-> | ?];
  destruct (Z.eqb_spec (Z.land p ACL_TRUNCATE) 0) as [-> | ?];
  simpl; try reflexivity;
  apply negb_true_iff, Z.eqb_neq; rewrite !Z.lor_eq_0_iff; tauto.
Qed.

(** [has_perm p (1 << i)] reads bit [i] of the permission set. *)
Lemma has_perm_testbit p i :
  0 <= i -> has_perm p (Z.shiftl 1 i) = Z.testbit p i.
Proof.
  intros Hi. unfold has_perm.
  assert (Hbit : forall n, 0 <= n ->
            Z.testbit (Z.land p (Z.shiftl 1 i)) n =
            Z.testbit p n && (n =? i)).
  { intros n Hn. rewrite Z.land_spec, Z.shiftl_spec by done.
    destruct (Z.eqb_spec n i) as [-> | Hne].
    - by rewrite Z.sub_diag.
    - f_equal. destruct (Z.lt_ge_cases n i).
      + apply Z.testbit_neg_r. lia.
      + apply Z.bits_above_log2; simpl; lia. }
  destruct (Z.testbit p i) eqn:Ht.
  - apply negb_true_iff, Z.eqb_neq. intros H0.
    specialize (Hbit i Hi). rewrite H0, Z.bits_0, Ht, Z.eqb_refl in Hbit.
    discriminate.
  - apply negb_false_iff, Z.eqb_eq. apply Z.bits_inj'. intros n Hn.
    rewrite Hbit, Z.bits_0 by done.
    destruct (Z.eqb_spec n i) as [-> | ?]; [by rewrite Ht | by rewrite andb_false_r].
Qed.

(** C6. A permission set is classified as a write exactly when it has at
    least one of the insert, update, delete or truncate bits, as a read
    exactly when it has the select bit and no write bit; a set with a write
    bit is never classified as a read.  The five bits are bits 0 (insert),
    1 (select), 2 (update), 3 (delete) and 4 (truncate) of the set. *)
Theorem C6_read_write_classification (p : AclMode) :
  (is_write p = true <->
     has_perm p ACL_INSERT = true \/ has_perm p ACL_UPDATE = true \/
     has_perm p ACL_DELETE = true \/ has_perm p ACL_TRUNCATE = true) /\
  (is_read p = true <-> has_perm p ACL_SELECT = true /\ is_write p = false) /\
  (is_write p = true -> is_read p = false) /\
  (forall bit, In bit [ACL_INSERT; ACL_UPDATE; ACL_DELETE; ACL_TRUNCATE] ->
     has_perm p bit = true -> is_read p = false) /\
  (has_perm p ACL_INSERT = Z.testbit p 0 /\
   has_perm p ACL_SELECT = Z.testbit p 1 /\
   has_perm p ACL_UPDATE = Z.testbit p 2 /\
   has_perm p ACL_DELETE = Z.testbit p 3 /\
   has_perm p ACL_TRUNCATE = Z.testbit p 4).
Proof.
  assert (Hw := is_write_bits p).
  split; [| split; [| split; [| split]]].
  - rewrite Hw, !orb_true_iff. tauto.
  - unfold is_read, has_perm. rewrite andb_true_iff, negb_true_iff. tauto.
  - unfold is_read. intros ->. reflexivity.
  - intros bit Hin Hbit. unfold is_read.
    assert (is_write p = true) as ->; [| reflexivity].
    rewrite Hw, !orb_true_iff. simpl in Hin.
    destruct Hin as [<- | [<- | [<- | [<- | []]]]]; tauto.
  - unfold ACL_INSERT, ACL_SELECT, ACL_UPDATE, ACL_DELETE, ACL_TRUNCATE.
    repeat split; apply has_perm_testbit; lia.
Qed.

(** ** The staging buffer *)

Lemma local_find_key k t e : local_find k t = Some e -> l_key e = k.
Proof.
  induction t as [| x t IH]; simpl; [discriminate |].
  destruct (local_key_eqb (l_key x) k) eqn:E; [| exact IH].
  intros [= <-]. by apply local_key_eqb_eq.
Qed.

Lemma local_find_app_new k t e :
  local_find k t = None -> l_key e = k -> local_find k (t ++ [e]) = Some e.
Proof.
  intros Hn <-. induction t as [| x t IH]; simpl in *.
  - by rewrite local_key_eqb_refl.
  - destruct (local_key_eqb (l_key x) (l_key e)); [discriminate | by apply IH].
Qed.

Lemma local_find_store k t e e' :
  local_find k t = Some e -> l_key e' = k ->
  local_find k (local_store e' t) = Some e'.
Proof.
  intros Hf <-. induction t as [| x t IH]; simpl in *; [discriminate |].
  destruct (local_key_eqb (l_key x) (l_key e')) eqn:E; simpl.
  - by rewrite local_key_eqb_refl.
  - rewrite E. by apply IH.
Qed.

Lemma stamp_access_key p env e : l_key (stamp_access p env e) = l_key e.
Proof. unfold stamp_access. by destruct (is_read p), (is_write p). Qed.

Lemma stamp_access_perms p env e : perms (stamp_access p env e) = perms e.
Proof. unfold stamp_access. by destruct (is_read p), (is_write p). Qed.

Lemma memorize_stmt_counter r p env b :
  stmt_counter (memorize_local_access_entry r p env b) = stmt_counter b.
Proof.
  unfold memorize_local_access_entry.
  by destruct (local_find _ (local_access_entries b)).
Qed.

(** What a call leaves under its own key: the stamped new slot, or the
    stamped old entry with the permission set OR-ed in. *)
Lemma memorize_lookup r p env b :
  let k := mkLocalKey r (stmt_counter b) in
  local_find k (local_access_entries (memorize_local_access_entry r p env b)) =
  Some (stamp_access p env
          (match local_find k (local_access_entries b) with
           | None => new_local_entry k p env
           | Some e => or_perms p e
           end)).
Proof.
  intros k. unfold memorize_local_access_entry. fold k.
  destruct (local_find k (local_access_entries b)) as [e |] eqn:Hf; simpl.
  - apply local_find_store with (e := e); [exact Hf |].
    rewrite stamp_access_key. simpl. by apply local_find_key in Hf.
  - apply local_find_store with (e := new_local_entry k p env).
    + by apply local_find_app_new.
    + by rewrite stamp_access_key.
Qed.

Lemma memorize_events_lookup r evs : forall b e,
  local_find (mkLocalKey r (stmt_counter b)) (local_access_entries b) = Some e ->
  local_find (mkLocalKey r (stmt_counter b))
    (local_access_entries (memorize_events r evs b)) = Some (replay evs e)
  /\ stmt_counter (memorize_events r evs b) = stmt_counter b.
Proof.
  induction evs as [| [p env] evs IH]; intros b e Hf; simpl; [done |].
  pose proof (memorize_lookup r p env b) as Hl. simpl in Hl. rewrite Hf in Hl.
  pose proof (memorize_stmt_counter r p env b) as Hc.
  rewrite <- Hc in Hl. destruct (IH _ _ Hl) as [H1 H2].
  unfold memorize_events in *. rewrite <- Hc at 1. rewrite H1, H2. done.
Qed.

Lemma replay_perms evs : forall e,
  perms (replay evs e) = Z.lor (perms e) (spec_perms_union evs).
Proof.
  induction evs as [| [p env] evs IH]; intros e; simpl.
  - by rewrite Z.lor_0_r.
  - unfold replay in *. simpl. rewrite IH, stamp_access_perms. simpl.
    by rewrite Z.lor_assoc.
Qed.

Lemma is_write_not_read p : is_write p = true -> is_read p = false.
Proof. unfold is_read. by intros ->. Qed.

Lemma stamp_access_last_read p env e :
  l_last_read (stamp_access p env e) =
  if is_read p then GetCurrentTimestamp env else l_last_read e.
Proof. unfold stamp_access. by destruct (is_read p), (is_write p). Qed.

Lemma stamp_access_last_write p env e :
  l_last_write (stamp_access p env e) =
  if is_write p then GetCurrentTimestamp env else l_last_write e.
Proof. unfold stamp_access. by destruct (is_read p), (is_write p). Qed.

Lemma default_last_cons (d x : Z) l : default d (last (x :: l)) = default x (last l).
Proof. destruct l as [| y l]; [done |]. revert x y. induction l; intros; simpl in *; auto. Qed.

Lemma times_of_cons kind p env evs :
  times_of kind ((p, env) :: evs) =
  if kind p then GetCurrentTimestamp env :: times_of kind evs
  else times_of kind evs.
Proof.
  unfold times_of. rewrite filter_cons. simpl.
  destruct (kind p); simpl; try case_decide; done.
Qed.

Lemma replay_last_read evs : forall e,
  l_last_read (replay evs e) =
  default (l_last_read e) (last (times_of is_read evs)).
Proof.
  induction evs as [| [p env] evs IH]; intros e; [done |].
  unfold replay in *. simpl. rewrite IH, stamp_access_last_read, times_of_cons.
  simpl. destruct (is_read p); [by rewrite default_last_cons | done].
Qed.

Lemma replay_last_write evs : forall e,
  l_last_write (replay evs e) =
  default (l_last_write e) (last (times_of is_write evs)).
Proof.
  induction evs as [| [p env] evs IH]; intros e; [done |].
  unfold replay in *. simpl. rewrite IH, stamp_access_last_write, times_of_cons.
  simpl. destruct (is_write p); [by rewrite default_last_cons | done].
Qed.

Lemma max_absorb (t a : Z) l :
  t <= a -> Z.max a (fold_right Z.max t l) = fold_right Z.max a l.
Proof. intros Hta. induction l as [| x l IH]; simpl; lia. Qed.

Lemma sorted_latest_is_max ts :
  StronglySorted Z.le ts -> latest_time ts = spec_max_time ts.
Proof.
  unfold latest_time, spec_max_time. destruct ts as [| t ts]; [done |].
  rewrite default_last_cons. revert t.
  induction ts as [| a ts IH]; intros t Hs; [done |].
  apply StronglySorted_inv in Hs as [Hs Ht].
  rewrite default_last_cons, IH by exact Hs. simpl.
  symmetry. apply max_absorb. by inversion Ht.
Qed.

Lemma Forall_times_of (Q : Z -> Prop) kind evs :
  Forall Q (map (fun ev : AclMode * call_env => GetCurrentTimestamp ev.2) evs) ->
  Forall Q (times_of kind evs).
Proof.
  induction evs as [| [p env] evs IH]; intros H; [constructor |].
  inversion H as [| ? ? Hq Hrest]; subst. rewrite times_of_cons.
  destruct (kind p); [constructor |]; auto.
Qed.

Lemma clock_monotone_times kind evs :
  clock_monotone evs -> StronglySorted Z.le (times_of kind evs).
Proof.
  unfold clock_monotone.
  induction evs as [| [p env] evs IH]; intros Hs; [constructor |].
  simpl in Hs. apply StronglySorted_inv in Hs as [Hs Ht].
  rewrite times_of_cons. destruct (kind p); [| by apply IH].
  constructor; [by apply IH | by apply Forall_times_of].
Qed.

Lemma replay_key evs : forall e, l_key (replay evs e) = l_key e.
Proof.
  induction evs as [| [p env] evs IH]; intros e; [done |].
  unfold replay in *. simpl. by rewrite IH, stamp_access_key.
Qed.

(** The staging entry that a non-empty sequence of events of one statement
    leaves for a relation that the statement had not touched before. *)
Lemma staging_entry_of_events b r evs :
  evs <> [] ->
  local_find (mkLocalKey r (stmt_counter b)) (local_access_entries b) = None ->
  exists e,
    local_find (mkLocalKey r (stmt_counter b))
      (local_access_entries (memorize_events r evs b)) = Some e /\
    l_key e = mkLocalKey r (stmt_counter b) /\
    perms e = spec_perms_union evs /\
    l_last_read e = latest_time (times_of is_read evs) /\
    l_last_write e = latest_time (times_of is_write evs).
Proof.
  intros Hne Hnone. destruct evs as [| [p env] evs]; [done |].
  set (k := mkLocalKey r (stmt_counter b)) in *.
  set (e1 := stamp_access p env (new_local_entry k p env)).
  pose proof (memorize_lookup r p env b) as Hl. simpl in Hl. fold k in Hl.
  rewrite Hnone in Hl. fold e1 in Hl.
  pose proof (memorize_stmt_counter r p env b) as Hc.
  assert (Hl' := Hl). unfold k in Hl'. rewrite <- Hc in Hl'.
  destruct (memorize_events_lookup r evs _ _ Hl') as [Hfin _].
  rewrite Hc in Hfin. fold k in Hfin.
  exists (replay evs e1). split; [exact Hfin |].
  split; [by rewrite replay_key; unfold e1; rewrite stamp_access_key |].
  split; [rewrite replay_perms; unfold e1; by rewrite stamp_access_perms |].
  split.
  - rewrite replay_last_read, times_of_cons. unfold e1, latest_time.
    rewrite stamp_access_last_read. simpl.
    destruct (is_read p); [by rewrite default_last_cons | done].
  - rewrite replay_last_write, times_of_cons. unfold e1, latest_time.
    rewrite stamp_access_last_write. simpl.
    destruct (is_write p); [by rewrite default_last_cons | done].
Qed.

(** C5 (as amended). For every non-empty sequence of events recorded for one
    relation within one statement, the staging entry's permission set is the
    bitwise OR of the events' permission sets, and its last_read
    (last_write) is the timestamp of the latest read-classified
    (write-classified) event, 0 when there is none; when the clock never
    steps back between the events this is the maximum of those timestamps. *)
Theorem C5_staging_entry_accumulates (b : backend) (r : Oid)
    (evs : list (AclMode * call_env)) :
  evs <> [] ->
  local_find (mkLocalKey r (stmt_counter b)) (local_access_entries b) = None ->
  exists e,
    local_find (mkLocalKey r (stmt_counter b))
      (local_access_entries (memorize_events r evs b)) = Some e /\
    perms e = spec_perms_union evs /\
    l_last_read e = latest_time (times_of is_read evs) /\
    l_last_write e = latest_time (times_of is_write evs) /\
    (clock_monotone evs ->
     l_last_read e = spec_max_time (times_of is_read evs) /\
     l_last_write e = spec_max_time (times_of is_write evs)).
Proof.
  intros Hne Hnone.
  destruct (staging_entry_of_events b r evs Hne Hnone)
    as (e & Hfind & _ & Hp & Hr & Hw).
  exists e. repeat split; try done.
  - rewrite Hr. apply sorted_latest_is_max. by apply clock_monotone_times.
  - rewrite Hw. apply sorted_latest_is_max. by apply clock_monotone_times.
Qed.

Lemma C5_witness :
  exists e,
    local_find (mkLocalKey 7 (stmt_counter (demo_backend 5 false)))
      (local_access_entries
         (memorize_events 7 evs_clock_forward (demo_backend 5 false))) = Some e /\
    perms e = spec_perms_union evs_clock_forward /\
    l_last_read e = latest_time (times_of is_read evs_clock_forward) /\
    l_last_write e = latest_time (times_of is_write evs_clock_forward) /\
    (clock_monotone evs_clock_forward ->
     l_last_read e = spec_max_time (times_of is_read evs_clock_forward) /\
     l_last_write e = spec_max_time (times_of is_write evs_clock_forward)).
Proof.
  apply (C5_staging_entry_accumulates (demo_backend 5 false) 7 evs_clock_forward);
    [discriminate | reflexivity].
Defined.

(** C5 as stated fails: two reads of relation 7 in one statement, stamped
    100 and then 90 by a clock that was set back in between, leave
    last_read = 90, not the maximum 100. *)
Lemma C5_counterexample_clock_set_back :
  exists e,
    local_find (mkLocalKey 7 0)
      (local_access_entries
         (memorize_events 7 evs_clock_back (demo_backend 5 false))) = Some e /\
    l_last_read e = 90 /\
    spec_max_time (times_of is_read evs_clock_back) = 100.
Proof. eexists. repeat split; vm_compute; reflexivity. Qed.

(** ** The shared table *)

Lemma hash_find_key k t e : hash_find k t = Some e -> key e = k.
Proof.
  induction t as [| x t IH]; simpl; [discriminate |].
  destruct (key_eqb (key x) k) eqn:E; [| exact IH].
  intros [= <-]. by apply key_eqb_eq.
Qed.

Lemma hash_find_elem k t e : hash_find k t = Some e -> e ∈ t.
Proof.
  induction t as [| x t IH]; simpl; [discriminate |].
  destruct (key_eqb (key x) k); [intros [= <-]; left | right; auto].
Qed.

Lemma hash_find_None k t :
  hash_find k t = None <-> forall e, e ∈ t -> key e <> k.
Proof.
  induction t as [| x t IH]; simpl.
  - split; [intros _ e He; by apply elem_of_nil in He | done].
  - destruct (key_eqb (key x) k) eqn:E.
    + split; [discriminate |]. intros H. apply key_eqb_eq in E.
      exfalso. apply (H x); [left | done].
    + rewrite IH. apply key_eqb_neq in E. split.
      * intros H e He. apply elem_of_cons in He as [-> | He]; auto.
      * intros H e He. apply H. by right.
Qed.

Lemma hash_find_app k t t' :
  hash_find k (t ++ t') =
  match hash_find k t with Some e => Some e | None => hash_find k t' end.
Proof.
  induction t as [| x t IH]; simpl; [done |].
  by destruct (key_eqb (key x) k).
Qed.

Lemma hash_find_fresh k : hash_find k [fresh_entry k] = Some (fresh_entry k).
Proof. simpl. by rewrite key_eqb_refl. Qed.

Lemma hash_find_store_same k t e e' :
  hash_find k t = Some e -> key e' = k ->
  hash_find k (hash_store e' t) = Some e'.
Proof.
  intros Hf <-. induction t as [| x t IH]; simpl in *; [discriminate |].
  destruct (key_eqb (key x) (key e')) eqn:E; simpl.
  - by rewrite key_eqb_refl.
  - rewrite E. by apply IH.
Qed.

Lemma hash_find_store_other k t e' :
  key e' <> k -> hash_find k (hash_store e' t) = hash_find k t.
Proof.
  intros Hne. induction t as [| x t IH]; simpl; [done |].
  destruct (key_eqb (key x) (key e')) eqn:E; simpl.
  - apply key_eqb_eq in E. rewrite E.
    apply key_eqb_neq in Hne. by rewrite Hne.
  - by rewrite IH.
Qed.

Lemma hash_store_length e' t : length (hash_store e' t) = length t.
Proof.
  induction t as [| x t IH]; simpl; [done |].
  destruct (key_eqb (key x) (key e')); simpl; by rewrite ?IH.
Qed.

Lemma hash_store_keys e' t : map key (hash_store e' t) = map key t.
Proof.
  induction t as [| x t IH]; simpl; [done |].
  destruct (key_eqb (key x) (key e')) eqn:E; simpl.
  - apply key_eqb_eq in E. by rewrite E.
  - by rewrite IH.
Qed.

Lemma hash_find_remove_other k k' t :
  k <> k' -> hash_find k (hash_remove k' t) = hash_find k t.
Proof.
  intros Hne. induction t as [| x t IH]; simpl; [done |].
  destruct (key_eqb (key x) k') eqn:E; simpl.
  - apply key_eqb_eq in E. subst k'.
    assert (key_eqb (key x) k = false) as -> by (apply key_eqb_neq; congruence).
    done.
  - by rewrite IH.
Qed.

Lemma hash_find_remove_None k k' t :
  hash_find k t = None -> hash_find k (hash_remove k' t) = None.
Proof.
  induction t as [| x t IH]; simpl; [done |].
  destruct (key_eqb (key x) k) eqn:E; [discriminate |]. intros Hn.
  destruct (key_eqb (key x) k'); simpl; [done |]. rewrite E. by apply IH.
Qed.

(** With one element per key, removing a key that sits right after a prefix
    that does not hold it takes out exactly that element. *)
Lemma hash_remove_middle kept e rest :
  (forall x, x ∈ kept -> key x <> key e) ->
  hash_remove (key e) (kept ++ e :: rest) = kept ++ rest.
Proof.
  intros Hk. induction kept as [| x kept IH]; simpl.
  - by rewrite key_eqb_refl.
  - assert (key_eqb (key x) (key e) = false) as ->.
    { apply key_eqb_neq, Hk. left. }
    rewrite IH; [done |]. intros y Hy. apply Hk. by right.
Qed.

Lemma merge_entry_key src found name dst :
  key (merge_entry src found name dst) = key dst.
Proof.
  unfold merge_entry, reset_if_new.
  destruct found; simpl;
    repeat match goal with |- context [if ?c then _ else _] => destruct c end;
    reflexivity.
Qed.

Lemma set_relaccesses_same w : set_relaccesses (relaccesses w) w = w.
Proof. by destruct w. Qed.

(** ** The cases of one commit-merge step *)

Lemma find_or_insert_found k w e :
  hash_find k (relaccesses w) = Some e ->
  find_or_insert k w = (Some e, true, relaccesses w).
Proof.
  intros Hf. unfold find_or_insert, hash_search_FIND, hash_search_ENTER_NULL.
  rewrite Hf. by destruct (_ =? _).
Qed.

Lemma find_or_insert_room k w :
  hash_find k (relaccesses w) = None ->
  Z.of_nat (length (relaccesses w)) < relaccess_size w ->
  find_or_insert k w =
  (Some (new_slot k (slot_bytes w k)), false,
   relaccesses w ++ [new_slot k (slot_bytes w k)]).
Proof.
  intros Hf Hlt. unfold find_or_insert, hash_search_ENTER_NULL.
  rewrite Hf. destruct (Z.eqb_spec (Z.of_nat (length (relaccesses w)))
                          (relaccess_size w)); [lia |].
  destruct (Z.ltb_spec (Z.of_nat (length (relaccesses w))) (relaccess_size w));
    [done | lia].
Qed.

Lemma find_or_insert_full k w :
  hash_find k (relaccesses w) = None ->
  relaccess_size w <= Z.of_nat (length (relaccesses w)) ->
  find_or_insert k w = (None, false, relaccesses w).
Proof.
  intros Hf Hge. unfold find_or_insert, hash_search_FIND, hash_search_ENTER_NULL.
  rewrite Hf. destruct (_ =? _); [done |].
  destruct (Z.ltb_spec (Z.of_nat (length (relaccesses w))) (relaccess_size w));
    [lia | done].
Qed.

Lemma commit_entry_found src b w e :
  hash_find (mkKey (MyDatabaseId b) (l_relid (l_key src))) (relaccesses w) = Some e ->
  commit_entry src (b, w) = record_access src true e (b, w).
Proof.
  intros Hf. unfold commit_entry.
  rewrite (find_or_insert_found _ _ _ Hf). by rewrite set_relaccesses_same.
Qed.

(** The [!found] block and the copy of the name overwrite every byte that
    the slot of a new key held. *)
Lemma merge_entry_new_slot src name k bytes :
  merge_entry src false name (new_slot k bytes) =
  merge_entry src false name (fresh_entry k).
Proof.
  unfold merge_entry, reset_if_new. simpl.
  destruct (l_last_read src >? 0); simpl;
    destruct (l_last_write src >? 0); reflexivity.
Qed.

Lemma hash_store_snoc e' x t :
  hash_find (key e') t = None -> key x = key e' ->
  hash_store e' (t ++ [x]) = t ++ [e'].
Proof.
  intros Hn Hk. induction t as [| y t IH]; simpl in *.
  - by rewrite Hk, key_eqb_refl.
  - destruct (key_eqb (key y) (key e')); [done |]. by rewrite IH.
Qed.

(** So the step that enters a new key does not depend on those bytes. *)
Lemma record_access_new_slot src k bytes b w t :
  hash_find k t = None ->
  record_access src false (new_slot k bytes)
    (b, set_relaccesses (t ++ [new_slot k bytes]) w) =
  record_access src false (fresh_entry k)
    (b, set_relaccesses (t ++ [fresh_entry k]) w).
Proof.
  intros Hn. unfold record_access. cbn [key new_slot fresh_entry].
  destruct (relname_cache_ENTER (relid k) (relname_cache b)) as [name c].
  rewrite merge_entry_new_slot. f_equal.
  change (relaccesses (set_relaccesses ?x _)) with x.
  rewrite !hash_store_snoc; try done; by rewrite merge_entry_key.
Qed.

Lemma commit_entry_room src b w :
  let k := mkKey (MyDatabaseId b) (l_relid (l_key src)) in
  hash_find k (relaccesses w) = None ->
  Z.of_nat (length (relaccesses w)) < relaccess_size w ->
  commit_entry src (b, w) =
  record_access src false (fresh_entry k)
    (b, set_relaccesses (relaccesses w ++ [fresh_entry k]) w).
Proof.
  intros k Hf Hlt. unfold commit_entry. fold k.
  rewrite (find_or_insert_room _ _ Hf Hlt).
  by apply record_access_new_slot.
Qed.

Lemma commit_entry_full_drop src b w :
  hash_find (mkKey (MyDatabaseId b) (l_relid (l_key src))) (relaccesses w) = None ->
  relaccess_size w <= Z.of_nat (length (relaccesses w)) ->
  dump_on_overflow b = false ->
  commit_entry src (b, w) =
  (set_had_ht_overflow true
     (if had_ht_overflow b then b else elog WARN_max_tables_exceeded b), w).
Proof.
  intros Hf Hge Hd. unfold commit_entry.
  rewrite (find_or_insert_full _ _ Hf Hge), Hd. by rewrite set_relaccesses_same.
Qed.

Lemma commit_entry_full_spill src b w :
  let k := mkKey (MyDatabaseId b) (l_relid (l_key src)) in
  hash_find k (relaccesses w) = None ->
  relaccess_size w <= Z.of_nat (length (relaccesses w)) ->
  dump_on_overflow b = true ->
  commit_entry src (b, w) =
  let s1 := relaccess_dump_to_files false (b, w) in
  match hash_search_ENTER_NULL (relaccess_size s1.2) k (relaccesses s1.2)
          (slot_bytes s1.2 k) with
  | (None, _, _) =>
      (if had_ht_overflow s1.1 then s1.1
       else set_had_ht_overflow true (elog WARN_unable_to_dump s1.1), s1.2)
  | (Some dst, found, t) =>
      record_access src found dst
        (set_had_ht_overflow false s1.1, set_relaccesses t s1.2)
  end.
Proof.
  intros k Hf Hge Hd. unfold commit_entry. fold k.
  rewrite (find_or_insert_full _ _ Hf Hge), Hd, set_relaccesses_same.
  destruct (relaccess_dump_to_files false (b, w)) as [b1 w1]. simpl.
  by destruct (hash_search_ENTER_NULL _ _ _ _) as [[[dst |] found] t].
Qed.

Lemma record_access_backend src found dst b w :
  let s' := record_access src found dst (b, w) in
  had_ht_overflow s'.1 = had_ht_overflow b /\
  server_log s'.1 = server_log b /\
  MyDatabaseId s'.1 = MyDatabaseId b /\
  dump_on_overflow s'.1 = dump_on_overflow b /\
  local_access_entries s'.1 = local_access_entries b /\
  relaccess_size s'.2 = relaccess_size w /\
  dump_files s'.2 = dump_files w /\
  relaccesses s'.2 =
    hash_store
      (merge_entry src found
         (relname_cache_ENTER (relid (key dst)) (relname_cache b)).1 dst)
      (relaccesses w).
Proof.
  unfold record_access.
  destruct (relname_cache_ENTER _ _) as [name c]. simpl. done.
Qed.

Lemma record_access_flag src found dst s :
  had_ht_overflow (record_access src found dst s).1 = had_ht_overflow s.1.
Proof. destruct s as [b w]. apply (record_access_backend src found dst b w). Qed.

Lemma record_access_log src found dst s :
  server_log (record_access src found dst s).1 = server_log s.1.
Proof. destruct s as [b w]. apply (record_access_backend src found dst b w). Qed.

Lemma record_access_relaccesses src found dst s :
  relaccesses (record_access src found dst s).2 =
  hash_store
    (merge_entry src found
       (relname_cache_ENTER (relid (key dst)) (relname_cache s.1)).1 dst)
    (relaccesses s.2).
Proof. destruct s as [b w]. apply (record_access_backend src found dst b w). Qed.

Lemma record_access_size src found dst s :
  relaccess_size (record_access src found dst s).2 = relaccess_size s.2.
Proof. destruct s as [b w]. apply (record_access_backend src found dst b w). Qed.

(** ** Counters *)

Lemma add64_in_range x y :
  - 2 ^ 63 <= x + y < 2 ^ 63 -> add64 x y = x + y.
Proof. intros H. unfold add64. rewrite Z.mod_small; lia. Qed.

Lemma UPDATE_STAT_in_range n p bit :
  0 <= n < INT64_MAX ->
  UPDATE_STAT n p bit = if has_perm p bit then n + 1 else n.
Proof.
  unfold UPDATE_STAT, INT64_MAX. intros H.
  destruct (has_perm p bit); rewrite add64_in_range; lia.
Qed.

Lemma merge_entry_counters src found name dst :
  let d := reset_if_new found dst in
  let e' := merge_entry src found name dst in
  n_select e' = UPDATE_STAT (n_select d) (perms src) ACL_SELECT /\
  n_insert e' = UPDATE_STAT (n_insert d) (perms src) ACL_INSERT /\
  n_update e' = UPDATE_STAT (n_update d) (perms src) ACL_UPDATE /\
  n_delete e' = UPDATE_STAT (n_delete d) (perms src) ACL_DELETE /\
  n_truncate e' = UPDATE_STAT (n_truncate d) (perms src) ACL_TRUNCATE.
Proof.
  unfold merge_entry. simpl.
  repeat match goal with |- context [if ?c then _ else _] =>
    match c with
    | _ >? _ => destruct c
    end end; simpl; done.
Qed.



(** The scenario of the specification: capacity 2; commit A touches
    relations 1 and 2; commit B touches relation 3 with spilling disabled
    and is dropped with one warning; commit C touches relation 1 again and
    is counted without a further warning. *)
Lemma capacity_two_scenario :
  let a :=
    relaccess_xact_callback XACT_EVENT_COMMIT
      (demo_select 2 10 101 (demo_select 1 10 100 (demo_backend 5 false)),
       demo_world 2) in
  let b := demo_commit_select 3 10 102 a in
  let c := demo_commit_select 1 10 103 b in
  relaccesses a.2 = [demo_entry 5 1 10 100 1; demo_entry 5 2 10 101 1] /\
  relaccesses b.2 = relaccesses a.2 /\
  server_log b.1 = [WARN_max_tables_exceeded] /\
  relaccesses c.2 = [demo_entry 5 1 10 103 2; demo_entry 5 2 10 101 1] /\
  server_log c.1 = [WARN_max_tables_exceeded].
Proof. vm_compute. repeat split; reflexivity. Qed.

(** ** The spill pass *)

Lemma file_records_append d d' e w :
  file_records d (append_record d' e w) =
  if decide (d = d') then file_records d w ++ [e] else file_records d w.
Proof.
  unfold file_records, append_record. simpl.
  case_decide as Hd.
  - subst d'. by rewrite lookup_insert_eq.
  - by rewrite lookup_insert_ne.
Qed.

Lemma fwrite_spec w :
  let r := fwrite w in
  relaccesses r.2 = relaccesses w /\ dump_files r.2 = dump_files w /\
  relaccess_size r.2 = relaccess_size w /\
  (r.1 = false -> exists rs, fwrite_results w = false :: rs) /\
  (forall x, x ∈ fwrite_results r.2 -> x ∈ fwrite_results w).
Proof.
  unfold fwrite. destruct (fwrite_results w) as [| x rs] eqn:E; simpl.
  - rewrite E. repeat split; try done.
  - repeat split; try done.
    + intros ->. by exists rs.
    + intros y Hy. by right.
Qed.

(** What a pass over a table with one element per key does.  The scan
    splits into the entries visited before the pass ended ([visited]) and
    those never reached ([unvisited], non-empty only when a write failed, its
    head being the entry of the failed write).  Visited entries of the
    selected databases are in their files and out of the table, in scan
    order; everything else stays where it was. *)
Lemma relaccess_dump_scan_spec files scan : forall b w kept,
  relaccesses w = kept ++ scan ->
  unique_keys (kept ++ scan) ->
  let s' := relaccess_dump_scan files scan (b, w) in
  exists visited unvisited,
    scan = visited ++ unvisited /\
    relaccesses s'.2 =
      kept ++ filter (fun e => dbid (key e) ∉ files) visited ++ unvisited /\
    (forall d, file_records d s'.2 =
               file_records d w ++
               filter (fun e => dbid (key e) = d /\ d ∈ files) visited) /\
    relaccess_size s'.2 = relaccess_size w /\
    ((unvisited = [] /\ server_log s'.1 = server_log b) \/
     (exists e rest, unvisited = e :: rest /\ dbid (key e) ∈ files /\
        false ∈ fwrite_results w /\
        server_log s'.1 =
          server_log b ++ [WARN_could_not_write (dbid (key e))])) /\
    had_ht_overflow s'.1 =
      (if decide (filter (fun e => dbid (key e) ∈ files) visited = [])
       then had_ht_overflow b else false) /\
    MyDatabaseId s'.1 = MyDatabaseId b /\
    dump_on_overflow s'.1 = dump_on_overflow b /\
    local_access_entries s'.1 = local_access_entries b /\
    relname_cache s'.1 = relname_cache b.
Proof.
  induction scan as [| entry rest IH]; intros b w kept Ht Hu; cbn zeta.
  - exists [], []. simpl. rewrite Ht.
    repeat split; try done.
    + intros d. by rewrite app_nil_r.
    + by left.
  - simpl. case_decide as Hin.
    + pose proof (fwrite_spec w) as (Hr & Hf & Hsz & Hfail & Hscript).
      destruct (fwrite w) as [ok w1]. simpl in *. destruct ok.
      * assert (Hu' : unique_keys (kept ++ rest)).
        { unfold unique_keys in *. rewrite map_app in *. simpl in Hu.
          apply NoDup_app in Hu as (Hk & Hd & Hr'). apply NoDup_app.
          apply NoDup_cons in Hr' as [? ?]. repeat split; try done.
          intros x Hx Hx'. apply (Hd x Hx). by right. }
        assert (Hrm : hash_remove (key entry) (relaccesses w1) = kept ++ rest).
        { rewrite Hr, Ht. apply hash_remove_middle. intros x Hx Heq.
          unfold unique_keys in Hu. rewrite map_app in Hu. simpl in Hu.
          apply NoDup_app in Hu as (_ & Hd & _).
          apply (Hd (key x)); [by apply list_elem_of_fmap_2 | rewrite Heq; left]. }
        destruct (IH (set_had_ht_overflow false b)
                    (set_relaccesses (hash_remove (key entry) (relaccesses w1))
                       (append_record (dbid (key entry)) entry w1))
                    kept)
          as (vis & unv & Hsplit & Hstore & Hfiles & Hsize & Hend & Hflag & Hrest);
          [simpl; exact Hrm | exact Hu' |].
        exists (entry :: vis), unv. split; [by rewrite Hsplit |].
        split.
        { rewrite Hstore, filter_cons_False; [done | by intros Hc]. }
        split.
        { intros d. rewrite Hfiles.
          assert (file_records d
                    (set_relaccesses (hash_remove (key entry) (relaccesses w1))
                       (append_record (dbid (key entry)) entry w1)) =
                  if decide (d = dbid (key entry))
                  then file_records d w ++ [entry] else file_records d w) as ->.
          { pose proof (file_records_append d (dbid (key entry)) entry w1) as Ha.
            unfold file_records in *. simpl in *. rewrite Ha, Hf. done. }
          destruct (decide (d = dbid (key entry))) as [-> | Hd].
          - rewrite filter_cons_True by done. by rewrite <- app_assoc.
          - rewrite filter_cons_False; [done |]. intros [Heq _]. by apply Hd. }
        split; [simpl in Hsize; by rewrite Hsize, Hsz |].
        split.
        { destruct Hend as [[-> Hlog] | (e & r' & -> & He & Hfalse & Hlog)].
          - left. done.
          - right. exists e, r'. repeat split; try done.
            apply Hscript. exact Hfalse. }
        split; [| exact Hrest].
        rewrite Hflag, filter_cons_True by exact Hin.
        rewrite (decide_False (P := _ :: _ = [])) by done.
        by destruct (decide _).
      * exists [], (entry :: rest). simpl. rewrite Hr, Ht.
        repeat split; try done.
        -- intros d. unfold file_records. by rewrite Hf, app_nil_r.
        -- right. exists entry, rest. destruct (Hfail eq_refl) as [rs Hrs].
           repeat split; try done. rewrite Hrs. left.
    + destruct (IH b w (kept ++ [entry]))
        as (vis & unv & Hsplit & Hstore & Hfiles & Hsize & Hend & Hflag & Hrest).
      { by rewrite <- app_assoc. }
      { by rewrite <- app_assoc. }
      exists (entry :: vis), unv. split; [by rewrite Hsplit |].
      split.
      { rewrite Hstore, filter_cons_True by exact Hin. by rewrite <- app_assoc. }
      split.
      { intros d. rewrite Hfiles, filter_cons_False; [done |].
        intros [<- ?]. done. }
      split; [done |]. split; [exact Hend |].
      split; [| exact Hrest].
      by rewrite Hflag, filter_cons_False by exact Hin.
Qed.


Lemma add_file_dump_entry_spec d files w :
  let r := add_file_dump_entry d (files, w) in
  (forall x, x ∈ r.1 <-> x = d \/ x ∈ files) /\
  relaccesses r.2 = relaccesses w /\
  (forall d', file_records d' r.2 = file_records d' w) /\
  relaccess_size r.2 = relaccess_size w /\
  fwrite_results r.2 = fwrite_results w.
Proof.
  unfold add_file_dump_entry. case_decide as Hin; simpl.
  - split; [| done].
    intros x. split; [by right | intros [-> | ?]; done].
  - split; [intros x; by rewrite elem_of_union, elem_of_singleton |].
    destruct (dump_files w !! d) eqn:E; simpl; repeat split; try done.
    intros d'. unfold file_records. simpl.
    destruct (decide (d' = d)) as [-> | Hne].
    + by rewrite lookup_insert_eq, E.
    + by rewrite lookup_insert_ne.
Qed.

Lemma add_file_dump_entries_spec t : forall files w,
  let r :=
    fold_left (fun s e => add_file_dump_entry (dbid (key e)) s) t (files, w) in
  (forall x, x ∈ r.1 <-> x ∈ files \/ exists e, e ∈ t /\ dbid (key e) = x) /\
  relaccesses r.2 = relaccesses w /\
  (forall d', file_records d' r.2 = file_records d' w) /\
  relaccess_size r.2 = relaccess_size w /\
  fwrite_results r.2 = fwrite_results w.
Proof.
  induction t as [| e t IH]; intros files w; cbv zeta; cbn [fold_left].
  - simpl. repeat split; try done; [by left |].
    intros [? | (e & He & _)]; [done | by apply elem_of_nil in He].
  - pose proof (add_file_dump_entry_spec (dbid (key e)) files w)
      as (Hm & Hr & Hf & Hs & Hw).
    destruct (add_file_dump_entry (dbid (key e)) (files, w)) as [files1 w1].
    simpl in *. pose proof (IH files1 w1) as IH1. cbv zeta in IH1.
    destruct IH1 as (Hm' & Hr' & Hf' & Hs' & Hw').
    split; [| split; [| split; [| split]]]; try congruence.
    + intros x. rewrite Hm', Hm. split.
      * intros [[-> | ?] | (e' & He' & Hd)]; [right | by left | right].
        -- exists e. split; [left | done].
        -- exists e'. split; [by right | done].
      * intros [? | (e' & He' & Hd)]; [left; by right |].
        apply elem_of_cons in He' as [-> | He']; [left; by left |].
        right. by exists e'.
Qed.

Lemma relaccess_dump_to_files_spec only_this_db b w :
  unique_keys (relaccesses w) ->
  let s' := relaccess_dump_to_files only_this_db (b, w) in
  exists (files : gset Oid) visited unvisited,
    (forall d, d ∈ files <-> dump_scope only_this_db b w d) /\
    relaccesses w = visited ++ unvisited /\
    relaccesses s'.2 =
      filter (fun e => dbid (key e) ∉ files) visited ++ unvisited /\
    (forall d, file_records d s'.2 =
               file_records d w ++
               filter (fun e => dbid (key e) = d /\ d ∈ files) visited) /\
    relaccess_size s'.2 = relaccess_size w /\
    ((unvisited = [] /\ server_log s'.1 = server_log b) \/
     (exists e rest, unvisited = e :: rest /\ dbid (key e) ∈ files /\
        false ∈ fwrite_results w /\
        server_log s'.1 =
          server_log b ++ [WARN_could_not_write (dbid (key e))])) /\
    had_ht_overflow s'.1 =
      (if decide (filter (fun e => dbid (key e) ∈ files) visited = [])
       then had_ht_overflow b else false) /\
    MyDatabaseId s'.1 = MyDatabaseId b /\
    dump_on_overflow s'.1 = dump_on_overflow b /\
    local_access_entries s'.1 = local_access_entries b /\
    relname_cache s'.1 = relname_cache b.
Proof.
  intros Hu. cbv zeta. unfold relaccess_dump_to_files.
  assert (exists files w1,
    (if only_this_db then add_file_dump_entry (MyDatabaseId b) (∅, w)
     else fold_left (fun s e => add_file_dump_entry (dbid (key e)) s)
            (relaccesses w) (∅, w)) = (files, w1) /\
    (forall d, d ∈ files <-> dump_scope only_this_db b w d) /\
    relaccesses w1 = relaccesses w /\
    (forall d', file_records d' w1 = file_records d' w) /\
    relaccess_size w1 = relaccess_size w /\
    fwrite_results w1 = fwrite_results w)
    as (files & w1 & -> & Hscope & Hr & Hf & Hs & Hw).
  { destruct only_this_db.
    - pose proof (add_file_dump_entry_spec (MyDatabaseId b) ∅ w)
        as (Hm & Hr & Hf & Hs & Hw).
      destruct (add_file_dump_entry _ _) as [files w1]. exists files, w1.
      repeat split; try done; simpl in *.
      + intros Hd. apply Hm in Hd as [-> | Hd]; [done |].
        by apply elem_of_empty in Hd.
      + intros ->. apply Hm. by left.
    - pose proof (add_file_dump_entries_spec (relaccesses w) ∅ w) as Hspec.
      cbv zeta in Hspec. destruct Hspec as (Hm & Hr & Hf & Hs & Hw).
      destruct (fold_left _ _ _) as [files w1]. exists files, w1.
      repeat split; try done; simpl in *.
      + intros Hd. apply Hm in Hd as [Hd | Hd]; [| done].
        by apply elem_of_empty in Hd.
      + intros Hd. apply Hm. by right. }
  unfold relaccess_dump_to_files_internal. cbn [snd].
  pose proof (relaccess_dump_scan_spec files (relaccesses w1) b w1 []) as Hspec.
  cbv zeta in Hspec.
  destruct Hspec
    as (vis & unv & Hsplit & Hstore & Hfiles & Hsize & Hend & Hflag & Hrest);
    [done | simpl; by rewrite Hr |].
  exists files, vis, unv. split; [exact Hscope |].
  split; [by rewrite <- Hr |]. split; [exact Hstore |].
  split; [intros d; by rewrite Hfiles, Hf |].
  split; [by rewrite Hsize |].
  split; [by rewrite <- Hw |]. split; [exact Hflag | exact Hrest].
Qed.

(** C8 (as amended). For a table with one element per key and a pass in
    which no write fails, spilling the entries of the current database and reading its
    dump file back yields the records the file already held followed by
    exactly the entries of that database that were in the table, field for
    field and in scan order (so exactly those entries when the file did not
    exist); afterwards the table holds no key of that database, and the
    entries of other databases are as before. *)
Theorem C8_spill_then_read_back (b : backend) (w : world) :
  unique_keys (relaccesses w) ->
  false ∉ fwrite_results w ->
  let s' := relaccess_stats_dump (b, w) in
  let mine := entries_of_db (MyDatabaseId b) (relaccesses w) in
  read_dump_file s' = read_dump_file (b, w) ++ mine /\
  relaccess_stats_from_dump s' =
    relaccess_stats_from_dump (b, w) ++ map stats_row mine /\
  (dump_files w !! MyDatabaseId b = None -> read_dump_file s' = mine) /\
  relaccesses s'.2 =
    filter (fun e => dbid (key e) <> MyDatabaseId b) (relaccesses w) /\
  (forall e, e ∈ mine -> hash_find (key e) (relaccesses s'.2) = None).
Proof.
  intros Hu Hok. cbv zeta. unfold relaccess_stats_dump.
  pose proof (relaccess_dump_to_files_spec true b w Hu) as Hspec.
  cbv zeta in Hspec.
  destruct Hspec as (files & vis & unv & Hscope & Hsplit & Hstore & Hfiles &
                     _ & Hend & _ & Hdb & _).
  destruct Hend as [[-> _] | (e & rest & _ & _ & Hfalse & _)]; [| done].
  rewrite app_nil_r in Hsplit, Hstore. subst vis.
  assert (Hread : read_dump_file (relaccess_dump_to_files true (b, w)) =
                  read_dump_file (b, w) ++
                  entries_of_db (MyDatabaseId b) (relaccesses w)).
  { unfold read_dump_file. cbn [fst snd]. rewrite Hdb.
    fold (file_records (MyDatabaseId b) (relaccess_dump_to_files true (b, w)).2).
    rewrite Hfiles. f_equal. unfold entries_of_db.
    apply list_filter_iff. intros x. split; [by intros [? _] |].
    intros Hx. split; [done |]. by apply Hscope. }
  assert (Hstore' : relaccesses (relaccess_dump_to_files true (b, w)).2 =
            filter (fun e => dbid (key e) <> MyDatabaseId b) (relaccesses w)).
  { rewrite Hstore. apply list_filter_iff. intros x.
    split; intros Hx Hy; apply Hx; by apply Hscope. }
  split; [exact Hread |].
  split; [unfold relaccess_stats_from_dump; by rewrite Hread, map_app |].
  split.
  { intros Hnone. rewrite Hread. unfold read_dump_file. simpl.
    by rewrite Hnone. }
  split; [exact Hstore' |].
  intros e He. apply list_elem_of_filter in He as [He _].
  rewrite Hstore'. apply hash_find_None. intros x Hx Hk.
  apply list_elem_of_filter in Hx as [Hx _]. apply Hx. by rewrite Hk.
Qed.

Lemma demo_store_unique_keys : unique_keys demo_store.
Proof. unfold unique_keys. by apply (bool_decide_unpack _). Qed.

Lemma C8_witness :
  let b := demo_backend 5 false in
  let w := demo_world_store [] in
  let s' := relaccess_stats_dump (b, w) in
  let mine := entries_of_db (MyDatabaseId b) (relaccesses w) in
  read_dump_file s' = read_dump_file (b, w) ++ mine /\
  relaccess_stats_from_dump s' =
    relaccess_stats_from_dump (b, w) ++ map stats_row mine /\
  (dump_files w !! MyDatabaseId b = None -> read_dump_file s' = mine) /\
  relaccesses s'.2 =
    filter (fun e => dbid (key e) <> MyDatabaseId b) (relaccesses w) /\
  (forall e, e ∈ mine -> hash_find (key e) (relaccesses s'.2) = None).
Proof.
  apply (C8_spill_then_read_back (demo_backend 5 false) (demo_world_store [])).
  - exact demo_store_unique_keys.
  - simpl. apply not_elem_of_nil.
Defined.




(** ** Ingestion *)

Lemma relaccess_dump_scan_session files scan : forall s,
  let s' := relaccess_dump_scan files scan s in
  MyDatabaseId s'.1 = MyDatabaseId s.1 /\ Gp_role s'.1 = Gp_role s.1 /\
  is_enabled s'.1 = is_enabled s.1 /\
  dump_on_overflow s'.1 = dump_on_overflow s.1 /\
  local_access_entries s'.1 = local_access_entries s.1 /\
  relname_cache s'.1 = relname_cache s.1 /\
  stmt_counter s'.1 = stmt_counter s.1 /\
  relaccess_size s'.2 = relaccess_size s.2.
Proof.
  induction scan as [| entry rest IH]; intros [b w]; cbv zeta; simpl; [done |].
  case_decide as Hin; [| apply IH].
  pose proof (fwrite_spec w) as (_ & _ & Hsz & _).
  destruct (fwrite w) as [[] w1]; simpl in *; [| done].
  pose proof (IH (set_had_ht_overflow false b,
                  set_relaccesses (hash_remove (key entry) (relaccesses w1))
                    (append_record (dbid (key entry)) entry w1))) as Hrec.
  cbv zeta in Hrec. simpl in Hrec. by rewrite <- Hsz.
Qed.

Lemma relaccess_dump_to_files_session only_this_db s :
  let s' := relaccess_dump_to_files only_this_db s in
  MyDatabaseId s'.1 = MyDatabaseId s.1 /\ Gp_role s'.1 = Gp_role s.1 /\
  is_enabled s'.1 = is_enabled s.1 /\
  dump_on_overflow s'.1 = dump_on_overflow s.1 /\
  local_access_entries s'.1 = local_access_entries s.1 /\
  relname_cache s'.1 = relname_cache s.1 /\
  stmt_counter s'.1 = stmt_counter s.1 /\
  relaccess_size s'.2 = relaccess_size s.2.
Proof.
  destruct s as [b w]. cbv zeta. unfold relaccess_dump_to_files.
  assert (exists files w1,
    (if only_this_db then add_file_dump_entry (MyDatabaseId b) (∅, w)
     else fold_left (fun s e => add_file_dump_entry (dbid (key e)) s)
            (relaccesses w) (∅, w)) = (files, w1) /\
    relaccess_size w1 = relaccess_size w) as (files & w1 & -> & Hs).
  { destruct only_this_db.
    - pose proof (add_file_dump_entry_spec (MyDatabaseId b) ∅ w)
        as (_ & _ & _ & Hs & _).
      destruct (add_file_dump_entry _ _) as [files w1]. by exists files, w1.
    - pose proof (add_file_dump_entries_spec (relaccesses w) ∅ w) as Hspec.
      cbv zeta in Hspec. destruct Hspec as (_ & _ & _ & Hs & _).
      destruct (fold_left _ _ _) as [files w1]. by exists files, w1. }
  unfold relaccess_dump_to_files_internal.
  pose proof (relaccess_dump_scan_session files (relaccesses (b, w1).2) (b, w1))
    as H.
  cbv zeta in H. simpl in *. by rewrite <- Hs.
Qed.

(** The path on which ingestion fails by raising: the error reaches the
    caller and the state is the one the spill left, dump file included. *)
Lemma relaccess_stats_update_raises connect s :
  0 <= connect ->
  relaccess_stats_update connect SPI_raises s =
  (ERROR_raised, relaccess_dump_to_files true s).
Proof.
  intros Hc. unfold relaccess_stats_update, relaccess_upsert_from_file.
  destruct (relaccess_dump_to_files true s) as [b w].
  destruct (Z.ltb_spec connect 0); [lia | done].
Qed.

(** The branch [if (ret < 0)] of [relaccess_upsert_from_file] stands after
    the [unlink]: were [SPI_execute] to return a negative status, the error
    would reach the caller with the dump file already deleted.  (For the
    constant [SELECT] of the function, run after a successful
    [SPI_connect], [SPI_execute] has no negative status to return: a
    failing query raises.) *)
Lemma negative_status_after_unlink (b : backend) (w : world)
    (connect ret : Z) :
  0 <= connect -> ret < 0 ->
  let r := relaccess_stats_update connect (SPI_returns ret) (b, w) in
  r.1 = ERROR_SPI_execute ret /\
  dump_files r.2.2 !! MyDatabaseId b = None.
Proof.
  intros Hc Hr. cbv zeta. unfold relaccess_stats_update.
  pose proof (relaccess_dump_to_files_session true (b, w)) as H.
  cbv zeta in H. destruct H as (Hdb & _).
  destruct (relaccess_dump_to_files true (b, w)) as [b1 w1]. simpl in *.
  unfold relaccess_upsert_from_file.
  destruct (Z.ltb_spec connect 0); [lia |].
  destruct (Z.ltb_spec ret 0); [| lia]. simpl.
  split; [done |]. rewrite Hdb. apply lookup_delete_eq.
Qed.

Lemma negative_status_after_unlink_example :
  let b := demo_backend 5 false in
  let w := demo_world_store [] in
  let r := relaccess_stats_update 0 (SPI_returns (-3)) (b, w) in
  r.1 = ERROR_SPI_execute (-3) /\
  dump_files r.2.2 !! MyDatabaseId b = None.
Proof.
  apply (negative_status_after_unlink (demo_backend 5 false)
           (demo_world_store []) 0 (-3)); lia.
Defined.

(** The same input on both failure paths: with a negative status the two
    spilled entries of database 5 are in neither the table nor a file; when
    the call raises they are in the file. *)
Lemma relaccess_stats_update_failure_paths :
  let s := (demo_backend 5 false, demo_world_store []) in
  let lost := relaccess_stats_update 0 (SPI_returns (-3)) s in
  let kept := relaccess_stats_update 0 SPI_raises s in
  lost.1 = ERROR_SPI_execute (-3) /\
  relaccesses lost.2.2 = [demo_entry 6 9 11 101 1] /\
  dump_files lost.2.2 !! 5 = None /\
  kept.1 = ERROR_raised /\
  dump_files kept.2.2 !! 5 =
    Some [demo_entry 5 1 10 100 1; demo_entry 5 2 10 102 2].
Proof. vm_compute. repeat split; reflexivity. Qed.

(** ** Transaction end *)

(** With collection enabled at the time of the abort, the shared table and
    the files are untouched and both transaction-local tables are emptied. *)
Lemma abort_while_enabled b w :
  Gp_role b = GP_ROLE_DISPATCH -> is_enabled b = true ->
  let s' := relaccess_xact_callback XACT_EVENT_ABORT (b, w) in
  s'.2 = w /\ local_access_entries s'.1 = [] /\ relname_cache s'.1 = ∅.
Proof.
  intros Hr He. cbv zeta. unfold relaccess_xact_callback.
  rewrite Hr, He. simpl. done.
Qed.

(** With collection disabled at the time of the abort the callback returns
    at once: nothing is emptied. *)
Lemma abort_while_disabled b w :
  is_enabled b = false ->
  relaccess_xact_callback XACT_EVENT_ABORT (b, w) = (b, w).
Proof.
  intros He. unfold relaccess_xact_callback. rewrite He.
  by rewrite orb_true_r.
Qed.

(** C9 (where the code departs from it). A transaction selects from
    relation 1 while collection is enabled, collection is then switched off
    in the session, and the transaction aborts.  The shared table is
    unchanged, but the staging buffer and the name cache keep the entry of
    the aborted statement; once collection is on again, the commit of the
    next transaction, which touched nothing, merges that entry into the
    shared table. *)
Theorem C9_abort_while_disabled_keeps_staging :
  let w := demo_world 8 in
  let staged := demo_select 1 10 100 (demo_backend 5 false) in
  let aborted :=
    relaccess_xact_callback XACT_EVENT_ABORT (set_is_enabled false staged, w) in
  let next :=
    relaccess_xact_callback XACT_EVENT_COMMIT
      (set_is_enabled true aborted.1, aborted.2) in
  aborted.2 = w /\
  local_access_entries aborted.1 =
    [mkLocal (mkLocalKey 1 0) 10 4343 100 0 ACL_SELECT] /\
  relname_cache aborted.1 !! 1 = Some "t"%string /\
  relaccesses next.2 = [demo_entry 5 1 10 100 1].
Proof. vm_compute. repeat split; reflexivity. Qed.

(** ** The overflow flag *)

Lemma relaccess_dump_scan_absent k files scan : forall s,
  hash_find k (relaccesses s.2) = None ->
  hash_find k (relaccesses (relaccess_dump_scan files scan s).2) = None.
Proof.
  induction scan as [| entry rest IH]; intros [b w] Hn; simpl; [done |].
  case_decide as Hin; [| by apply IH].
  pose proof (fwrite_spec w) as (Hr & _).
  destruct (fwrite w) as [[] w1]; simpl in *.
  - apply IH. simpl. apply hash_find_remove_None. by rewrite Hr.
  - by rewrite Hr.
Qed.

Lemma relaccess_dump_to_files_relaccesses_in only_this_db b w :
  exists files w1,
    relaccess_dump_to_files only_this_db (b, w) =
      relaccess_dump_scan files (relaccesses w) (b, w1) /\
    relaccesses w1 = relaccesses w.
Proof.
  unfold relaccess_dump_to_files, relaccess_dump_to_files_internal.
  destruct only_this_db.
  - pose proof (add_file_dump_entry_spec (MyDatabaseId b) ∅ w) as (_ & Hr & _).
    destruct (add_file_dump_entry _ _) as [files w1]. exists files, w1.
    simpl in *. by rewrite Hr.
  - pose proof (add_file_dump_entries_spec (relaccesses w) ∅ w) as Hspec.
    cbv zeta in Hspec. destruct Hspec as (_ & Hr & _).
    destruct (fold_left _ _ _) as [files w1]. exists files, w1.
    simpl in *. by rewrite Hr.
Qed.

Lemma relaccess_dump_to_files_absent k only_this_db b w :
  hash_find k (relaccesses w) = None ->
  hash_find k (relaccesses (relaccess_dump_to_files only_this_db (b, w)).2) = None.
Proof.
  intros Hn.
  destruct (relaccess_dump_to_files_relaccesses_in only_this_db b w)
    as (files & w1 & -> & Hr).
  apply relaccess_dump_scan_absent. simpl. by rewrite Hr.
Qed.

Lemma hash_search_ENTER_NULL_absent max k t bytes :
  hash_find k t = None ->
  hash_search_ENTER_NULL max k t bytes =
  if Z.of_nat (length t) <? max
  then (Some (new_slot k bytes), false, t ++ [new_slot k bytes])
  else (None, false, t).
Proof. intros Hn. unfold hash_search_ENTER_NULL. by rewrite Hn. Qed.

(** The step that finds the table full, with spilling enabled, in terms of
    the state [s1] that the spill leaves. *)
Lemma commit_entry_after_spill src b w :
  let k := mkKey (MyDatabaseId b) (l_relid (l_key src)) in
  let s1 := relaccess_dump_to_files false (b, w) in
  hash_find k (relaccesses w) = None ->
  relaccess_size w <= Z.of_nat (length (relaccesses w)) ->
  dump_on_overflow b = true ->
  commit_entry src (b, w) =
  if Z.of_nat (length (relaccesses s1.2)) <? relaccess_size s1.2
  then record_access src false (fresh_entry k)
         (set_had_ht_overflow false s1.1,
          set_relaccesses (relaccesses s1.2 ++ [fresh_entry k]) s1.2)
  else (if had_ht_overflow s1.1 then s1.1
        else set_had_ht_overflow true (elog WARN_unable_to_dump s1.1), s1.2).
Proof.
  intros k s1 Hn Hfull Hd.
  rewrite (commit_entry_full_spill src b w Hn Hfull Hd). cbv zeta. fold k s1.
  rewrite hash_search_ENTER_NULL_absent
    by (by apply relaccess_dump_to_files_absent).
  destruct (_ <? _); [| done].
  apply record_access_new_slot. by apply relaccess_dump_to_files_absent.
Qed.

(** C3 (as amended). In a commit-merge step that inserts a new key, the
    overflow flag is clear afterwards whenever the table was at capacity
    before the step (the insert succeeded on the retry after a spill),
    whichever key had been dropped before; when the table had a free slot
    the insert succeeds at the first attempt and the flag keeps its value.
    A backend whose flag is only set while the table is full therefore
    always ends such a step with the flag clear. *)
Theorem C3_flag_after_insert_of_new_key (b : backend) (w : world)
    (src : localAccessEntry) :
  let k := mkKey (MyDatabaseId b) (l_relid (l_key src)) in
  let s' := commit_entry src (b, w) in
  hash_find k (relaccesses w) = None ->
  is_Some (hash_find k (relaccesses s'.2)) ->
  (relaccess_size w <= Z.of_nat (length (relaccesses w)) ->
   had_ht_overflow s'.1 = false) /\
  (Z.of_nat (length (relaccesses w)) < relaccess_size w ->
   had_ht_overflow s'.1 = had_ht_overflow b) /\
  (overflow_means_full (b, w) -> had_ht_overflow b = true ->
   had_ht_overflow s'.1 = false).
Proof.
  intros k s' Hn Hins.
  assert (Hfull : relaccess_size w <= Z.of_nat (length (relaccesses w)) ->
                  had_ht_overflow s'.1 = false).
  { intros Hge. subst s'. destruct (dump_on_overflow b) eqn:Hd.
    - rewrite (commit_entry_after_spill src b w Hn Hge Hd) in Hins |- *.
      fold k in Hins |- *.
      pose proof (relaccess_dump_to_files_absent k false b w Hn) as Hn1.
      destruct (_ <? _).
      + by rewrite record_access_flag.
      + cbn [fst snd] in Hins. rewrite Hn1 in Hins. by destruct Hins.
    - rewrite (commit_entry_full_drop src b w Hn Hge Hd) in Hins.
      simpl in Hins. fold k in Hn. rewrite Hn in Hins. by destruct Hins. }
  split; [exact Hfull |]. split.
  - intros Hlt. subst s'. rewrite (commit_entry_room src b w Hn Hlt).
    by rewrite record_access_flag.
  - intros Hinv Hflag. apply Hfull. by apply Hinv.
Qed.

Lemma C3_witness :
  let b := demo_flagged_backend in
  let w := demo_full_world in
  let src := demo_staged_read in
  let k := mkKey (MyDatabaseId b) (l_relid (l_key src)) in
  let s' := commit_entry src (b, w) in
  (relaccess_size w <= Z.of_nat (length (relaccesses w)) ->
   had_ht_overflow s'.1 = false) /\
  (Z.of_nat (length (relaccesses w)) < relaccess_size w ->
   had_ht_overflow s'.1 = had_ht_overflow b) /\
  (overflow_means_full (b, w) -> had_ht_overflow b = true ->
   had_ht_overflow s'.1 = false).
Proof.
  apply (C3_flag_after_insert_of_new_key demo_flagged_backend demo_full_world
           demo_staged_read).
  - reflexivity.
  - vm_compute. eexists. reflexivity.
Defined.

(** C3 as stated fails.  The table has capacity 1.  Backend A commits
    relation 1, then relation 2, which is dropped and sets A's flag; backend
    B spills the table with [relaccess_stats_dump], which clears B's flag
    only; A then commits relation 3: the insert of the new key succeeds at
    the first attempt and A's flag is still set.  The next overflow in A
    (relation 4) is therefore dropped without any warning. *)
Lemma C3_counterexample_flag_survives_insert :
  let a0 := demo_backend 5 false in
  let b0 := demo_backend 5 false in
  let s1 := demo_commit_select 1 10 100 (a0, demo_world 1) in
  let s2 := demo_commit_select 2 10 101 s1 in
  let s3 := relaccess_stats_dump (b0, s2.2) in
  let s4 := demo_commit_select 3 10 102 (s2.1, s3.2) in
  let s5 := demo_commit_select 4 10 103 s4 in
  had_ht_overflow s2.1 = true /\
  server_log s2.1 = [WARN_max_tables_exceeded] /\
  hash_find (mkKey 5 3) (relaccesses s3.2) = None /\
  hash_find (mkKey 5 3) (relaccesses s4.2) = Some (demo_entry 5 3 10 102 1) /\
  had_ht_overflow s4.1 = true /\
  relaccesses s5.2 = relaccesses s4.2 /\
  server_log s5.1 = [WARN_max_tables_exceeded].
Proof. vm_compute. repeat split; reflexivity. Qed.

(** *** The flag within one backend *)

Lemma relaccess_dump_scan_flag_false files scan : forall s,
  had_ht_overflow s.1 = false ->
  had_ht_overflow (relaccess_dump_scan files scan s).1 = false.
Proof.
  induction scan as [| entry rest IH]; intros [b w] Hf; simpl; [done |].
  case_decide; [| by apply IH].
  destruct (fwrite w) as [[] w1]; simpl in *; [by apply IH | done].
Qed.

Lemma relaccess_dump_scan_flag_true files scan : forall s,
  had_ht_overflow (relaccess_dump_scan files scan s).1 = true ->
  relaccesses (relaccess_dump_scan files scan s).2 = relaccesses s.2.
Proof.
  induction scan as [| entry rest IH]; intros [b w]; simpl; [done |].
  case_decide; [| by apply IH].
  pose proof (fwrite_spec w) as (Hr & _).
  destruct (fwrite w) as [[] w1]; simpl in *; [| done].
  intros Ht. rewrite relaccess_dump_scan_flag_false in Ht; done.
Qed.

Lemma overflow_means_full_dump only_this_db s :
  overflow_means_full s ->
  overflow_means_full (relaccess_dump_to_files only_this_db s).
Proof.
  destruct s as [b w]. unfold overflow_means_full. intros Hinv Ht.
  pose proof (relaccess_dump_to_files_session only_this_db (b, w)) as Hs.
  cbv zeta in Hs. destruct Hs as (_ & _ & _ & _ & _ & _ & _ & ->).
  destruct (relaccess_dump_to_files_relaccesses_in only_this_db b w)
    as (files & w1 & Heq & Hr).
  rewrite Heq in Ht |- *.
  rewrite (relaccess_dump_scan_flag_true _ _ _ Ht). simpl. rewrite Hr.
  apply Hinv. simpl.
  destruct (had_ht_overflow b) eqn:E; [done |].
  by rewrite relaccess_dump_scan_flag_false in Ht.
Qed.

Lemma overflow_means_full_commit_entry src s :
  overflow_means_full s -> overflow_means_full (commit_entry src s).
Proof.
  destruct s as [b w]. unfold overflow_means_full. cbn [fst snd]. intros Hinv.
  destruct (hash_find (mkKey (MyDatabaseId b) (l_relid (l_key src)))
              (relaccesses w)) as [e |] eqn:Hf.
  - rewrite (commit_entry_found _ _ _ _ Hf), record_access_flag,
      record_access_size, record_access_relaccesses, hash_store_length.
    exact Hinv.
  - destruct (Z.lt_ge_cases (Z.of_nat (length (relaccesses w)))
                (relaccess_size w)) as [Hlt | Hge].
    + rewrite (commit_entry_room _ _ _ Hf Hlt), record_access_flag. simpl.
      intros Ht. specialize (Hinv Ht). lia.
    + destruct (dump_on_overflow b) eqn:Hd.
      * rewrite (commit_entry_after_spill _ _ _ Hf Hge Hd).
        destruct (Z.ltb_spec
                    (Z.of_nat (length (relaccesses
                       (relaccess_dump_to_files false (b, w)).2)))
                    (relaccess_size (relaccess_dump_to_files false (b, w)).2)).
        -- by rewrite record_access_flag.
        -- intros _. cbn [snd]. lia.
      * rewrite (commit_entry_full_drop _ _ _ Hf Hge Hd). simpl. auto.
Qed.

Lemma overflow_means_full_commit t : forall s,
  overflow_means_full s ->
  overflow_means_full (fold_left (fun s src => commit_entry src s) t s).
Proof.
  induction t as [| src t IH]; intros s Hs; simpl; [done |].
  by apply IH, overflow_means_full_commit_entry.
Qed.

(** The transaction-end callback of a backend keeps
    [overflow_means_full]. *)
Lemma overflow_means_full_xact_callback event s :
  overflow_means_full s ->
  overflow_means_full (relaccess_xact_callback event s).
Proof.
  destruct s as [b w]. intros Hs. unfold relaccess_xact_callback.
  destruct (negb _ || negb _); [done |].
  destruct event; try done.
  pose proof (overflow_means_full_commit (local_access_entries b) (b, w) Hs) as H.
  by destruct (fold_left _ _ _) as [b' w'].
Qed.

(** ** Last-access times in the shared table *)

Lemma merge_entry_times src found name dst :
  let d := reset_if_new found dst in
  let e' := merge_entry src found name dst in
  last_read e' =
    (if l_last_read src >? last_read d then l_last_read src else last_read d) /\
  last_reader_id e' =
    (if l_last_read src >? last_read d then l_last_reader_id src
     else last_reader_id d) /\
  last_write e' =
    (if l_last_write src >? last_write d then l_last_write src
     else last_write d) /\
  last_writer_id e' =
    (if l_last_write src >? last_write d then l_last_writer_id src
     else last_writer_id d).
Proof.
  cbv zeta. unfold merge_entry. cbn zeta.
  destruct (reset_if_new found dst) as [dk dn dr dw dtr dtw c1 c2 c3 c4 c5].
  cbn [key relname last_reader_id last_writer_id last_read last_write
       n_select n_insert n_update n_delete n_truncate].
  destruct (l_last_read src >? dtr); cbn [last_read last_write last_reader_id
    last_writer_id key relname n_select n_insert n_update n_delete n_truncate];
  destruct (l_last_write src >? dtw); done.
Qed.

Lemma hash_find_unique t e :
  unique_keys t -> e ∈ t -> hash_find (key e) t = Some e.
Proof.
  unfold unique_keys. induction t as [| x t IH]; intros Hu He.
  - by apply elem_of_nil in He.
  - simpl in *. apply NoDup_cons in Hu as [Hx Hu].
    apply elem_of_cons in He as [-> | He]; [by rewrite key_eqb_refl |].
    destruct (key_eqb (key x) (key e)) eqn:E; [| by apply IH].
    apply key_eqb_eq in E. exfalso. apply Hx. rewrite E.
    by apply list_elem_of_fmap_2.
Qed.

Lemma hash_remove_subset k t x : x ∈ hash_remove k t -> x ∈ t.
Proof.
  induction t as [| y t IH]; simpl; [done |].
  destruct (key_eqb (key y) k); [by right |].
  intros Hx. apply elem_of_cons in Hx as [-> | Hx]; [left | right; auto].
Qed.

Lemma relaccess_dump_scan_subset files scan x : forall s,
  x ∈ relaccesses (relaccess_dump_scan files scan s).2 -> x ∈ relaccesses s.2.
Proof.
  induction scan as [| entry rest IH]; intros [b w]; simpl; [done |].
  case_decide; [| by apply IH].
  pose proof (fwrite_spec w) as (Hr & _).
  destruct (fwrite w) as [[] w1]; simpl in *.
  - intros Hx. apply IH in Hx. simpl in Hx.
    apply hash_remove_subset in Hx. by rewrite <- Hr.
  - by rewrite Hr.
Qed.

Lemma relaccess_dump_to_files_subset only_this_db b w x :
  x ∈ relaccesses (relaccess_dump_to_files only_this_db (b, w)).2 ->
  x ∈ relaccesses w.
Proof.
  destruct (relaccess_dump_to_files_relaccesses_in only_this_db b w)
    as (files & w1 & -> & Hr).
  intros Hx. apply relaccess_dump_scan_subset in Hx. simpl in Hx.
  by rewrite <- Hr.
Qed.

(** A step leaves the entries of keys other than its own as they are,
    as long as they stay in the table. *)
Lemma commit_entry_other_key src b w k e e' :
  unique_keys (relaccesses w) ->
  k <> mkKey (MyDatabaseId b) (l_relid (l_key src)) ->
  hash_find k (relaccesses w) = Some e ->
  hash_find k (relaccesses (commit_entry src (b, w)).2) = Some e' ->
  e' = e.
Proof.
  intros Hu Hne He.
  set (ks := mkKey (MyDatabaseId b) (l_relid (l_key src))) in *.
  assert (Hstore : forall m t, key m = ks ->
            hash_find k (hash_store m t) = hash_find k t).
  { intros m t Hm. apply hash_find_store_other. rewrite Hm. congruence. }
  assert (Hfresh : forall t, hash_find k (t ++ [fresh_entry ks]) = hash_find k t).
  { intros t. rewrite hash_find_app. destruct (hash_find k t); [done |].
    simpl. assert (key_eqb ks k = false) as ->; [| done].
    apply key_eqb_neq. congruence. }
  destruct (hash_find ks (relaccesses w)) as [es |] eqn:Hs.
  - rewrite (commit_entry_found _ _ _ _ Hs), record_access_relaccesses, Hstore.
    + simpl. congruence.
    + rewrite merge_entry_key. by apply hash_find_key in Hs.
  - destruct (Z.lt_ge_cases (Z.of_nat (length (relaccesses w)))
                (relaccess_size w)) as [Hlt | Hge].
    + rewrite (commit_entry_room _ _ _ Hs Hlt), record_access_relaccesses,
        Hstore by (by rewrite merge_entry_key).
      simpl. rewrite Hfresh. congruence.
    + destruct (dump_on_overflow b) eqn:Hd.
      * rewrite (commit_entry_after_spill _ _ _ Hs Hge Hd). fold ks.
        intros Hf.
        assert (Hf1 : hash_find k
                  (relaccesses (relaccess_dump_to_files false (b, w)).2) =
                  Some e').
        { destruct (_ <? _).
          - rewrite record_access_relaccesses, Hstore in Hf
              by (by rewrite merge_entry_key).
            simpl in Hf. by rewrite Hfresh in Hf.
          - exact Hf. }
        pose proof (hash_find_key _ _ _ Hf1) as Hk.
        apply hash_find_elem, relaccess_dump_to_files_subset in Hf1.
        apply (hash_find_unique _ _ Hu) in Hf1. congruence.
      * rewrite (commit_entry_full_drop _ _ _ Hs Hge Hd). simpl. congruence.
Qed.

(** C7 (as amended). In a table with one element per key, for every key
    that is in the table before a commit-merge step and still in it
    afterwards, last_read and last_write
    have not decreased, and the step changes a time or its paired actor id
    only for the key it merges and only when the staged timestamp is
    strictly greater than the stored one, in which case both take the staged
    values. *)
Theorem C7_times_grow_while_entry_stays (b : backend) (w : world)
    (src : localAccessEntry) (k : relaccessHashKey) (e e' : relaccessEntry) :
  unique_keys (relaccesses w) ->
  hash_find k (relaccesses w) = Some e ->
  hash_find k (relaccesses (commit_entry src (b, w)).2) = Some e' ->
  last_read e <= last_read e' /\ last_write e <= last_write e' /\
  (last_read e' <> last_read e \/ last_reader_id e' <> last_reader_id e ->
   k = mkKey (MyDatabaseId b) (l_relid (l_key src)) /\
   last_read e < l_last_read src /\
   last_read e' = l_last_read src /\
   last_reader_id e' = l_last_reader_id src) /\
  (last_write e' <> last_write e \/ last_writer_id e' <> last_writer_id e ->
   k = mkKey (MyDatabaseId b) (l_relid (l_key src)) /\
   last_write e < l_last_write src /\
   last_write e' = l_last_write src /\
   last_writer_id e' = l_last_writer_id src).
Proof.
  intros Hu He He'.
  destruct (decide (k = mkKey (MyDatabaseId b) (l_relid (l_key src))))
    as [Hk | Hk].
  - subst k. rewrite (commit_entry_found _ _ _ _ He) in He'.
    rewrite record_access_relaccesses in He'.
    erewrite hash_find_store_same in He';
      [| exact He | rewrite merge_entry_key; by apply hash_find_key in He].
    injection He' as <-.
    cbn [fst].
    match goal with |- context [merge_entry src true ?n e] =>
      pose proof (merge_entry_times src true n e) as Hm end.
    cbv zeta in Hm. cbn [reset_if_new] in Hm.
    destruct Hm as (-> & -> & -> & ->).
    destruct (Z.gtb_spec (l_last_read src) (last_read e));
      destruct (Z.gtb_spec (l_last_write src) (last_write e));
      repeat split; try lia; try done; intros [? | ?]; done.
  - rewrite (commit_entry_other_key src b w k e e' Hu Hk He He').
    repeat split; try lia; intros [? | ?]; done.
Qed.

Lemma C7_witness :
  let b := demo_select 1 13 120 (demo_backend 5 false) in
  let w := demo_two_world in
  let src := demo_later_read in
  let k := mkKey 5 1 in
  let e := demo_entry 5 1 10 100 1 in
  let e' := demo_entry 5 1 13 120 2 in
  last_read e <= last_read e' /\ last_write e <= last_write e' /\
  (last_read e' <> last_read e \/ last_reader_id e' <> last_reader_id e ->
   k = mkKey (MyDatabaseId b) (l_relid (l_key src)) /\
   last_read e < l_last_read src /\
   last_read e' = l_last_read src /\
   last_reader_id e' = l_last_reader_id src) /\
  (last_write e' <> last_write e \/ last_writer_id e' <> last_writer_id e ->
   k = mkKey (MyDatabaseId b) (l_relid (l_key src)) /\
   last_write e < l_last_write src /\
   last_write e' = l_last_write src /\
   last_writer_id e' = l_last_writer_id src).
Proof.
  apply (C7_times_grow_while_entry_stays
           (demo_select 1 13 120 (demo_backend 5 false)) demo_two_world
           demo_later_read (mkKey 5 1) (demo_entry 5 1 10 100 1)
           (demo_entry 5 1 13 120 2)).
  - unfold unique_keys. by apply (bool_decide_unpack _).
  - reflexivity.
  - vm_compute. reflexivity.
Defined.

(** C7 as stated fails.  Relation 1 is in the table with last_read = 100.
    Backend A has read relation 1 at time 50 in a transaction that is still
    open.  Backend B commits a read of the new relation 3 into the full
    table with spilling enabled: the table is spilled and relation 1 leaves
    it.  When A commits, relation 1 is entered again and its last_read is
    50: for this key the stored time went from 100 down to 50 across the two
    commit merges. *)
Lemma C7_counterexample_time_decreases_after_spill :
  let a_open := demo_select 1 13 50 (demo_backend 5 true) in
  let s0 :=
    demo_commit_select 2 10 102
      (demo_commit_select 1 10 100 (demo_backend 5 true, demo_world 2)) in
  let s1 := demo_commit_select 3 12 110 (demo_backend 5 true, s0.2) in
  let s2 := relaccess_xact_callback XACT_EVENT_COMMIT (a_open, s1.2) in
  hash_find (mkKey 5 1) (relaccesses s0.2) = Some (demo_entry 5 1 10 100 1) /\
  hash_find (mkKey 5 1) (relaccesses s1.2) = None /\
  hash_find (mkKey 5 1) (relaccesses s2.2) = Some (demo_entry 5 1 13 50 1).
Proof. vm_compute. repeat split; reflexivity. Qed.

(** ** Sides of a staging entry that no event touched *)

Lemma replay_writes_only evs : forall e,
  Forall (fun ev => is_write ev.1 = true) evs ->
  l_last_read (replay evs e) = l_last_read e.
Proof.
  induction evs as [| [p env] evs IH]; intros e Hw; [done |].
  inversion Hw as [| ? ? Hp Hrest]; subst. simpl in Hp.
  unfold replay in *. simpl. rewrite IH by done.
  rewrite stamp_access_last_read, (is_write_not_read _ Hp). done.
Qed.

Lemma replay_reads_only evs : forall e,
  Forall (fun ev => is_read ev.1 = true) evs ->
  l_last_write (replay evs e) = l_last_write e.
Proof.
  induction evs as [| [p env] evs IH]; intros e Hw; [done |].
  inversion Hw as [| ? ? Hp Hrest]; subst. simpl in Hp.
  unfold replay in *. simpl. rewrite IH by done.
  rewrite stamp_access_last_write.
  destruct (is_write p) eqn:E; [| done].
  by rewrite (is_write_not_read _ E) in Hp.
Qed.

(** The entry under the merged key after a step, whatever path the step
    took: the merge of the staged entry into the old entry, or into a new
    slot. *)
Lemma commit_entry_own_key src b w e' :
  let k := mkKey (MyDatabaseId b) (l_relid (l_key src)) in
  hash_find k (relaccesses (commit_entry src (b, w)).2) = Some e' ->
  exists name,
    e' = match hash_find k (relaccesses w) with
         | Some e => merge_entry src true name e
         | None => merge_entry src false name (fresh_entry k)
         end.
Proof.
  intros k. destruct (hash_find k (relaccesses w)) as [e |] eqn:Hf.
  - rewrite (commit_entry_found _ _ _ _ Hf), record_access_relaccesses.
    erewrite hash_find_store_same;
      [| exact Hf | rewrite merge_entry_key; by apply hash_find_key in Hf].
    intros [= <-]. by eexists.
  - assert (Hnew : forall s t,
              relaccesses s.2 = t ++ [fresh_entry k] -> hash_find k t = None ->
              hash_find k
                (relaccesses (record_access src false (fresh_entry k) s).2) =
              Some e' ->
              exists name, e' = merge_entry src false name (fresh_entry k)).
    { intros s t Ht Hn. rewrite record_access_relaccesses.
      erewrite hash_find_store_same;
        [| by rewrite Ht, hash_find_app, Hn, hash_find_fresh
         | by rewrite merge_entry_key].
      intros [= <-]. by eexists. }
    destruct (Z.lt_ge_cases (Z.of_nat (length (relaccesses w)))
                (relaccess_size w)) as [Hlt | Hge].
    + rewrite (commit_entry_room _ _ _ Hf Hlt). fold k.
      by apply Hnew with (t := relaccesses w).
    + destruct (dump_on_overflow b) eqn:Hd.
      * rewrite (commit_entry_after_spill _ _ _ Hf Hge Hd). fold k.
        pose proof (relaccess_dump_to_files_absent k false b w Hf) as Hn1.
        destruct (_ <? _).
        -- by apply Hnew
             with (t := relaccesses (relaccess_dump_to_files false (b, w)).2).
        -- cbn [snd]. by rewrite Hn1.
      * rewrite (commit_entry_full_drop _ _ _ Hf Hge Hd). simpl.
        fold k in Hf. by rewrite Hf.
Qed.

Lemma times_of_none kind other evs :
  (forall p, other p = true -> kind p = false) ->
  Forall (fun ev => other ev.1 = true) evs -> times_of kind evs = [].
Proof.
  intros Hex. induction 1 as [| [p env] evs Hp _ IH]; [done |].
  rewrite times_of_cons. simpl in Hp. by rewrite (Hex _ Hp).
Qed.

Lemma is_read_not_write p : is_read p = true -> is_write p = false.
Proof. unfold is_read. by destruct (is_write p). Qed.

(** C10. A staging entry produced only by write-classified events has
    last_read = 0, and merging it never changes the read side of the shared
    entry: an existing entry keeps its last_read and last_reader_id, a new
    one has 0 and InvalidOid, whatever bytes the staging slot held.  The
    same holds for an entry produced only by read-classified events and the
    write side.  The table is one whose stored times are not negative, as
    every table built by commit merges is. *)
Theorem C10_untouched_side_never_merged (b : backend) (r : Oid)
    (evs : list (AclMode * call_env)) :
  evs <> [] ->
  local_find (mkLocalKey r (stmt_counter b)) (local_access_entries b) = None ->
  exists src,
    local_find (mkLocalKey r (stmt_counter b))
      (local_access_entries (memorize_events r evs b)) = Some src /\
    (Forall (fun ev => is_write ev.1 = true) evs ->
     l_last_read src = 0 /\
     forall b' w e',
       times_nonneg (relaccesses w) ->
       hash_find (mkKey (MyDatabaseId b') r)
         (relaccesses (commit_entry src (b', w)).2) = Some e' ->
       match hash_find (mkKey (MyDatabaseId b') r) (relaccesses w) with
       | Some e =>
           last_read e' = last_read e /\ last_reader_id e' = last_reader_id e
       | None => last_read e' = 0 /\ last_reader_id e' = InvalidOid
       end) /\
    (Forall (fun ev => is_read ev.1 = true) evs ->
     l_last_write src = 0 /\
     forall b' w e',
       times_nonneg (relaccesses w) ->
       hash_find (mkKey (MyDatabaseId b') r)
         (relaccesses (commit_entry src (b', w)).2) = Some e' ->
       match hash_find (mkKey (MyDatabaseId b') r) (relaccesses w) with
       | Some e =>
           last_write e' = last_write e /\
           last_writer_id e' = last_writer_id e
       | None => last_write e' = 0 /\ last_writer_id e' = InvalidOid
       end).
Proof.
  intros Hne Hnone.
  destruct (staging_entry_of_events b r evs Hne Hnone)
    as (src & Hfind & Hkey & _ & Hr & Hw).
  assert (Hrel : l_relid (l_key src) = r) by (by rewrite Hkey).
  assert (Hstored : forall w k e,
            times_nonneg (relaccesses w) -> hash_find k (relaccesses w) = Some e ->
            0 <= last_read e /\ 0 <= last_write e).
  { intros w k e Hnn He. apply hash_find_elem in He.
    unfold times_nonneg in Hnn. rewrite Forall_forall in Hnn.
    by apply Hnn. }
  exists src. split; [exact Hfind |]. split.
  - intros Hall.
    assert (H0 : l_last_read src = 0).
    { rewrite Hr, (times_of_none is_read is_write); try done.
      apply is_write_not_read. }
    split; [exact H0 |]. intros b' w e' Hnn He'. rewrite <- Hrel in He' |- *.
    destruct (commit_entry_own_key src b' w e' He') as [name ->].
    destruct (hash_find _ (relaccesses w)) as [e |] eqn:Hf.
    + destruct (Hstored _ _ _ Hnn Hf) as [Hge _].
      destruct (merge_entry_times src true name e) as (-> & -> & _).
      cbn [reset_if_new]. rewrite H0.
      destruct (Z.gtb_spec 0 (last_read e)); [lia | done].
    + destruct (merge_entry_times src false name
                  (fresh_entry (mkKey (MyDatabaseId b') (l_relid (l_key src)))))
        as (-> & -> & _).
      cbn. rewrite H0. done.
  - intros Hall.
    assert (H0 : l_last_write src = 0).
    { rewrite Hw, (times_of_none is_write is_read); try done.
      apply is_read_not_write. }
    split; [exact H0 |]. intros b' w e' Hnn He'. rewrite <- Hrel in He' |- *.
    destruct (commit_entry_own_key src b' w e' He') as [name ->].
    destruct (hash_find _ (relaccesses w)) as [e |] eqn:Hf.
    + destruct (Hstored _ _ _ Hnn Hf) as [_ Hge].
      destruct (merge_entry_times src true name e) as (_ & _ & -> & ->).
      cbn [reset_if_new]. rewrite H0.
      destruct (Z.gtb_spec 0 (last_write e)); [lia | done].
    + destruct (merge_entry_times src false name
                  (fresh_entry (mkKey (MyDatabaseId b') (l_relid (l_key src)))))
        as (_ & _ & -> & ->).
      cbn. rewrite H0. done.
Qed.

Lemma C10_witness :
  let b := demo_backend 5 false in
  let evs := [(ACL_INSERT, demo_env 11 105); (ACL_UPDATE, demo_env 11 106)] in
  exists src,
    local_find (mkLocalKey 7 (stmt_counter b))
      (local_access_entries (memorize_events 7 evs b)) = Some src /\
    (Forall (fun ev => is_write ev.1 = true) evs ->
     l_last_read src = 0 /\
     forall b' w e',
       times_nonneg (relaccesses w) ->
       hash_find (mkKey (MyDatabaseId b') 7)
         (relaccesses (commit_entry src (b', w)).2) = Some e' ->
       match hash_find (mkKey (MyDatabaseId b') 7) (relaccesses w) with
       | Some e =>
           last_read e' = last_read e /\ last_reader_id e' = last_reader_id e
       | None => last_read e' = 0 /\ last_reader_id e' = InvalidOid
       end) /\
    (Forall (fun ev => is_read ev.1 = true) evs ->
     l_last_write src = 0 /\
     forall b' w e',
       times_nonneg (relaccesses w) ->
       hash_find (mkKey (MyDatabaseId b') 7)
         (relaccesses (commit_entry src (b', w)).2) = Some e' ->
       match hash_find (mkKey (MyDatabaseId b') 7) (relaccesses w) with
       | Some e =>
           last_write e' = last_write e /\
           last_writer_id e' = last_writer_id e
       | None => last_write e' = 0 /\ last_writer_id e' = InvalidOid
       end).
Proof.
  apply (C10_untouched_side_never_merged (demo_backend 5 false) 7
           [(ACL_INSERT, demo_env 11 105); (ACL_UPDATE, demo_env 11 106)]);
    [discriminate | reflexivity].
Defined.

(** ** Invariants of the shared table *)

Lemma Forall_hash_store (P : relaccessEntry -> Prop) m t :
  P m -> Forall P t -> Forall P (hash_store m t).
Proof.
  intros Hm. induction 1 as [| x t Hx Ht IH]; simpl; [constructor |].
  destruct (key_eqb (key x) (key m)); constructor; auto.
Qed.

Lemma Forall_dump (P : relaccessEntry -> Prop) only_this_db b w :
  Forall P (relaccesses w) ->
  Forall P (relaccesses (relaccess_dump_to_files only_this_db (b, w)).2).
Proof.
  rewrite !Forall_forall. intros H x Hx. apply H.
  by apply relaccess_dump_to_files_subset in Hx.
Qed.

Lemma merge_entry_nonneg src found name dst :
  0 <= last_read (reset_if_new found dst) /\
  0 <= last_write (reset_if_new found dst) ->
  0 <= last_read (merge_entry src found name dst) /\
  0 <= last_write (merge_entry src found name dst).
Proof.
  intros [Hr Hw].
  destruct (merge_entry_times src found name dst) as (-> & _ & -> & _).
  destruct (Z.gtb_spec (l_last_read src) (last_read (reset_if_new found dst)));
    destruct (Z.gtb_spec (l_last_write src)
                (last_write (reset_if_new found dst))); lia.
Qed.

(** Stored times stay at or above 0 through every commit-merge step: new
    entries start at 0 and a time is only replaced by a greater one. *)
Lemma times_nonneg_commit_entry src b w :
  times_nonneg (relaccesses w) ->
  times_nonneg (relaccesses (commit_entry src (b, w)).2).
Proof.
  unfold times_nonneg. intros Hnn.
  set (k := mkKey (MyDatabaseId b) (l_relid (l_key src))).
  assert (Hnew : forall t name,
            Forall (fun e => 0 <= last_read e /\ 0 <= last_write e) t ->
            Forall (fun e => 0 <= last_read e /\ 0 <= last_write e)
              (hash_store (merge_entry src false name (fresh_entry k))
                 (t ++ [fresh_entry k]))).
  { intros t name Hs. apply Forall_hash_store.
    - apply merge_entry_nonneg. simpl. lia.
    - apply Forall_app. split; [exact Hs |]. constructor; [simpl; lia | constructor]. }
  destruct (hash_find k (relaccesses w)) as [e |] eqn:Hf.
  - rewrite (commit_entry_found _ _ _ _ Hf), record_access_relaccesses.
    apply Forall_hash_store; [| exact Hnn].
    apply merge_entry_nonneg. simpl. apply hash_find_elem in Hf.
    rewrite Forall_forall in Hnn. by apply Hnn.
  - destruct (Z.lt_ge_cases (Z.of_nat (length (relaccesses w)))
                (relaccess_size w)) as [Hlt | Hge].
    + rewrite (commit_entry_room _ _ _ Hf Hlt), record_access_relaccesses.
      by apply Hnew.
    + destruct (dump_on_overflow b) eqn:Hd.
      * rewrite (commit_entry_after_spill _ _ _ Hf Hge Hd). fold k.
        pose proof (Forall_dump _ false b w Hnn) as Hd1.
        destruct (_ <? _); [| exact Hd1].
        rewrite record_access_relaccesses. by apply Hnew.
      * by rewrite (commit_entry_full_drop _ _ _ Hf Hge Hd).
Qed.

Lemma unique_keys_remove k t : unique_keys t -> unique_keys (hash_remove k t).
Proof.
  unfold unique_keys. induction t as [| x t IH]; simpl; [done |].
  intros Hu. apply NoDup_cons in Hu as [Hx Hu].
  destruct (key_eqb (key x) k); [exact Hu |]. simpl.
  apply NoDup_cons. split; [| by apply IH].
  intros Hin. apply Hx. apply list_elem_of_fmap in Hin as (y & -> & Hy).
  apply list_elem_of_fmap_2. by apply hash_remove_subset in Hy.
Qed.

Lemma unique_keys_dump_scan files scan : forall s,
  unique_keys (relaccesses s.2) ->
  unique_keys (relaccesses (relaccess_dump_scan files scan s).2).
Proof.
  induction scan as [| entry rest IH]; intros [b w] Hu; simpl; [done |].
  case_decide; [| by apply IH].
  pose proof (fwrite_spec w) as (Hr & _).
  destruct (fwrite w) as [[] w1]; simpl in *.
  - apply IH. simpl. apply unique_keys_remove. by rewrite Hr.
  - by rewrite Hr.
Qed.

Lemma unique_keys_dump only_this_db b w :
  unique_keys (relaccesses w) ->
  unique_keys (relaccesses (relaccess_dump_to_files only_this_db (b, w)).2).
Proof.
  intros Hu.
  destruct (relaccess_dump_to_files_relaccesses_in only_this_db b w)
    as (files & w1 & -> & Hr).
  apply unique_keys_dump_scan. simpl. by rewrite Hr.
Qed.

Lemma unique_keys_enter k t :
  unique_keys t -> hash_find k t = None -> unique_keys (t ++ [fresh_entry k]).
Proof.
  unfold unique_keys. intros Hu Hn. rewrite map_app. simpl.
  apply NoDup_app. split; [exact Hu |]. split.
  - intros x Hx Hk. apply list_elem_of_singleton in Hk. subst x.
    apply list_elem_of_fmap in Hx as (y & Hy & Hin).
    rewrite hash_find_None in Hn. by apply (Hn y Hin).
  - apply NoDup_singleton.
Qed.

(** One element per key is kept by every commit-merge step. *)
Lemma unique_keys_commit_entry src b w :
  unique_keys (relaccesses w) ->
  unique_keys (relaccesses (commit_entry src (b, w)).2).
Proof.
  intros Hu. set (k := mkKey (MyDatabaseId b) (l_relid (l_key src))).
  assert (Hst : forall m t, unique_keys t -> unique_keys (hash_store m t)).
  { intros m t. unfold unique_keys. by rewrite hash_store_keys. }
  destruct (hash_find k (relaccesses w)) as [e |] eqn:Hf.
  - rewrite (commit_entry_found _ _ _ _ Hf), record_access_relaccesses.
    by apply Hst.
  - destruct (Z.lt_ge_cases (Z.of_nat (length (relaccesses w)))
                (relaccess_size w)) as [Hlt | Hge].
    + rewrite (commit_entry_room _ _ _ Hf Hlt), record_access_relaccesses.
      apply Hst. simpl. by apply unique_keys_enter.
    + destruct (dump_on_overflow b) eqn:Hd.
      * rewrite (commit_entry_after_spill _ _ _ Hf Hge Hd). fold k.
        pose proof (unique_keys_dump false b w Hu) as Hu1.
        pose proof (relaccess_dump_to_files_absent k false b w Hf) as Hn1.
        destruct (_ <? _); [| exact Hu1].
        rewrite record_access_relaccesses. apply Hst. simpl.
        by apply unique_keys_enter.
      * by rewrite (commit_entry_full_drop _ _ _ Hf Hge Hd).
Qed.

(** Both invariants hold of the empty table and are kept by a whole
    transaction end and by a spill, so they hold of every table that
    backends build. *)
Lemma table_invariants_xact_callback event b w :
  unique_keys (relaccesses w) /\ times_nonneg (relaccesses w) ->
  let s' := relaccess_xact_callback event (b, w) in
  unique_keys (relaccesses s'.2) /\ times_nonneg (relaccesses s'.2).
Proof.
  intros Hinv. cbv zeta. unfold relaccess_xact_callback.
  destruct (negb _ || negb _); [done |].
  destruct event; try done.
  assert (Hfold : forall t s,
            unique_keys (relaccesses s.2) /\ times_nonneg (relaccesses s.2) ->
            let s' := fold_left (fun s src => commit_entry src s) t s in
            unique_keys (relaccesses s'.2) /\ times_nonneg (relaccesses s'.2)).
  { induction t as [| src t IH]; intros [b1 w1] [Hu Hn]; cbv zeta; simpl;
      [done |].
    apply IH. split;
      [by apply unique_keys_commit_entry | by apply times_nonneg_commit_entry]. }
  specialize (Hfold (local_access_entries b) (b, w) Hinv). cbv zeta in Hfold.
  by destruct (fold_left _ _ _) as [b' w'].
Qed.

Lemma table_invariants_dump only_this_db b w :
  unique_keys (relaccesses w) /\ times_nonneg (relaccesses w) ->
  let s' := relaccess_dump_to_files only_this_db (b, w) in
  unique_keys (relaccesses s'.2) /\ times_nonneg (relaccesses s'.2).
Proof.
  intros [Hu Hn]. split; [by apply unique_keys_dump | by apply Forall_dump].
Qed.

(** ** Overflow policy *)

Lemma record_access_file_records src found dst s d :
  file_records d (record_access src found dst s).2 = file_records d s.2.
Proof.
  destruct s as [b w]. unfold file_records.
  by destruct (record_access_backend src found dst b w)
    as (_ & _ & _ & _ & _ & _ & -> & _).
Qed.

Lemma hash_store_singleton m k :
  key m = k -> hash_store m [fresh_entry k] = [m].
Proof. intros <-. simpl. by rewrite key_eqb_refl. Qed.

Lemma filter_none {A} (P : A -> Prop) `{forall x, Decision (P x)} (l : list A) :
  (forall x, x ∈ l -> ~ P x) -> filter P l = [].
Proof.
  induction l as [| x l IH]; intros Hn; [done |].
  rewrite filter_cons_False by (apply Hn; left).
  apply IH. intros y Hy. apply Hn. by right.
Qed.

Lemma filter_ext_elem {A} (P Q : A -> Prop) `{forall x, Decision (P x)}
    `{forall x, Decision (Q x)} (l : list A) :
  (forall x, x ∈ l -> (P x <-> Q x)) -> filter P l = filter Q l.
Proof.
  induction l as [| x l IH]; intros Hpq; [done |].
  assert (Hl : forall y, y ∈ l -> (P y <-> Q y)) by (intros y Hy; apply Hpq; by right).
  destruct (decide (P x)) as [Hp | Hp].
  - rewrite !filter_cons_True; [by rewrite IH | by apply Hpq; [left |] | done].
  - rewrite !filter_cons_False; [by apply IH | | done].
    intros Hq. apply Hp. apply Hpq; [left | done].
Qed.


(** With spilling disabled, a commit-merge step for a new key on a full
    table changes neither the table nor the files; it sets the flag and
    warns exactly when the flag was clear. *)
Lemma overflow_without_spill_drops src b w :
  hash_find (mkKey (MyDatabaseId b) (l_relid (l_key src))) (relaccesses w) = None ->
  relaccess_size w <= Z.of_nat (length (relaccesses w)) ->
  dump_on_overflow b = false ->
  let s' := commit_entry src (b, w) in
  s'.2 = w /\ had_ht_overflow s'.1 = true /\
  server_log s'.1 =
    server_log b ++
    (if had_ht_overflow b then [] else [WARN_max_tables_exceeded]).
Proof.
  intros Hf Hge Hd. cbv zeta. rewrite (commit_entry_full_drop _ _ _ Hf Hge Hd).
  simpl. destruct (had_ht_overflow b); simpl; by rewrite ?app_nil_r.
Qed.

Lemma overflow_without_spill_example :
  let b := demo_select 3 10 103 (demo_backend 5 false) in
  let src := mkLocal (mkLocalKey 3 0) 10 4343 103 0 ACL_SELECT in
  let s' := commit_entry src (b, demo_two_world) in
  s'.2 = demo_two_world /\ had_ht_overflow s'.1 = true /\
  server_log s'.1 =
    server_log b ++
    (if had_ht_overflow b then [] else [WARN_max_tables_exceeded]).
Proof.
  apply (overflow_without_spill_drops
           (mkLocal (mkLocalKey 3 0) 10 4343 103 0 ACL_SELECT)
           (demo_select 3 10 103 (demo_backend 5 false)) demo_two_world);
    reflexivity.
Defined.

(** With spilling enabled and no failing write, a commit-merge step for a
    new key on a full table moves every entry of the table to the end of
    the dump file of its database, in scan order, and leaves the table
    holding the new key alone: no entry is lost. *)
Lemma overflow_with_spill_conserves src b w :
  let k := mkKey (MyDatabaseId b) (l_relid (l_key src)) in
  unique_keys (relaccesses w) ->
  false ∉ fwrite_results w ->
  0 < relaccess_size w <= Z.of_nat (length (relaccesses w)) ->
  hash_find k (relaccesses w) = None ->
  dump_on_overflow b = true ->
  let s' := commit_entry src (b, w) in
  (exists e', relaccesses s'.2 = [e'] /\ key e' = k) /\
  (forall d, file_records d s'.2 =
             file_records d w ++ entries_of_db d (relaccesses w)) /\
  had_ht_overflow s'.1 = false /\ server_log s'.1 = server_log b.
Proof.
  intros k Hu Hok [Hpos Hge] Hf Hd. cbv zeta.
  rewrite (commit_entry_after_spill _ _ _ Hf Hge Hd). fold k.
  pose proof (relaccess_dump_to_files_spec false b w Hu) as Hspec.
  cbv zeta in Hspec.
  destruct Hspec as (files & vis & unv & Hscope & Hsplit & Hstore & Hfiles &
                     Hsize & Hend & _).
  destruct Hend as [[-> Hlog] | (e & rest & _ & _ & Hfalse & _)]; [| done].
  rewrite app_nil_r in Hsplit, Hstore. subst vis.
  assert (Hall : forall e, e ∈ relaccesses w -> dbid (key e) ∈ files).
  { intros e He. apply Hscope. simpl. by exists e. }
  assert (Hempty : relaccesses (relaccess_dump_to_files false (b, w)).2 = []).
  { rewrite Hstore. apply filter_none. intros e He Hn. by apply Hn, Hall. }
  rewrite Hempty, Hsize. simpl length.
  destruct (Z.ltb_spec (Z.of_nat 0) (relaccess_size w)); [| lia].
  rewrite record_access_flag, record_access_log, record_access_relaccesses.
  change (relaccesses (_, set_relaccesses ?t _).2) with t.
  change ([] ++ [fresh_entry k]) with [fresh_entry k].
  rewrite hash_store_singleton by (by rewrite merge_entry_key).
  split; [eexists; split; [reflexivity | by rewrite merge_entry_key] |].
  split; [| split; [done | exact Hlog]].
  intros d. rewrite record_access_file_records.
  change (file_records d (_, set_relaccesses _ ?x).2) with (file_records d x).
  rewrite Hfiles. f_equal. unfold entries_of_db.
  apply filter_ext_elem. intros x Hx. split; [by intros [? _] |].
  intros <-. split; [done | by apply Hall].
Qed.

Lemma overflow_with_spill_example :
  let b := demo_select 3 10 103 (demo_backend 5 true) in
  let w := demo_two_world in
  let src := mkLocal (mkLocalKey 3 0) 10 4343 103 0 ACL_SELECT in
  let s' := commit_entry src (b, w) in
  (exists e', relaccesses s'.2 = [e'] /\ key e' = mkKey 5 3) /\
  (forall d, file_records d s'.2 =
             file_records d w ++ entries_of_db d (relaccesses w)) /\
  had_ht_overflow s'.1 = false /\ server_log s'.1 = server_log b.
Proof.
  apply (overflow_with_spill_conserves
           (mkLocal (mkLocalKey 3 0) 10 4343 103 0 ACL_SELECT)
           (demo_select 3 10 103 (demo_backend 5 true)) demo_two_world).
  - unfold unique_keys. by apply (bool_decide_unpack _).
  - simpl. apply not_elem_of_nil.
  - simpl. lia.
  - reflexivity.
  - reflexivity.
Defined.

(** ** Dropping a database *)

Lemma relaccess_drop_scan_spec d scan : forall b w kept,
  relaccesses w = kept ++ scan ->
  unique_keys (kept ++ scan) ->
  let s' := relaccess_drop_scan d scan (b, w) in
  relaccesses s'.2 = kept ++ filter (fun e => dbid (key e) <> d) scan /\
  dump_files s'.2 = dump_files w /\
  relaccess_size s'.2 = relaccess_size w.
Proof.
  induction scan as [| entry rest IH]; intros b w kept Ht Hu; cbv zeta.
  - simpl. by rewrite Ht.
  - simpl. destruct (Z.eqb_spec (dbid (key entry)) d) as [Hd | Hd].
    + assert (Hrm : hash_remove (key entry) (relaccesses w) = kept ++ rest).
      { rewrite Ht. apply hash_remove_middle. intros x Hx Heq.
        unfold unique_keys in Hu. rewrite map_app in Hu. simpl in Hu.
        apply NoDup_app in Hu as (_ & Hdis & _).
        apply (Hdis (key x)); [by apply list_elem_of_fmap_2 | rewrite Heq; left]. }
      assert (Hu' : unique_keys (kept ++ rest)).
      { unfold unique_keys in *. rewrite map_app in *. simpl in Hu.
        apply NoDup_app in Hu as (Hk & Hdis & Hr'). apply NoDup_app.
        apply NoDup_cons in Hr' as [? ?]. repeat split; try done.
        intros x Hx Hx'. apply (Hdis x Hx). by right. }
      pose proof (IH (set_had_ht_overflow false b)
                    (set_relaccesses (hash_remove (key entry) (relaccesses w)) w)
                    kept Hrm Hu') as Hrec.
      cbv zeta in Hrec. destruct Hrec as (Hs & Hf & Hz).
      rewrite Hs, Hf, Hz, filter_cons_False by (intros Hne; by apply Hne).
      done.
    + pose proof (IH b w (kept ++ [entry])) as Hrec. cbv zeta in Hrec.
      destruct Hrec as (Hs & Hf & Hz);
        [by rewrite <- app_assoc | by rewrite <- app_assoc |].
      rewrite Hs, Hf, Hz, filter_cons_True by done.
      by rewrite <- app_assoc.
Qed.

(** Dropping database [d] removes exactly the entries of [d] from the
    table and deletes the dump file of [d]: a backend connected to [d]
    reads no record afterwards. *)
Lemma relaccess_drop_hook_spec d b w :
  unique_keys (relaccesses w) ->
  let s' := relaccess_drop_hook OAT_DROP DatabaseRelationId d (b, w) in
  relaccesses s'.2 = filter (fun e => dbid (key e) <> d) (relaccesses w) /\
  dump_files s'.2 = delete d (dump_files w) /\
  (forall b', MyDatabaseId b' = d -> relaccess_stats_from_dump (b', s'.2) = []).
Proof.
  intros Hu. cbv zeta. unfold relaccess_drop_hook. rewrite Z.eqb_refl.
  pose proof (relaccess_drop_scan_spec d (relaccesses w) b w [] eq_refl Hu)
    as Hspec.
  cbv zeta in Hspec. cbn [fst snd] in *.
  destruct (relaccess_drop_scan d (relaccesses w) (b, w)) as [b1 w1].
  simpl in *. destruct Hspec as (Hs & Hf & _).
  split; [exact Hs |]. split; [by rewrite Hf |].
  intros b' <-. unfold relaccess_stats_from_dump, read_dump_file. simpl.
  by rewrite Hf, lookup_delete_eq.
Qed.

Lemma relaccess_drop_hook_example :
  let s' :=
    relaccess_drop_hook OAT_DROP DatabaseRelationId 5
      (demo_backend 6 false, demo_world_store []) in
  relaccesses s'.2 =
    filter (fun e => dbid (key e) <> 5) (relaccesses (demo_world_store [])) /\
  dump_files s'.2 = delete 5 (dump_files (demo_world_store [])) /\
  (forall b', MyDatabaseId b' = 5 -> relaccess_stats_from_dump (b', s'.2) = []).
Proof.
  apply (relaccess_drop_hook_spec 5 (demo_backend 6 false) (demo_world_store [])).
  exact demo_store_unique_keys.
Defined.

Lemma abort_while_enabled_example :
  let b := demo_select 1 10 100 (demo_backend 5 false) in
  let w := demo_world_store [] in
  let s' := relaccess_xact_callback XACT_EVENT_ABORT (b, w) in
  s'.2 = w /\ local_access_entries s'.1 = [] /\ relname_cache s'.1 = ∅.
Proof.
  apply (abort_while_enabled (demo_select 1 10 100 (demo_backend 5 false))
           (demo_world_store [])); reflexivity.
Defined.

Lemma relaccess_stats_update_raises_example :
  relaccess_stats_update 0 SPI_raises (demo_backend 5 false, demo_world_store []) =
  (ERROR_raised,
   relaccess_dump_to_files true (demo_backend 5 false, demo_world_store [])).
Proof.
  apply (relaccess_stats_update_raises 0
           (demo_backend 5 false, demo_world_store [])). lia.
Defined.

Lemma overflow_means_full_example :
  overflow_means_full
    (relaccess_xact_callback XACT_EVENT_COMMIT
       (demo_select 3 10 103 (demo_backend 5 false), demo_two_world)).
Proof.
  apply (overflow_means_full_xact_callback XACT_EVENT_COMMIT
           (demo_select 3 10 103 (demo_backend 5 false), demo_two_world)).
  intros Hflag. discriminate Hflag.
Defined.

Lemma table_invariants_example :
  let s' :=
    relaccess_xact_callback XACT_EVENT_COMMIT
      (demo_select 3 10 103 (demo_backend 5 true), demo_two_world) in
  unique_keys (relaccesses s'.2) /\ times_nonneg (relaccesses s'.2).
Proof.
  apply (table_invariants_xact_callback XACT_EVENT_COMMIT
           (demo_select 3 10 103 (demo_backend 5 true)) demo_two_world).
  split.
  - unfold unique_keys. by apply (bool_decide_unpack _).
  - unfold times_nonneg. simpl. repeat constructor; simpl; lia.
Defined.

(** ** Commits that never spill *)

Lemma commit_entry_settings src b w :
  dump_on_overflow (commit_entry src (b, w)).1 = dump_on_overflow b /\
  MyDatabaseId (commit_entry src (b, w)).1 = MyDatabaseId b.
Proof.
  assert (Hrec : forall found dst s,
            dump_on_overflow (record_access src found dst s).1 =
              dump_on_overflow s.1 /\
            MyDatabaseId (record_access src found dst s).1 = MyDatabaseId s.1).
  { intros found dst [b1 w1].
    by destruct (record_access_backend src found dst b1 w1)
      as (_ & _ & -> & -> & _). }
  destruct (hash_find (mkKey (MyDatabaseId b) (l_relid (l_key src)))
              (relaccesses w)) as [e |] eqn:Hf.
  - rewrite (commit_entry_found _ _ _ _ Hf). apply Hrec.
  - destruct (Z.lt_ge_cases (Z.of_nat (length (relaccesses w)))
                (relaccess_size w)) as [Hlt | Hge].
    + rewrite (commit_entry_room _ _ _ Hf Hlt). apply Hrec.
    + destruct (dump_on_overflow b) eqn:Hd.
      * rewrite (commit_entry_after_spill _ _ _ Hf Hge Hd).
        pose proof (relaccess_dump_to_files_session false (b, w)) as Hs.
        cbv zeta in Hs. destruct Hs as (Hdb & _ & _ & Hdo & _).
        cbn [fst] in Hdb, Hdo. rewrite Hd in Hdo.
        destruct (_ <? _).
        -- destruct (Hrec false
                       (fresh_entry (mkKey (MyDatabaseId b) (l_relid (l_key src))))
                       (set_had_ht_overflow false
                          (relaccess_dump_to_files false (b, w)).1,
                        set_relaccesses
                          (relaccesses (relaccess_dump_to_files false (b, w)).2 ++
                           [fresh_entry
                              (mkKey (MyDatabaseId b) (l_relid (l_key src)))])
                          (relaccess_dump_to_files false (b, w)).2))
             as [-> ->].
           done.
        -- cbn [fst]. by destruct (had_ht_overflow _).
      * rewrite (commit_entry_full_drop _ _ _ Hf Hge Hd). cbn [fst].
        by destruct (had_ht_overflow b).
Qed.

(** With spilling disabled a commit-merge step removes nothing: every key
    of the table is still there afterwards, with times at least as late. *)
Lemma commit_entry_without_spill src b w k e :
  dump_on_overflow b = false ->
  hash_find k (relaccesses w) = Some e ->
  exists e',
    hash_find k (relaccesses (commit_entry src (b, w)).2) = Some e' /\
    last_read e <= last_read e' /\ last_write e <= last_write e'.
Proof.
  intros Hd He.
  set (ks := mkKey (MyDatabaseId b) (l_relid (l_key src))).
  assert (Hsame : hash_find k (relaccesses w) = Some e ->
                  exists e', hash_find k (relaccesses w) = Some e' /\
                    last_read e <= last_read e' /\ last_write e <= last_write e').
  { intros ?. exists e. repeat split; [done | lia | lia]. }
  destruct (decide (k = ks)) as [-> | Hne].
  - rewrite (commit_entry_found _ _ _ _ He), record_access_relaccesses.
    eexists. split.
    + eapply hash_find_store_same; [exact He |].
      rewrite merge_entry_key. by apply hash_find_key in He.
    + match goal with |- context [merge_entry src true ?n e] =>
        destruct (merge_entry_times src true n e) as (-> & _ & -> & _) end.
      cbn [reset_if_new].
      destruct (Z.gtb_spec (l_last_read src) (last_read e));
        destruct (Z.gtb_spec (l_last_write src) (last_write e)); lia.
  - assert (Hstore : forall m t, key m = ks ->
              hash_find k (hash_store m t) = hash_find k t).
    { intros m t Hm. apply hash_find_store_other. rewrite Hm. congruence. }
    destruct (hash_find ks (relaccesses w)) as [es |] eqn:Hs.
    + rewrite (commit_entry_found _ _ _ _ Hs), record_access_relaccesses, Hstore.
      * by apply Hsame.
      * rewrite merge_entry_key. by apply hash_find_key in Hs.
    + destruct (Z.lt_ge_cases (Z.of_nat (length (relaccesses w)))
                  (relaccess_size w)) as [Hlt | Hge].
      * rewrite (commit_entry_room _ _ _ Hs Hlt), record_access_relaccesses,
          Hstore by (by rewrite merge_entry_key).
        cbn [fst snd]. change (relaccesses (set_relaccesses ?t _)) with t.
        rewrite hash_find_app, He. exists e. repeat split; [lia | lia].
      * rewrite (commit_entry_full_drop _ _ _ Hs Hge Hd). by apply Hsame.
Qed.

(** With spilling disabled, over the commit of a whole transaction every
    key of the table keeps its entry and neither of its two times
    decreases. *)
Lemma commit_without_spill_monotone b w k e :
  dump_on_overflow b = false ->
  hash_find k (relaccesses w) = Some e ->
  exists e',
    hash_find k
      (relaccesses (relaccess_xact_callback XACT_EVENT_COMMIT (b, w)).2) =
      Some e' /\
    last_read e <= last_read e' /\ last_write e <= last_write e'.
Proof.
  intros Hd He. unfold relaccess_xact_callback.
  destruct (negb _ || negb _); [exists e; repeat split; [done | lia | lia] |].
  assert (Hfold : forall t b1 w1 e1,
            dump_on_overflow b1 = false ->
            hash_find k (relaccesses w1) = Some e1 ->
            last_read e <= last_read e1 /\ last_write e <= last_write e1 ->
            exists e',
              hash_find k
                (relaccesses
                   (fold_left (fun s src => commit_entry src s) t (b1, w1)).2) =
                Some e' /\
              last_read e <= last_read e' /\ last_write e <= last_write e').
  { induction t as [| src t IH]; intros b1 w1 e1 Hd1 He1 Hle; cbn [fold_left].
    - by exists e1.
    - destruct (commit_entry_without_spill src b1 w1 k e1 Hd1 He1)
        as (e2 & He2 & Hr & Hw).
      destruct (commit_entry_settings src b1 w1) as [Hd2 _].
      destruct (commit_entry src (b1, w1)) as [b2 w2]. cbn [fst snd] in *.
      apply (IH b2 w2 e2); [congruence | done | lia]. }
  destruct (Hfold (local_access_entries b) b w e Hd He) as (e' & He' & Hle);
    [lia |].
  destruct (fold_left _ _ _) as [b' w']. by exists e'.
Qed.

Lemma commit_without_spill_example :
  let b := demo_select 1 13 120 (demo_backend 5 false) in
  let w := demo_two_world in
  let e := demo_entry 5 1 10 100 1 in
  exists e',
    hash_find (mkKey 5 1)
      (relaccesses (relaccess_xact_callback XACT_EVENT_COMMIT (b, w)).2) =
      Some e' /\
    last_read e <= last_read e' /\ last_write e <= last_write e'.
Proof.
  apply (commit_without_spill_monotone
           (demo_select 1 13 120 (demo_backend 5 false)) demo_two_world
           (mkKey 5 1) (demo_entry 5 1 10 100 1)); reflexivity.
Defined.

(** ** The shared table over every call into the module *)

Lemma hash_remove_length k t : (length (hash_remove k t) <= length t)%nat.
Proof.
  induction t as [| x t IH]; simpl; [done |].
  destruct (key_eqb (key x) k); simpl; lia.
Qed.

Lemma Forall_hash_remove (P : relaccessEntry -> Prop) k t :
  Forall P t -> Forall P (hash_remove k t).
Proof.
  rewrite !Forall_forall. intros H x Hx. apply H.
  by apply hash_remove_subset in Hx.
Qed.

Lemma table_ok_same w w' :
  relaccesses w' = relaccesses w -> relaccess_size w' = relaccess_size w ->
  table_ok w -> table_ok w'.
Proof. unfold table_ok. by intros -> ->. Qed.

Lemma table_ok_remove k w w' :
  relaccesses w' = hash_remove k (relaccesses w) ->
  relaccess_size w' = relaccess_size w ->
  table_ok w -> table_ok w'.
Proof.
  unfold table_ok. intros -> -> (Hc & Hu & Hn).
  pose proof (hash_remove_length k (relaccesses w)).
  split; [lia |]. split; [by apply unique_keys_remove |].
  by apply Forall_hash_remove.
Qed.

Lemma table_ok_dump_scan files scan : forall s,
  table_ok s.2 -> table_ok (relaccess_dump_scan files scan s).2.
Proof.
  induction scan as [| entry rest IH]; intros [b w] Hok; simpl; [done |].
  case_decide; [| by apply IH].
  pose proof (fwrite_spec w) as (Hr & _ & Hs & _).
  destruct (fwrite w) as [[] w1]; simpl in *.
  - apply IH. simpl. apply (table_ok_remove (key entry) w); simpl; by rewrite ?Hr.
  - by apply (table_ok_same w).
Qed.

Lemma table_ok_dump only_this_db s :
  table_ok s.2 -> table_ok (relaccess_dump_to_files only_this_db s).2.
Proof.
  destruct s as [b w]. intros Hok.
  pose proof (relaccess_dump_to_files_session only_this_db (b, w)) as Hs.
  cbv zeta in Hs. destruct Hs as (_ & _ & _ & _ & _ & _ & _ & Hsz).
  destruct (relaccess_dump_to_files_relaccesses_in only_this_db b w)
    as (files & w1 & Heq & Hr).
  assert (Hok1 : table_ok (relaccess_dump_scan files (relaccesses w) (b, w1)).2).
  { apply table_ok_dump_scan. simpl. apply (table_ok_same w); [done | | done].
    rewrite Heq in Hsz.
    pose proof (relaccess_dump_scan_session files (relaccesses w) (b, w1)) as H1.
    cbv zeta in H1. destruct H1 as (_ & _ & _ & _ & _ & _ & _ & H1).
    simpl in *. congruence. }
  by rewrite Heq.
Qed.

Lemma table_ok_drop_scan d scan : forall s,
  table_ok s.2 -> table_ok (relaccess_drop_scan d scan s).2.
Proof.
  induction scan as [| entry rest IH]; intros [b w] Hok; simpl; [done |].
  destruct (dbid (key entry) =? d); [| by apply IH].
  apply IH. simpl. by apply (table_ok_remove (key entry) w).
Qed.

Lemma table_ok_drop_hook access classId objectId s :
  table_ok s.2 -> table_ok (relaccess_drop_hook access classId objectId s).2.
Proof.
  intros Hok. unfold relaccess_drop_hook. destruct access; try done.
  destruct (classId =? DatabaseRelationId); [| done].
  pose proof (table_ok_drop_scan objectId (relaccesses s.2) s Hok) as H.
  destruct (relaccess_drop_scan objectId (relaccesses s.2) s) as [b1 w1].
  by apply (table_ok_same w1).
Qed.

Lemma commit_entry_size src b w :
  relaccess_size (commit_entry src (b, w)).2 = relaccess_size w.
Proof.
  destruct (hash_find (mkKey (MyDatabaseId b) (l_relid (l_key src)))
              (relaccesses w)) as [e |] eqn:Hf.
  - by rewrite (commit_entry_found _ _ _ _ Hf), record_access_size.
  - destruct (Z.lt_ge_cases (Z.of_nat (length (relaccesses w)))
                (relaccess_size w)) as [Hlt | Hge].
    + by rewrite (commit_entry_room _ _ _ Hf Hlt), record_access_size.
    + destruct (dump_on_overflow b) eqn:Hd.
      * rewrite (commit_entry_after_spill _ _ _ Hf Hge Hd).
        pose proof (relaccess_dump_to_files_session false (b, w)) as Hs.
        cbv zeta in Hs. destruct Hs as (_ & _ & _ & _ & _ & _ & _ & Hsz).
        destruct (_ <? _); [by rewrite record_access_size | done].
      * by rewrite (commit_entry_full_drop _ _ _ Hf Hge Hd).
Qed.

(** A step never takes the table above its capacity. *)
Lemma capacity_commit_entry src b w :
  Z.of_nat (length (relaccesses w)) <= relaccess_size w ->
  Z.of_nat (length (relaccesses (commit_entry src (b, w)).2)) <=
  relaccess_size w.
Proof.
  intros Hc.
  destruct (hash_find (mkKey (MyDatabaseId b) (l_relid (l_key src)))
              (relaccesses w)) as [e |] eqn:Hf.
  - by rewrite (commit_entry_found _ _ _ _ Hf), record_access_relaccesses,
      hash_store_length.
  - destruct (Z.lt_ge_cases (Z.of_nat (length (relaccesses w)))
                (relaccess_size w)) as [Hlt | Hge].
    + rewrite (commit_entry_room _ _ _ Hf Hlt), record_access_relaccesses,
        hash_store_length.
      cbn [fst snd]. change (relaccesses (set_relaccesses ?t _)) with t.
      rewrite length_app. simpl. lia.
    + destruct (dump_on_overflow b) eqn:Hd.
      * rewrite (commit_entry_after_spill _ _ _ Hf Hge Hd).
        pose proof (relaccess_dump_to_files_session false (b, w)) as Hs.
        cbv zeta in Hs. destruct Hs as (_ & _ & _ & _ & _ & _ & _ & Hsz).
        cbn [snd] in Hsz. rewrite Hsz.
        destruct (Z.ltb_spec
                    (Z.of_nat (length (relaccesses
                       (relaccess_dump_to_files false (b, w)).2)))
                    (relaccess_size w)) as [Hlt1 | Hge1].
        -- rewrite record_access_relaccesses, hash_store_length.
           cbn [fst snd]. change (relaccesses (set_relaccesses ?t _)) with t.
           rewrite length_app. cbn [length]. lia.
        -- cbn [snd].
           destruct (relaccess_dump_to_files_relaccesses_in false b w)
             as (files & w1 & Heq & Hr).
           rewrite Heq in Hge1 |- *.
           assert (Hlen : forall scan s,
                     (length (relaccesses (relaccess_dump_scan files scan s).2)
                      <= length (relaccesses s.2))%nat).
           { induction scan as [| entry rest IH]; intros [b0 w0]; simpl; [done |].
             case_decide; [| apply IH].
             pose proof (fwrite_spec w0) as (Hr0 & _).
             destruct (fwrite w0) as [[] w2]; simpl in *; [| by rewrite Hr0].
             etransitivity; [apply IH |]. simpl.
             rewrite Hr0. apply hash_remove_length. }
           specialize (Hlen (relaccesses w) (b, w1)). simpl in Hlen.
           rewrite Hr in Hlen. lia.
      * by rewrite (commit_entry_full_drop _ _ _ Hf Hge Hd).
Qed.

Lemma table_ok_commit_entry src b w :
  table_ok w -> table_ok (commit_entry src (b, w)).2.
Proof.
  intros (Hc & Hu & Hn). split; [| split].
  - rewrite commit_entry_size. by apply capacity_commit_entry.
  - by apply unique_keys_commit_entry.
  - by apply times_nonneg_commit_entry.
Qed.

Lemma table_ok_commit t : forall s,
  table_ok s.2 -> table_ok (fold_left (fun s src => commit_entry src s) t s).2.
Proof.
  induction t as [| src t IH]; intros [b w] Hok; cbn [fold_left]; [done |].
  apply IH. destruct (commit_entry src (b, w)) as [b1 w1] eqn:E.
  pose proof (table_ok_commit_entry src b w Hok) as H. by rewrite E in H.
Qed.

Lemma table_ok_xact_callback event s :
  table_ok s.2 -> table_ok (relaccess_xact_callback event s).2.
Proof.
  destruct s as [b w]. intros Hok. unfold relaccess_xact_callback.
  destruct (negb _ || negb _); [done |]. destruct event; try done.
  pose proof (table_ok_commit (local_access_entries b) (b, w) Hok) as H.
  by destruct (fold_left _ _ _) as [b' w'].
Qed.

Lemma table_ok_update connect exec s :
  table_ok s.2 -> table_ok (relaccess_stats_update connect exec s).2.2.
Proof.
  intros Hok. unfold relaccess_stats_update.
  pose proof (table_ok_dump true s Hok) as H.
  destruct (relaccess_dump_to_files true s) as [b w].
  unfold relaccess_upsert_from_file.
  destruct (connect <? 0); [done |]. destruct exec as [ret |]; [| done].
  destruct (ret <? 0); by apply (table_ok_same w).
Qed.

Lemma table_ok_step w w' : world_step w w' -> table_ok w -> table_ok w'.
Proof.
  intros Hstep Hok. destruct Hstep.
  - by apply (table_ok_xact_callback event (b, w)).
  - by apply (table_ok_dump true (b, w)).
  - by apply (table_ok_update connect exec (b, w)).
  - by apply (table_ok_drop_hook access classId objectId (b, w)).
  - unfold relaccess_shmem_shutdown. destruct (negb _); [done |].
    by apply (table_ok_dump false (b, w)).
  - by apply (table_ok_same w).
  - by apply (table_ok_same w).
Qed.

(** Whatever backends call into the module after startup, in whatever
    order and with whatever outcome of their file writes and of the
    ingestion, the shared table never holds more than
    [gp_relaccess_stats.max_tables] elements (the [Assert] of
    [relaccess_xact_callback] holds), has one element per key, and stores no
    negative time. *)
Theorem table_ok_reachable (max_tables : Z)
    (files : gmap Oid (list relaccessEntry)) (script : list bool) (w : world) :
  0 <= max_tables ->
  reachable_from (relaccess_shmem_startup max_tables files script) w ->
  table_ok w /\ relaccess_size w = max_tables.
Proof.
  intros Hpos Hreach. induction Hreach as [| w w' _ [IH Hsz] Hstep].
  - split; [| done]. unfold table_ok, relaccess_shmem_startup. simpl.
    split; [lia |]. split; [apply NoDup_nil_2 | constructor].
  - split; [by apply (table_ok_step w) |].
    rewrite <- Hsz. destruct Hstep; simpl.
    + unfold relaccess_xact_callback.
      destruct (negb _ || negb _); [done |]. destruct event; try done.
      assert (Hf : forall t s,
                relaccess_size
                  (fold_left (fun s src => commit_entry src s) t s).2 =
                relaccess_size s.2).
      { induction t as [| src t IHt]; intros [b1 w1]; cbn [fold_left]; [done |].
        rewrite IHt. apply commit_entry_size. }
      specialize (Hf (local_access_entries b) (b, w)).
      by destruct (fold_left _ _ _).
    + apply (relaccess_dump_to_files_session true (b, w)).
    + unfold relaccess_stats_update.
      pose proof (relaccess_dump_to_files_session true (b, w)) as Hs.
      cbv zeta in Hs. destruct Hs as (_ & _ & _ & _ & _ & _ & _ & Hs).
      destruct (relaccess_dump_to_files true (b, w)) as [b1 w1].
      unfold relaccess_upsert_from_file.
      destruct (connect <? 0); [done |]. destruct exec as [ret |]; [| done].
      by destruct (ret <? 0).
    + unfold relaccess_drop_hook. destruct access; try done.
      destruct (classId =? DatabaseRelationId); [| done].
      assert (Hd : forall scan s,
                relaccess_size (relaccess_drop_scan objectId scan s).2 =
                relaccess_size s.2).
      { induction scan as [| e rest IHs]; intros [b1 w1]; simpl; [done |].
        destruct (_ =? _); by rewrite IHs. }
      specialize (Hd (relaccesses w) (b, w)). simpl in *.
      by destruct (relaccess_drop_scan _ _ _).
    + unfold relaccess_shmem_shutdown. destruct (negb _); [done |].
      apply (relaccess_dump_to_files_session false (b, w)).
    + done.
    + done.
Qed.

Lemma table_ok_reachable_example :
  let w := (relaccess_xact_callback XACT_EVENT_COMMIT
              (demo_select 1 10 100 (demo_backend 5 false),
               relaccess_shmem_startup 128 ∅ [])).2 in
  length (relaccesses w) = 1%nat /\ table_ok w /\ relaccess_size w = 128.
Proof.
  split; [reflexivity |].
  apply (table_ok_reachable 128 ∅ []); [lia |].
  eapply reachable_step; [apply reachable_start | apply step_xact].
Defined.

(** ** [relaccess_stats_fillfactor] *)

Lemma to_int16_small z : - 2 ^ 15 <= z < 2 ^ 15 -> to_int16 z = z.
Proof. intros H. unfold to_int16. rewrite Z.mod_small; lia. Qed.

(** For a capacity the setting allows and a table within its capacity, the
    fill factor is the percentage [n * 100 / max_tables] rounded down: it is
    not changed by the narrowing to [int16_t], lies between 0 and 100, is
    100 exactly when the table is full and 0 exactly when less than one
    hundredth of the table is used. *)
Theorem relaccess_stats_fillfactor_percent (w : world) :
  max_tables_in_range w ->
  Z.of_nat (length (relaccesses w)) <= relaccess_size w ->
  let n := Z.of_nat (length (relaccesses w)) in
  relaccess_stats_fillfactor w = n * 100 / relaccess_size w /\
  0 <= relaccess_stats_fillfactor w <= 100 /\
  (relaccess_stats_fillfactor w = 100 <-> n = relaccess_size w) /\
  (relaccess_stats_fillfactor w = 0 <-> n * 100 < relaccess_size w).
Proof.
  intros Hr Hc n. unfold max_tables_in_range, INT_MAX in Hr.
  destruct Hr as [Hlo Hhi].
  assert (Hn : 0 <= n) by (unfold n; lia).
  fold n in Hc.
  assert (Hq : 0 <= n * 100 / relaccess_size w <= 100).
  { split; [apply Z.div_pos; lia |].
    apply Z.div_le_upper_bound; lia. }
  assert (Heq : relaccess_stats_fillfactor w = n * 100 / relaccess_size w).
  { unfold relaccess_stats_fillfactor. fold n.
    rewrite Z.quot_div_nonneg by lia. apply to_int16_small. lia. }
  rewrite Heq. split; [done |]. split; [done |]. split; split.
  - intros H100.
    pose proof (Z.mul_div_le (n * 100) (relaccess_size w) ltac:(lia)). nia.
  - intros Hfull. rewrite Hfull, Z.mul_comm, Z.div_mul; lia.
  - intros H0. apply Z.div_small_iff in H0; lia.
  - intros Hlt. apply Z.div_small. lia.
Qed.

Lemma relaccess_stats_fillfactor_example :
  relaccess_stats_fillfactor (mkWorld 128 demo_store ∅ [] demo_slot_bytes) = 2.
Proof.
  pose proof (relaccess_stats_fillfactor_percent (mkWorld 128 demo_store ∅ [] demo_slot_bytes))
    as H.
  destruct H as (H & _).
  - unfold max_tables_in_range, INT_MAX. simpl. lia.
  - simpl. lia.
  - rewrite H. reflexivity.
Defined.

(** ** [get_dump_filename] *)

Lemma string_app_length (s t : string) :
  String.length (s +:+ t) = (String.length s + String.length t)%nat.
Proof. induction s as [| a s IH]; simpl; [done | by rewrite IH]. Qed.

Lemma string_app_inj_r (t s1 : string) : forall s2,
  s1 +:+ t = s2 +:+ t -> s1 = s2.
Proof.
  induction s1 as [| a s1 IH]; intros [| c s2] Heq.
  - done.
  - apply (f_equal String.length) in Heq.
    rewrite !string_app_length in Heq. simpl in Heq. lia.
  - apply (f_equal String.length) in Heq.
    rewrite !string_app_length in Heq. simpl in Heq. lia.
  - change (String a (s1 +:+ t) = String c (s2 +:+ t)) in Heq.
    injection Heq as -> Heq. f_equal. by apply IH.
Qed.

Lemma to_int32_inj d1 d2 :
  0 <= d1 < 2 ^ 32 -> 0 <= d2 < 2 ^ 32 -> to_int32 d1 = to_int32 d2 -> d1 = d2.
Proof.
  unfold to_int32. intros H1 H2 Heq.
  assert (Hm : (d1 + 2 ^ 31) mod 2 ^ 32 = (d2 + 2 ^ 31) mod 2 ^ 32) by lia.
  clear Heq. revert Hm.
  change (2 ^ 31) with 2147483648. change (2 ^ 32) with 4294967296 in *.
  Z.div_mod_to_equations. lia.
Qed.

(** Two databases never share a dump file: for oids (32-bit unsigned
    values), different oids give different file names, although [%d] prints
    the oids from [2^31] on as negative numbers. *)
Theorem get_dump_filename_inj (d1 d2 : Oid) :
  0 <= d1 < 2 ^ 32 -> 0 <= d2 < 2 ^ 32 -> d1 <> d2 ->
  get_dump_filename d1 <> get_dump_filename d2.
Proof.
  intros H1 H2 Hne Heq. apply Hne. apply to_int32_inj; [done | done |].
  unfold get_dump_filename in Heq.
  apply (inj (String.app _)) in Heq. apply (inj (String.app _)) in Heq.
  apply string_app_inj_r in Heq. by apply (inj pretty) in Heq.
Qed.

Lemma get_dump_filename_example :
  get_dump_filename 5 = "pg_stat/relaccess_stats_dump_5.csv"%string /\
  get_dump_filename 4294967291 = "pg_stat/relaccess_stats_dump_-5.csv"%string /\
  (String.eqb (get_dump_filename 5) (get_dump_filename 4294967291)) = false.
Proof.
  split; [reflexivity |]. split; [reflexivity |].
  apply String.eqb_neq. apply get_dump_filename_inj; lia.
Defined.

(** ** What the hooks stage *)

Lemma local_key_eqb_neq k1 k2 : local_key_eqb k1 k2 = false <-> k1 <> k2.
Proof.
  rewrite <- local_key_eqb_eq. destruct (local_key_eqb k1 k2); split; congruence.
Qed.

Lemma local_find_store_other k t e' :
  l_key e' <> k -> local_find k (local_store e' t) = local_find k t.
Proof.
  intros Hne. induction t as [| x t IH]; simpl; [done |].
  destruct (local_key_eqb (l_key x) (l_key e')) eqn:E; simpl.
  - apply local_key_eqb_eq in E. rewrite E.
    apply local_key_eqb_neq in Hne. by rewrite Hne.
  - by rewrite IH.
Qed.

Lemma local_find_app_other k t e :
  l_key e <> k -> local_find k (t ++ [e]) = local_find k t.
Proof.
  intros Hne. induction t as [| x t IH]; simpl.
  - apply local_key_eqb_neq in Hne. by rewrite Hne.
  - by rewrite IH.
Qed.

(** A call for one key leaves the staging entries of every other key as
    they are. *)
Lemma memorize_other r p env b k :
  k <> mkLocalKey r (stmt_counter b) ->
  local_find k (local_access_entries (memorize_local_access_entry r p env b)) =
  local_find k (local_access_entries b).
Proof.
  intros Hne. unfold memorize_local_access_entry.
  destruct (local_find (mkLocalKey r (stmt_counter b)) (local_access_entries b))
    as [e |] eqn:Hf; simpl.
  - rewrite local_find_store_other; [done |].
    rewrite stamp_access_key. simpl. apply local_find_key in Hf. congruence.
  - rewrite local_find_store_other by (rewrite stamp_access_key; simpl; congruence).
    by rewrite local_find_app_other by (simpl; congruence).
Qed.

Lemma memorize_relname_cache r p env b :
  relname_cache (memorize_local_access_entry r p env b) = relname_cache b.
Proof.
  unfold memorize_local_access_entry.
  by destruct (local_find _ (local_access_entries b)).
Qed.

Lemma update_relname_cache_staging r nm g b :
  local_access_entries (update_relname_cache r nm g b) = local_access_entries b /\
  stmt_counter (update_relname_cache r nm g b) = stmt_counter b.
Proof. unfold update_relname_cache. by destruct (relname_cache b !! r). Qed.

(** The name cache after one call: an entry is written only for a relation
    the cache does not know yet. *)
Lemma update_relname_cache_lookup r nm g b r' :
  relname_cache (update_relname_cache r nm g b) !! r' =
  match relname_cache b !! r' with
  | Some n => Some n
  | None =>
      if decide (r = r')
      then Some (strlcpy (default (g r) nm) NAMEDATALEN)
      else None
  end.
Proof.
  unfold update_relname_cache.
  destruct (relname_cache b !! r) as [n |] eqn:Hr.
  - destruct (relname_cache b !! r') as [n' |] eqn:Hr'; [done |].
    case_decide; [congruence | done].
  - simpl. case_decide as Heq.
    + subst r'. rewrite lookup_insert_eq, Hr. by destruct nm.
    + rewrite lookup_insert_ne by done. by destruct (relname_cache b !! r').
Qed.

Lemma record_call_staging g b c :
  local_access_entries (record_call g b c) =
    local_access_entries
      (memorize_local_access_entry c.1.1.1 c.1.1.2 c.1.2 b) /\
  stmt_counter (record_call g b c) = stmt_counter b.
Proof.
  destruct c as [[[r p] env] nm]. simpl.
  destruct (update_relname_cache_staging r nm g
              (memorize_local_access_entry r p env b)) as [-> ->].
  by rewrite memorize_stmt_counter.
Qed.

(** What the events of relation [r] make of its staging entry depends only
    on that entry and on the statement counter. *)
Lemma memorize_events_local r c evs : forall b b',
  stmt_counter b = c -> stmt_counter b' = c ->
  local_find (mkLocalKey r c) (local_access_entries b) =
    local_find (mkLocalKey r c) (local_access_entries b') ->
  local_find (mkLocalKey r c)
    (local_access_entries (memorize_events r evs b)) =
  local_find (mkLocalKey r c)
    (local_access_entries (memorize_events r evs b')).
Proof.
  induction evs as [| [p env] evs IH]; intros b b' Hb Hb' Hf; simpl; [done |].
  apply IH; [by rewrite memorize_stmt_counter .. |].
  pose proof (memorize_lookup r p env b) as H1.
  pose proof (memorize_lookup r p env b') as H2.
  cbv zeta in H1, H2. rewrite Hb in H1. rewrite Hb' in H2.
  by rewrite H1, H2, Hf.
Qed.

Lemma memorize_events_stmt_counter r evs : forall b,
  stmt_counter (memorize_events r evs b) = stmt_counter b.
Proof.
  induction evs as [| [p env] evs IH]; intros b; simpl; [done |].
  by rewrite IH, memorize_stmt_counter.
Qed.

(** Calls for other relations, interleaved with those for [r], do not
    change what is staged for [r]. *)
Lemma record_calls_lookup g r c cs : forall b,
  stmt_counter b = c ->
  local_find (mkLocalKey r c)
    (local_access_entries (fold_left (record_call g) cs b)) =
  local_find (mkLocalKey r c)
    (local_access_entries (memorize_events r (events_for r cs) b)) /\
  stmt_counter (fold_left (record_call g) cs b) = c.
Proof.
  induction cs as [| c0 cs IH]; intros b Hb; cbn [fold_left]; [done |].
  destruct (record_call_staging g b c0) as [Hl Hc].
  destruct (IH (record_call g b c0)) as [IH1 IH2]; [congruence |].
  rewrite IH1, IH2. split; [| done].
  destruct c0 as [[[r' p] env] nm]. simpl in Hl. simpl events_for.
  change (record_call g b (r', p, env, nm)) with
    (update_relname_cache r' nm g (memorize_local_access_entry r' p env b)) in *.
  case_decide as Heq.
  - subst r'. simpl.
    apply memorize_events_local;
      [congruence | by rewrite memorize_stmt_counter | by rewrite Hl].
  - apply memorize_events_local; [congruence | done |].
    rewrite Hl. apply memorize_other. congruence.
Qed.

(** Calls of the current statement leave the entries of every other
    statement as they are. *)
Lemma record_calls_other_statement g cs : forall b k,
  stmt_cnt k <> stmt_counter b ->
  local_find k (local_access_entries (fold_left (record_call g) cs b)) =
  local_find k (local_access_entries b).
Proof.
  induction cs as [| c cs IH]; intros b k Hk; cbn [fold_left]; [done |].
  destruct (record_call_staging g b c) as [Hl Hc].
  rewrite IH by (by rewrite Hc). rewrite Hl.
  apply memorize_other. intros ->. by apply Hk.
Qed.

(** The first name offered for a relation is the one the cache keeps. *)
Lemma record_calls_relname_cache g r cs : forall b,
  relname_cache (fold_left (record_call g) cs b) !! r =
  match relname_cache b !! r with
  | Some n => Some n
  | None => head (names_for r g cs)
  end.
Proof.
  induction cs as [| c cs IH]; intros b; cbn [fold_left].
  - by destruct (relname_cache b !! r).
  - rewrite IH. destruct c as [[[r' p] env] nm]. simpl record_call.
    rewrite update_relname_cache_lookup, memorize_relname_cache.
    destruct (relname_cache b !! r) as [n |]; [done |].
    simpl names_for. case_decide as Heq; [by subst r' | done].
Qed.

Lemma collect_relaccess_hook_calls rangeTable g b :
  is_dispatch (Gp_role b) = true -> is_enabled b = true ->
  collect_relaccess_hook rangeTable g b =
  fold_left (record_call g) (calls_of_rangeTable rangeTable) b.
Proof.
  intros Hd He. unfold collect_relaccess_hook. rewrite Hd, He. simpl.
  clear Hd He. revert b.
  induction rangeTable as [| [rte env] rt IH]; intros b; [done |].
  cbn [fold_left]. rewrite IH. unfold calls_of_rangeTable. simpl omap.
  unfold tracked at 2.
  destruct (rtekind rte); try done.
  by destruct (is_read (requiredPerms rte) || is_write (requiredPerms rte)).
Qed.

Lemma names_for_rangeTable r g rangeTable :
  head (names_for r g (calls_of_rangeTable rangeTable)) =
  match events_for r (calls_of_rangeTable rangeTable) with
  | [] => None
  | _ :: _ => Some (strlcpy (g r) NAMEDATALEN)
  end.
Proof.
  induction rangeTable as [| [rte env] rt IH]; [done |].
  unfold calls_of_rangeTable. simpl omap.
  destruct (tracked rte); [| exact IH].
  simpl. case_decide; [done | exact IH].
Qed.

(** What [collect_relaccess_hook] leaves in the staging buffer and in the
    name cache of an enabled dispatcher, for every relation [r]: only the
    plain relations of the range table whose required permissions classify
    as a read or a write count (the events [evs] of [r]); with none, the
    entry and the cached name of [r] are untouched; otherwise the entry of
    [r] for the current statement holds the union of the required
    permissions and the times of the latest read and write among them, and
    the cache holds the name it already had, else the catalog's name cut to
    63 characters.  Entries of other statements are never touched. *)
Theorem collect_relaccess_hook_stages
    (rangeTable : list (RangeTblEntry * call_env)) (g : Oid -> string)
    (b : backend) (r : Oid) :
  is_dispatch (Gp_role b) = true -> is_enabled b = true ->
  let b' := collect_relaccess_hook rangeTable g b in
  let evs := events_for r (calls_of_rangeTable rangeTable) in
  let k := mkLocalKey r (stmt_counter b) in
  stmt_counter b' = stmt_counter b /\
  (forall k', stmt_cnt k' <> stmt_counter b ->
     local_find k' (local_access_entries b') =
     local_find k' (local_access_entries b)) /\
  (evs = [] ->
     local_find k (local_access_entries b') =
       local_find k (local_access_entries b) /\
     relname_cache b' !! r = relname_cache b !! r) /\
  (evs <> [] ->
     relname_cache b' !! r =
       Some (default (strlcpy (g r) NAMEDATALEN) (relname_cache b !! r)) /\
     (local_find k (local_access_entries b) = None ->
      exists e,
        local_find k (local_access_entries b') = Some e /\
        perms e = spec_perms_union evs /\
        l_last_read e = latest_time (times_of is_read evs) /\
        l_last_write e = latest_time (times_of is_write evs)) /\
     (forall e0, local_find k (local_access_entries b) = Some e0 ->
      exists e,
        local_find k (local_access_entries b') = Some e /\
        perms e = Z.lor (perms e0) (spec_perms_union evs))).
Proof.
  intros Hd He b' evs k. unfold b'.
  rewrite (collect_relaccess_hook_calls _ _ _ Hd He).
  destruct (record_calls_lookup g r (stmt_counter b)
              (calls_of_rangeTable rangeTable) b eq_refl) as [Hl Hc].
  fold evs in Hl. fold k in Hl.
  pose proof (record_calls_relname_cache g r
                (calls_of_rangeTable rangeTable) b) as Hn.
  rewrite names_for_rangeTable in Hn. fold evs in Hn.
  split; [done |]. split; [| split].
  - intros k' Hk'. by apply record_calls_other_statement.
  - intros Hevs. rewrite Hl, Hn, Hevs. split; [done |].
    by destruct (relname_cache b !! r).
  - intros Hevs. split; [| split].
    + rewrite Hn. destruct (relname_cache b !! r); [done |].
      by destruct evs.
    + intros Hnone. rewrite Hl.
      destruct (staging_entry_of_events b r evs Hevs Hnone)
        as (e & Hf & _ & Hp & Hr & Hw).
      by exists e.
    + intros e0 He0. rewrite Hl.
      destruct (memorize_events_lookup r evs b e0 He0) as [Hf _].
      exists (replay evs e0). split; [done |]. apply replay_perms.
Qed.

Lemma collect_relaccess_hook_example :
  let b := demo_backend 5 false in
  let b' := collect_relaccess_hook demo_rangeTable demo_old_names b in
  (local_find (mkLocalKey 1 0) (local_access_entries b') =
     Some (mkLocal (mkLocalKey 1 0) 10 4343 104 0 ACL_SELECT) /\
   local_find (mkLocalKey 3 0) (local_access_entries b') = None /\
   length (local_access_entries b') = 2%nat) /\
  let evs := events_for 1 (calls_of_rangeTable demo_rangeTable) in
  let k := mkLocalKey 1 (stmt_counter b) in
  stmt_counter b' = stmt_counter b /\
  (forall k', stmt_cnt k' <> stmt_counter b ->
     local_find k' (local_access_entries b') =
     local_find k' (local_access_entries b)) /\
  (evs = [] ->
     local_find k (local_access_entries b') =
       local_find k (local_access_entries b) /\
     relname_cache b' !! 1 = relname_cache b !! 1) /\
  (evs <> [] ->
     relname_cache b' !! 1 =
       Some (default (strlcpy (demo_old_names 1) NAMEDATALEN)
               (relname_cache b !! 1)) /\
     (local_find k (local_access_entries b) = None ->
      exists e,
        local_find k (local_access_entries b') = Some e /\
        perms e = spec_perms_union evs /\
        l_last_read e = latest_time (times_of is_read evs) /\
        l_last_write e = latest_time (times_of is_write evs)) /\
     (forall e0, local_find k (local_access_entries b) = Some e0 ->
      exists e,
        local_find k (local_access_entries b') = Some e /\
        perms e = Z.lor (perms e0) (spec_perms_union evs))).
Proof.
  split; [by vm_compute |].
  apply (collect_relaccess_hook_stages demo_rangeTable demo_old_names
           (demo_backend 5 false) 1); reflexivity.
Defined.

(** The staging entry of a relation after the events of one statement: the
    events replayed on the entry the statement found, or on the blank slot
    of a new key. *)
Lemma memorize_events_replay r p0 env0 rest b :
  let k := mkLocalKey r (stmt_counter b) in
  local_find k
    (local_access_entries (memorize_events r ((p0, env0) :: rest) b)) =
  Some (replay ((p0, env0) :: rest)
          (default (blank_local_entry k env0)
             (local_find k (local_access_entries b)))).
Proof.
  intros k. simpl memorize_events.
  pose proof (memorize_lookup r p0 env0 b) as H1. cbv zeta in H1. fold k in H1.
  pose proof (memorize_events_lookup r rest
                (memorize_local_access_entry r p0 env0 b)) as H2.
  rewrite memorize_stmt_counter in H2. fold k in H2.
  destruct (H2 _ H1) as [-> _]. f_equal.
  by destruct (local_find k (local_access_entries b)).
Qed.

Lemma update_relname_cache_Some r n g g' b :
  update_relname_cache r (Some n) g b = update_relname_cache r (Some n) g' b.
Proof. done. Qed.

Lemma collect_truncate_hook_calls relations g b :
  is_enabled b = true -> is_dispatch (Gp_role b) = true ->
  collect_truncate_hook relations b =
  fold_left (record_call g) (calls_of_truncate relations) b.
Proof.
  intros He Hd. unfold collect_truncate_hook. rewrite Hd, He. simpl.
  clear Hd He. revert b.
  induction relations as [| [[r nm] env] rels IH]; intros b; [done |].
  cbn [fold_left]. by rewrite IH.
Qed.

Lemma events_for_truncate r relations :
  events_for r (calls_of_truncate relations) =
  map (fun x => (ACL_TRUNCATE, x.2)) (filter (fun x => x.1.1 = r) relations).
Proof.
  induction relations as [| [[r' nm] env] rels IH]; [done |].
  simpl. rewrite filter_cons. simpl. case_decide; simpl; by rewrite <- IH.
Qed.

Lemma names_for_truncate r g relations :
  names_for r g (calls_of_truncate relations) =
  map (fun x => strlcpy x.1.2 NAMEDATALEN)
    (filter (fun x => x.1.1 = r) relations).
Proof.
  induction relations as [| [[r' nm] env] rels IH]; [done |].
  simpl. rewrite filter_cons. simpl. case_decide; simpl; by rewrite <- IH.
Qed.

Lemma last_map {A B} (f : A -> B) (l : list A) :
  last (map f l) = option_map f (last l).
Proof.
  induction l as [| x l IH]; [done |].
  destruct l as [| y l]; [done |]. exact IH.
Qed.

(** Replaying [TRUNCATE] calls: the write side follows the last call, the
    read side stays. *)
Lemma replay_truncate (envs : list call_env) : forall e envL,
  last envs = Some envL ->
  let e' := replay (map (fun env => (ACL_TRUNCATE, env)) envs) e in
  perms e' = Z.lor (perms e) ACL_TRUNCATE /\
  l_last_read e' = l_last_read e /\
  l_last_reader_id e' = l_last_reader_id e /\
  l_last_write e' = GetCurrentTimestamp envL /\
  l_last_writer_id e' = GetUserId envL.
Proof.
  induction envs as [| env envs IH]; intros e envL Hl; [done |].
  destruct envs as [| env2 envs].
  - injection Hl as <-. by cbv.
  - change (last (env :: env2 :: envs)) with (last (env2 :: envs)) in Hl.
    specialize (IH (stamp_access ACL_TRUNCATE env (or_perms ACL_TRUNCATE e))
                  envL Hl).
    cbv zeta in IH. destruct IH as (Hp & Hr & Hri & Hw & Hwi).
    cbv zeta. change (replay (map _ (env :: env2 :: envs)) e) with
      (replay (map (fun env => (ACL_TRUNCATE, env)) (env2 :: envs))
         (stamp_access ACL_TRUNCATE env (or_perms ACL_TRUNCATE e))).
    rewrite Hp, Hr, Hri, Hw, Hwi. split; [| done].
    change (perms (stamp_access ACL_TRUNCATE env (or_perms ACL_TRUNCATE e)))
      with (Z.lor (perms e) ACL_TRUNCATE).
    rewrite <- Z.lor_assoc. by rewrite Z.lor_diag.
Qed.

(** What [collect_truncate_hook] leaves for every relation [r] that the
    [TRUNCATE] of an enabled dispatcher names (the calls [mine] for [r]):
    the entry of [r] for the current statement has the truncate bit added
    to its permissions, which classify as a write; its write side is the
    user and the time of the last call for [r], its read side is untouched
    (0 for a new entry); the cache keeps the name it had, else the first
    name the statement gives, cut to 63 characters.  A relation the
    statement does not name keeps its entry and its cached name. *)
Theorem collect_truncate_hook_stages
    (relations : list (Oid * string * call_env)) (b : backend) (r : Oid) :
  is_enabled b = true -> is_dispatch (Gp_role b) = true ->
  let b' := collect_truncate_hook relations b in
  let mine := filter (fun x => x.1.1 = r) relations in
  let k := mkLocalKey r (stmt_counter b) in
  let old := local_find k (local_access_entries b) in
  stmt_counter b' = stmt_counter b /\
  (mine = [] ->
     local_find k (local_access_entries b') = old /\
     relname_cache b' !! r = relname_cache b !! r) /\
  (forall first, head mine = Some first ->
     relname_cache b' !! r =
       Some (default (strlcpy first.1.2 NAMEDATALEN) (relname_cache b !! r))) /\
  (forall final, last mine = Some final ->
     exists e,
       local_find k (local_access_entries b') = Some e /\
       perms e = Z.lor (from_option perms 0 old) ACL_TRUNCATE /\
       is_write (perms e) = true /\
       l_last_write e = GetCurrentTimestamp final.2 /\
       l_last_writer_id e = GetUserId final.2 /\
       l_last_read e = from_option l_last_read 0 old).
Proof.
  intros He Hd b' mine k old. unfold b'.
  rewrite (collect_truncate_hook_calls _ (fun _ => EmptyString) _ He Hd).
  destruct (record_calls_lookup (fun _ => EmptyString) r (stmt_counter b)
              (calls_of_truncate relations) b eq_refl) as [Hl Hc].
  fold k in Hl.
  pose proof (record_calls_relname_cache (fun _ => EmptyString) r
                (calls_of_truncate relations) b) as Hn.
  rewrite names_for_truncate in Hn. rewrite events_for_truncate in Hl.
  fold mine in Hl, Hn.
  split; [done |]. split; [| split].
  - intros Hm. rewrite Hl, Hn, Hm. split; [done |].
    by destruct (relname_cache b !! r).
  - intros first Hf. rewrite Hn.
    destruct (relname_cache b !! r); [done |].
    destruct mine as [| x m]; [done |]. simpl in *. by injection Hf as ->.
  - intros final Hf. rewrite Hl.
    destruct mine as [| [[r0 nm0] env0] m] eqn:Hm; [done |].
    rewrite <- map_map with (f := snd) (g := fun env => (ACL_TRUNCATE, env)).
    change (map (fun env => (ACL_TRUNCATE, env))
              (map snd ((r0, nm0, env0) :: m)))
      with ((ACL_TRUNCATE, env0) ::
            map (fun env => (ACL_TRUNCATE, env)) (map snd m)).
    pose proof (memorize_events_replay r ACL_TRUNCATE env0
                  (map (fun env => (ACL_TRUNCATE, env)) (map snd m)) b) as Hrp.
    cbv zeta in Hrp. fold k in Hrp. fold old in Hrp. rewrite Hrp.
    eexists. split; [done |].
    change ((ACL_TRUNCATE, env0) ::
            map (fun env => (ACL_TRUNCATE, env)) (map snd m))
      with (map (fun env => (ACL_TRUNCATE, env))
              (map snd ((r0, nm0, env0) :: m))).
    assert (Hlast : last (map snd ((r0, nm0, env0) :: m)) = Some final.2).
    { by rewrite last_map, Hf. }
    pose proof (replay_truncate _ (default (blank_local_entry k env0) old)
                  _ Hlast) as Hrep.
    cbv zeta in Hrep. destruct Hrep as (Hp & Hr & _ & Hw & Hwi).
    rewrite Hp, Hr, Hw, Hwi.
    assert (Hpo : perms (default (blank_local_entry k env0) old) =
                  from_option perms 0 old) by (by destruct old).
    assert (Hro : l_last_read (default (blank_local_entry k env0) old) =
                  from_option l_last_read 0 old) by (by destruct old).
    rewrite Hpo, Hro. split; [done |]. split; [| done].
    rewrite is_write_bits.
    assert (Ht : has_perm (Z.lor (from_option perms 0 old) ACL_TRUNCATE)
                   ACL_TRUNCATE = true).
    { change ACL_TRUNCATE with (Z.shiftl 1 4) at 2.
      rewrite has_perm_testbit by lia. rewrite Z.lor_spec.
      change (Z.testbit ACL_TRUNCATE 4) with true. apply orb_true_r. }
    rewrite Ht. apply orb_true_r.
Qed.

Lemma collect_truncate_hook_example :
  let b := demo_backend 5 false in
  let b' := collect_truncate_hook demo_truncate b in
  (local_find (mkLocalKey 1 0) (local_access_entries b') =
     Some (mkLocal (mkLocalKey 1 0) 4242 10 0 102 ACL_TRUNCATE) /\
   relname_cache b' !! 1 = Some "t1"%string) /\
  let mine := filter (fun x => x.1.1 = 1) demo_truncate in
  let k := mkLocalKey 1 (stmt_counter b) in
  let old := local_find k (local_access_entries b) in
  stmt_counter b' = stmt_counter b /\
  (mine = [] ->
     local_find k (local_access_entries b') = old /\
     relname_cache b' !! 1 = relname_cache b !! 1) /\
  (forall first, head mine = Some first ->
     relname_cache b' !! 1 =
       Some (default (strlcpy first.1.2 NAMEDATALEN) (relname_cache b !! 1))) /\
  (forall final, last mine = Some final ->
     exists e,
       local_find k (local_access_entries b') = Some e /\
       perms e = Z.lor (from_option perms 0 old) ACL_TRUNCATE /\
       is_write (perms e) = true /\
       l_last_write e = GetCurrentTimestamp final.2 /\
       l_last_writer_id e = GetUserId final.2 /\
       l_last_read e = from_option l_last_read 0 old).
Proof.
  split; [by vm_compute |].
  apply (collect_truncate_hook_stages demo_truncate (demo_backend 5 false) 1);
    reflexivity.
Defined.

Lemma calls_of_rangeTable_untracked rangeTable :
  Forall (fun x => tracked x.1 = false) rangeTable ->
  calls_of_rangeTable rangeTable = [].
Proof.
  induction 1 as [| [rte env] rt Hx _ IH]; [done |].
  unfold calls_of_rangeTable. simpl in *. by rewrite Hx.
Qed.

(** [collect_relaccess_hook] stages nothing and caches no name when the
    previous hook of the chain refuses the statement, when collection is
    disabled, outside a dispatcher, or when the range table has no plain
    relation with a tracked permission; it returns [false] exactly when the
    previous hook did. *)
Theorem collect_relaccess_hook_chain_unchanged (prev : option bool)
    (rangeTable : list (RangeTblEntry * call_env)) (g : Oid -> string)
    (b : backend) :
  prev = Some false \/ is_enabled b = false \/
  is_dispatch (Gp_role b) = false \/
  Forall (fun x => tracked x.1 = false) rangeTable ->
  collect_relaccess_hook_chain prev rangeTable g b =
  (negb (bool_decide (prev = Some false)), b).
Proof.
  intros H.
  assert (Hb : prev <> Some false -> collect_relaccess_hook rangeTable g b = b).
  { intros Hp. destruct H as [H | [H | [H | H]]]; [done | | |].
    - unfold collect_relaccess_hook. rewrite H. by rewrite andb_false_r.
    - unfold collect_relaccess_hook. by rewrite H.
    - destruct (is_dispatch (Gp_role b)) eqn:Hd, (is_enabled b) eqn:He;
        try (unfold collect_relaccess_hook; by rewrite Hd, He).
      rewrite collect_relaccess_hook_calls by done.
      by rewrite calls_of_rangeTable_untracked. }
  unfold collect_relaccess_hook_chain.
  destruct prev as [[] |]; simpl; [| done |]; by rewrite Hb.
Qed.

Lemma collect_relaccess_hook_chain_example :
  collect_relaccess_hook_chain (Some true)
    [(mkRTE RTE_SUBQUERY 0 ACL_SELECT, demo_env 10 101);
     (mkRTE RTE_RELATION 3 0, demo_env 10 103)]
    demo_names (demo_backend 5 false) =
  (true, demo_backend 5 false).
Proof.
  apply (collect_relaccess_hook_chain_unchanged (Some true)
           [(mkRTE RTE_SUBQUERY 0 ACL_SELECT, demo_env 10 101);
            (mkRTE RTE_RELATION 3 0, demo_env 10 103)]
           demo_names (demo_backend 5 false)).
  right. right. right. repeat constructor.
Defined.

(** ** A commit that finds room for every staged entry *)

Lemma record_access_relname_cache src found dst b w :
  relname_cache (record_access src found dst (b, w)).1 =
  (relname_cache_ENTER (relid (key dst)) (relname_cache b)).2.
Proof.
  unfold record_access.
  by destruct (relname_cache_ENTER (relid (key dst)) (relname_cache b)).
Qed.

Lemma relname_cache_ENTER_keeps r' c r n :
  c !! r = Some n -> (relname_cache_ENTER r' c).2 !! r = Some n.
Proof.
  intros Hc. unfold relname_cache_ENTER.
  destruct (c !! r') eqn:Hr'; simpl; [done |].
  rewrite lookup_insert_ne; [done | congruence].
Qed.

Lemma relname_cache_ENTER_known c r n :
  c !! r = Some n -> (relname_cache_ENTER r c).1 = n.
Proof. intros Hc. unfold relname_cache_ENTER. by rewrite Hc. Qed.

Lemma merge_entry_relname src found name dst :
  relname (merge_entry src found name dst) = strlcpy name NAMEDATALEN.
Proof. done. Qed.

Lemma counted_nil e : counted [] e e.
Proof. by repeat split. Qed.

Lemma counted_cons src mine e0 e1 e' :
  counted [src] e0 e1 -> counted mine e1 e' -> counted (src :: mine) e0 e'.
Proof.
  unfold counted, count_statements. cbn [fold_left].
  intros (-> & -> & -> & -> & ->) H. exact H.
Qed.

Lemma counted_merge_entry src found name e0 :
  (found = false -> e0 = fresh_entry (key e0)) ->
  counted [src] e0 (merge_entry src found name e0).
Proof.
  intros Hnew.
  pose proof (merge_entry_counters src found name e0) as H. cbv zeta in H.
  assert (Hr : reset_if_new found e0 = e0 \/
               (found = false /\ e0 = fresh_entry (key e0))).
  { destruct found; [by left | right; by split; [| apply Hnew]]. }
  unfold counted, count_statements. cbn [fold_left].
  destruct Hr as [Hr | [-> Hr]]; [by rewrite Hr in H |].
  rewrite Hr in H |- *. exact H.
Qed.

(** One step of the commit loop on a table that is not at capacity. *)
Lemma commit_entry_with_room src b w :
  Z.of_nat (length (relaccesses w)) < relaccess_size w ->
  let k := mkKey (MyDatabaseId b) (l_relid (l_key src)) in
  let s1 := commit_entry src (b, w) in
  (exists e1,
     hash_find k (relaccesses s1.2) = Some e1 /\
     counted [src] (entry_or_fresh k (relaccesses w)) e1 /\
     relname e1 =
       strlcpy (relname_cache_ENTER (l_relid (l_key src)) (relname_cache b)).1
         NAMEDATALEN) /\
  (forall k', k' <> k ->
     hash_find k' (relaccesses s1.2) = hash_find k' (relaccesses w)) /\
  Z.of_nat (length (relaccesses s1.2)) <= Z.of_nat (length (relaccesses w)) + 1 /\
  relaccess_size s1.2 = relaccess_size w /\
  dump_files s1.2 = dump_files w /\
  server_log s1.1 = server_log b /\
  had_ht_overflow s1.1 = had_ht_overflow b /\
  MyDatabaseId s1.1 = MyDatabaseId b /\
  (forall r n, relname_cache b !! r = Some n ->
     relname_cache s1.1 !! r = Some n).
Proof.
  intros Hroom k s1. unfold s1, entry_or_fresh.
  destruct (hash_find k (relaccesses w)) as [e |] eqn:Hf.
  - rewrite (commit_entry_found _ _ _ _ Hf).
    pose proof (record_access_backend src true e b w) as H. cbv zeta in H.
    destruct H as (Hfl & Hlog & Hdb & _ & _ & Hsz & Hdf & Hrel).
    pose proof (hash_find_key _ _ _ Hf) as Hk.
    rewrite Hrel, hash_store_length, record_access_relname_cache, Hk.
    split; [| repeat split; try done; try lia].
    + eexists. split.
      * apply (hash_find_store_same k _ e); [exact Hf |].
        by rewrite merge_entry_key.
      * simpl default. split; [by apply counted_merge_entry | done].
    + intros k' Hk'. apply hash_find_store_other.
      rewrite merge_entry_key. congruence.
    + intros r n. apply relname_cache_ENTER_keeps.
  - rewrite (commit_entry_room _ _ _ Hf Hroom). fold k.
    pose proof (record_access_backend src false (fresh_entry k) b
                  (set_relaccesses (relaccesses w ++ [fresh_entry k]) w)) as H.
    cbv zeta in H.
    destruct H as (Hfl & Hlog & Hdb & _ & _ & Hsz & Hdf & Hrel).
    rewrite Hrel, hash_store_length, record_access_relname_cache.
    change (relaccesses (set_relaccesses ?t _)) with t in *.
    split; [| repeat split; try done].
    + eexists. split.
      * apply (hash_find_store_same k _ (fresh_entry k));
          [| by rewrite merge_entry_key].
        by rewrite hash_find_app, Hf, hash_find_fresh.
      * simpl default. split; [by apply counted_merge_entry | done].
    + intros k' Hk'.
      rewrite hash_find_store_other by (rewrite merge_entry_key; simpl; congruence).
      rewrite hash_find_app. destruct (hash_find k' (relaccesses w)); [done |].
      simpl. apply key_eqb_neq in Hk'.
      assert (Hk2 : key_eqb k k' = false).
      { apply key_eqb_neq. apply key_eqb_neq in Hk'. congruence. }
      by rewrite Hk2.
    + rewrite length_app. simpl. lia.
    + intros r n. apply relname_cache_ENTER_keeps.
Qed.

Lemma commit_fold_with_room t : forall b w,
  Z.of_nat (length (relaccesses w)) + Z.of_nat (length t) <= relaccess_size w ->
  let s' := fold_left (fun s src => commit_entry src s) t (b, w) in
  (forall r,
     let k := mkKey (MyDatabaseId b) r in
     (staged_for r t = [] ->
      hash_find k (relaccesses s'.2) = hash_find k (relaccesses w)) /\
     (staged_for r t <> [] ->
      exists e',
        hash_find k (relaccesses s'.2) = Some e' /\
        counted (staged_for r t) (entry_or_fresh k (relaccesses w)) e' /\
        (forall n, relname_cache b !! r = Some n ->
           relname e' = strlcpy n NAMEDATALEN))) /\
  (forall k', dbid k' <> MyDatabaseId b ->
     hash_find k' (relaccesses s'.2) = hash_find k' (relaccesses w)) /\
  dump_files s'.2 = dump_files w /\
  server_log s'.1 = server_log b /\
  had_ht_overflow s'.1 = had_ht_overflow b.
Proof.
  induction t as [| src t IH]; intros b w Hroom; cbn [fold_left].
  - split; [| done]. intros r. split; [done |]. by intros [].
  - cbn [length] in Hroom.
    pose proof (commit_entry_with_room src b w ltac:(lia)) as Hstep.
    cbv zeta in Hstep.
    destruct (commit_entry src (b, w)) as [b1 w1] eqn:E. cbn [fst snd] in Hstep.
    destruct Hstep as ((e1 & Hf1 & Hc1 & Hn1) & Hother & Hlen & Hsz & Hdf &
                       Hlog & Hfl & Hdb & Hcache).
    specialize (IH b1 w1 ltac:(lia)). cbv zeta in IH.
    destruct IH as (IHr & IHo & IHdf & IHlog & IHfl).
    split; [| split; [| split; [| split]]]; try congruence.
    + intros r. specialize (IHr r). cbv zeta in IHr. rewrite Hdb in IHr.
      destruct IHr as [IHnil IHcons].
      unfold staged_for in *. rewrite filter_cons.
      destruct (decide (l_relid (l_key src) = r)) as [Heq | Hne].
      * subst r. split; [done |]. intros _.
        destruct (filter _ t) as [| y m] eqn:Hm.
        -- exists e1. split; [by rewrite IHnil |]. split; [done |].
           intros n Hn. by rewrite Hn1, (relname_cache_ENTER_known _ _ _ Hn).
        -- destruct IHcons as (e' & Hf' & Hc' & Hn'); [done |].
           exists e'. split; [done |]. split.
           ++ apply (counted_cons _ _ _ e1); [done |].
              unfold entry_or_fresh in Hc'. by rewrite Hf1 in Hc'.
           ++ intros n Hn. apply Hn'. by apply Hcache.
      * assert (Hk : hash_find (mkKey (MyDatabaseId b) r) (relaccesses w1) =
                     hash_find (mkKey (MyDatabaseId b) r) (relaccesses w)).
        { apply Hother. congruence. }
        unfold entry_or_fresh in *. rewrite Hk in *. split; [done |].
        intros Hm. destruct (IHcons Hm) as (e' & Hf' & Hc' & Hn').
        exists e'. split; [done |]. split; [done |].
        intros n Hn. apply Hn'. by apply Hcache.
    + intros k' Hk'. rewrite IHo by congruence. apply Hother.
      intros ->. by apply Hk'.
Qed.

Lemma count_statements_in_range bit t : forall n,
  0 <= n -> n + Z.of_nat (length t) <= INT64_MAX ->
  count_statements bit t n =
  n + Z.of_nat (length (filter (fun src => has_perm (perms src) bit = true) t)).
Proof.
  unfold count_statements.
  induction t as [| src t IH]; intros n Hn Hr; cbn [fold_left].
  - simpl. lia.
  - cbn [length] in Hr. rewrite filter_cons.
    rewrite UPDATE_STAT_in_range by (unfold INT64_MAX in *; lia).
    destruct (has_perm (perms src) bit) eqn:Hp.
    + rewrite decide_True by done. rewrite IH by lia. cbn [length]. lia.
    + rewrite decide_False by done. rewrite IH by lia. lia.
Qed.



(** ** One staging entry per statement and relation *)

Lemma staged_for_local_store_same r e' t :
  l_relid (l_key e') = r ->
  staged_for r (local_store e' t) = local_store e' (staged_for r t).
Proof.
  intros Hr. unfold staged_for. induction t as [| x t IH]; [done |].
  cbn [local_store].
  destruct (local_key_eqb (l_key x) (l_key e')) eqn:E.
  - apply local_key_eqb_eq in E.
    rewrite !filter_cons_True by congruence.
    cbn [local_store]. by rewrite (proj2 (local_key_eqb_eq _ _) E).
  - rewrite !filter_cons. destruct (decide (l_relid (l_key x) = r)).
    + cbn [local_store]. by rewrite E, IH.
    + exact IH.
Qed.

Lemma staged_for_local_store_other r e' t :
  l_relid (l_key e') <> r -> staged_for r (local_store e' t) = staged_for r t.
Proof.
  intros Hr. unfold staged_for. induction t as [| x t IH]; [done |].
  cbn [local_store].
  destruct (local_key_eqb (l_key x) (l_key e')) eqn:E.
  - apply local_key_eqb_eq in E.
    rewrite !filter_cons_False by congruence. done.
  - rewrite !filter_cons. destruct (decide (l_relid (l_key x) = r)).
    + by rewrite IH.
    + exact IH.
Qed.

Lemma local_find_staged_for k t :
  local_find k (staged_for (l_relid k) t) = local_find k t.
Proof.
  unfold staged_for. induction t as [| x t IH]; [done |].
  rewrite filter_cons. simpl.
  destruct (decide (l_relid (l_key x) = l_relid k)) as [Heq | Hne]; simpl.
  - by rewrite IH.
  - assert (E : local_key_eqb (l_key x) k = false).
    { apply local_key_eqb_neq. congruence. }
    by rewrite E.
Qed.

Lemma local_store_snoc e e' u :
  local_find (l_key e') u = None -> l_key e = l_key e' ->
  local_store e' (u ++ [e]) = u ++ [e'].
Proof.
  intros Hn Hk. induction u as [| x u IH]; simpl in *.
  - by rewrite Hk, local_key_eqb_refl.
  - destruct (local_key_eqb (l_key x) (l_key e')); [done |]. by rewrite IH.
Qed.

(** One call and the staging entries of relation [r]: a call for another
    relation leaves them; a call for [r] rewrites the entry of the current
    statement in place, or appends it when the statement has none yet. *)
Lemma memorize_staged_for r r' p env b :
  let k := mkLocalKey r (stmt_counter b) in
  staged_for r (local_access_entries (memorize_local_access_entry r' p env b)) =
  if decide (r' = r) then
    match local_find k (local_access_entries b) with
    | Some e =>
        local_store (stamp_access p env (or_perms p e))
          (staged_for r (local_access_entries b))
    | None =>
        staged_for r (local_access_entries b) ++
        [stamp_access p env (new_local_entry k p env)]
    end
  else staged_for r (local_access_entries b).
Proof.
  intros k. unfold memorize_local_access_entry.
  destruct (decide (r' = r)) as [-> | Hne].
  - fold k. destruct (local_find k (local_access_entries b)) as [e |] eqn:Hf;
      simpl.
    + apply staged_for_local_store_same. rewrite stamp_access_key. simpl.
      by rewrite (local_find_key _ _ _ Hf).
    + rewrite staged_for_local_store_same by (by rewrite stamp_access_key).
      unfold staged_for at 1. rewrite filter_app, filter_cons_True by done.
      rewrite filter_nil. apply local_store_snoc.
      * rewrite stamp_access_key. simpl.
        change (local_find k (staged_for (l_relid k) (local_access_entries b))
                = None).
        by rewrite local_find_staged_for.
      * by rewrite stamp_access_key.
  - destruct (local_find _ (local_access_entries b)) as [e |] eqn:Hf; simpl.
    + apply staged_for_local_store_other. rewrite stamp_access_key. simpl.
      by rewrite (local_find_key _ _ _ Hf).
    + rewrite staged_for_local_store_other by (by rewrite stamp_access_key).
      unfold staged_for. rewrite filter_app, filter_cons_False by done.
      by rewrite filter_nil, app_nil_r.
Qed.

Lemma record_calls_staged_snoc g r c cs : forall b u e,
  stmt_counter b = c ->
  staged_for r (local_access_entries b) = u ++ [e] ->
  l_key e = mkLocalKey r c -> local_find (mkLocalKey r c) u = None ->
  exists e',
    staged_for r (local_access_entries (fold_left (record_call g) cs b)) =
      u ++ [e'] /\
    l_key e' = mkLocalKey r c.
Proof.
  induction cs as [| c0 cs IH]; intros b u e Hc Hs Hk Hu; cbn [fold_left].
  - by exists e.
  - destruct (record_call_staging g b c0) as [Hl Hc0].
    destruct c0 as [[[r' p] env] nm]. simpl in Hl.
    pose proof (memorize_staged_for r r' p env b) as Hm. cbv zeta in Hm.
    rewrite Hc in Hm. rewrite <- Hl in Hm.
    destruct (decide (r' = r)) as [-> | Hne].
    + assert (Hf : local_find (mkLocalKey r c) (local_access_entries b) = Some e).
      { rewrite <- (local_find_staged_for (mkLocalKey r c)). simpl.
        rewrite Hs. by apply local_find_app_new. }
      rewrite Hf, Hs in Hm.
      rewrite local_store_snoc in Hm;
        [| by rewrite stamp_access_key; simpl; rewrite Hk
         | by rewrite stamp_access_key; simpl].
      apply (IH (record_call g b (r, p, env, nm)) u _ (eq_trans Hc0 Hc) Hm);
        [| done].
      rewrite stamp_access_key. simpl. done.
    + rewrite Hs in Hm.
      by apply (IH (record_call g b (r', p, env, nm)) u e (eq_trans Hc0 Hc) Hm).
Qed.

Lemma record_calls_staged_for g r c cs : forall b,
  stmt_counter b = c ->
  local_find (mkLocalKey r c) (local_access_entries b) = None ->
  (events_for r cs = [] ->
   staged_for r (local_access_entries (fold_left (record_call g) cs b)) =
   staged_for r (local_access_entries b)) /\
  (events_for r cs <> [] ->
   exists e',
     staged_for r (local_access_entries (fold_left (record_call g) cs b)) =
       staged_for r (local_access_entries b) ++ [e'] /\
     l_key e' = mkLocalKey r c).
Proof.
  induction cs as [| c0 cs IH]; intros b Hc Hn; cbn [fold_left]; [done |].
  destruct (record_call_staging g b c0) as [Hl Hc0].
  destruct c0 as [[[r' p] env] nm]. simpl in Hl.
  pose proof (memorize_staged_for r r' p env b) as Hm. cbv zeta in Hm.
  rewrite Hc in Hm. rewrite <- Hl in Hm. simpl events_for.
  destruct (decide (r' = r)) as [-> | Hne].
  - rewrite Hn in Hm. split; [done |]. intros _.
    apply (record_calls_staged_snoc g r c cs
             (record_call g b (r, p, env, nm)) _ _ (eq_trans Hc0 Hc) Hm).
    + by rewrite stamp_access_key.
    + change (local_find (mkLocalKey r c)
                (staged_for (l_relid (mkLocalKey r c)) (local_access_entries b))
              = None).
      by rewrite local_find_staged_for.
  - rewrite <- Hm.
    apply (IH (record_call g b (r', p, env, nm)) (eq_trans Hc0 Hc)).
    simpl record_call. rewrite Hl, <- Hn. apply memorize_other. congruence.
Qed.

Lemma add32_next c : add32 c 1 <> c.
Proof.
  unfold add32. change (2 ^ 31) with 2147483648.
  change (2 ^ 32) with 4294967296. Z.div_mod_to_equations. lia.
Qed.

Lemma local_store_length e' t : length (local_store e' t) = length t.
Proof.
  induction t as [| x t IH]; simpl; [done |].
  destruct (local_key_eqb (l_key x) (l_key e')); simpl; by rewrite ?IH.
Qed.

Lemma record_calls_staged_none g r cs : forall b,
  events_for r cs = [] ->
  staged_for r (local_access_entries (fold_left (record_call g) cs b)) =
  staged_for r (local_access_entries b).
Proof.
  induction cs as [| c0 cs IH]; intros b Hev; cbn [fold_left]; [done |].
  destruct (record_call_staging g b c0) as [Hl _].
  destruct c0 as [[[r' p] env] nm]. simpl in Hl. simpl events_for in Hev.
  pose proof (memorize_staged_for r r' p env b) as Hm. cbv zeta in Hm.
  rewrite <- Hl in Hm.
  destruct (decide (r' = r)) as [-> | Hne]; [done |].
  rewrite <- Hm. by apply (IH (record_call g b (r', p, env, nm))).
Qed.

(** With an entry of the current statement already staged for [r], the
    calls rewrite it in place. *)
Lemma record_calls_staged_length g r c cs : forall b,
  stmt_counter b = c ->
  is_Some (local_find (mkLocalKey r c) (local_access_entries b)) ->
  length (staged_for r (local_access_entries (fold_left (record_call g) cs b))) =
  length (staged_for r (local_access_entries b)).
Proof.
  induction cs as [| c0 cs IH]; intros b Hc [e He]; cbn [fold_left]; [done |].
  destruct (record_call_staging g b c0) as [Hl Hc0].
  destruct c0 as [[[r' p] env] nm]. simpl in Hl.
  pose proof (memorize_staged_for r r' p env b) as Hm. cbv zeta in Hm.
  rewrite Hc in Hm. rewrite <- Hl in Hm.
  rewrite (IH (record_call g b (r', p, env, nm)) (eq_trans Hc0 Hc)).
  - simpl record_call. rewrite Hm.
    destruct (decide (r' = r)) as [-> | Hne]; [| done].
    by rewrite He, local_store_length.
  - simpl record_call. rewrite Hl.
    destruct (decide (r' = r)) as [-> | Hne].
    + pose proof (memorize_lookup r p env b) as Hlk. cbv zeta in Hlk.
      rewrite Hc in Hlk. rewrite Hlk. by eexists.
    + rewrite memorize_other by congruence. by exists e.
Qed.

(** A statement of an enabled dispatcher, from the permission check to the
    end of its executor run, and a relation [r].  When its range table asks
    no tracked permission for [r], the staging entries of [r] are as
    before.  When it does, however many range table entries name [r]: if
    nothing is staged for [r] under the current value of the statement
    counter, exactly one entry is added, which carries that value and the
    union of the required permissions; if an entry is (one of a [TRUNCATE]
    say, which runs no executor and so leaves the counter where it was), no
    entry is added and the permissions are OR-ed into that entry.  In each
    case the counter has moved to another value afterwards. *)
Theorem statement_adds_at_most_one_staging_entry
    (rangeTable : list (RangeTblEntry * call_env)) (g : Oid -> string)
    (b : backend) (r : Oid) :
  is_dispatch (Gp_role b) = true -> is_enabled b = true ->
  let b' :=
    relaccess_executor_end_hook (collect_relaccess_hook rangeTable g b) in
  let evs := events_for r (calls_of_rangeTable rangeTable) in
  let k := mkLocalKey r (stmt_counter b) in
  stmt_counter b' = add32 (stmt_counter b) 1 /\
  stmt_counter b' <> stmt_counter b /\
  (evs = [] ->
   staged_for r (local_access_entries b') =
   staged_for r (local_access_entries b)) /\
  (evs <> [] -> local_find k (local_access_entries b) = None ->
   exists e,
     staged_for r (local_access_entries b') =
       staged_for r (local_access_entries b) ++ [e] /\
     l_key e = k /\
     perms e = spec_perms_union evs) /\
  (evs <> [] ->
   forall e0, local_find k (local_access_entries b) = Some e0 ->
   length (staged_for r (local_access_entries b')) =
     length (staged_for r (local_access_entries b)) /\
   exists e,
     local_find k (local_access_entries b') = Some e /\
     perms e = Z.lor (perms e0) (spec_perms_union evs)).
Proof.
  intros Hd He b' evs k. unfold b', relaccess_executor_end_hook.
  rewrite (collect_relaccess_hook_calls _ _ _ Hd He).
  set (cs := calls_of_rangeTable rangeTable) in *.
  destruct (record_calls_lookup g r (stmt_counter b) cs b eq_refl) as [Hl Hc].
  change (stmt_counter (set_stmt_counter ?n _)) with n.
  change (local_access_entries (set_stmt_counter _ ?x))
    with (local_access_entries x).
  rewrite Hc. split; [done |]. split; [apply add32_next |].
  split; [by apply record_calls_staged_none |]. split.
  - intros Hevs Hn.
    destruct (record_calls_staged_for g r (stmt_counter b) cs b eq_refl Hn)
      as [_ Hcons].
    destruct (Hcons Hevs) as (e & Hs & Hk). exists e.
    split; [done |]. split; [done |].
    destruct (staging_entry_of_events b r evs Hevs Hn)
      as (e2 & Hf2 & _ & Hp & _).
    fold evs in Hl. rewrite <- Hl in Hf2.
    rewrite <- (local_find_staged_for (mkLocalKey r (stmt_counter b))) in Hf2.
    simpl l_relid in Hf2. rewrite Hs in Hf2.
    rewrite local_find_app_new in Hf2; [by injection Hf2 as <- | | done].
    change (local_find (mkLocalKey r (stmt_counter b))
              (staged_for (l_relid (mkLocalKey r (stmt_counter b)))
                 (local_access_entries b)) = None).
    by rewrite local_find_staged_for.
  - intros Hevs e0 He0. split.
    + apply (record_calls_staged_length g r (stmt_counter b)); [done |].
      by exists e0.
    + fold k in Hl. rewrite Hl. fold evs.
      destruct (memorize_events_lookup r evs b e0 He0) as [Hf _].
      exists (replay evs e0). split; [done |]. apply replay_perms.
Qed.

Lemma statement_adds_at_most_one_staging_entry_example :
  let rt := [(mkRTE RTE_RELATION 1 ACL_INSERT, demo_env 10 104)] in
  let b := collect_truncate_hook demo_truncate (demo_backend 5 false) in
  let b' :=
    relaccess_executor_end_hook (collect_relaccess_hook rt demo_names b) in
  (length (staged_for 1 (local_access_entries b)) = 1%nat /\
   length (staged_for 1 (local_access_entries b')) = 1%nat /\
   perms <$> local_find (mkLocalKey 1 0) (local_access_entries b') = Some 17) /\
  let evs := events_for 1 (calls_of_rangeTable rt) in
  let k := mkLocalKey 1 (stmt_counter b) in
  stmt_counter b' = add32 (stmt_counter b) 1 /\
  stmt_counter b' <> stmt_counter b /\
  (evs = [] ->
   staged_for 1 (local_access_entries b') =
   staged_for 1 (local_access_entries b)) /\
  (evs <> [] -> local_find k (local_access_entries b) = None ->
   exists e,
     staged_for 1 (local_access_entries b') =
       staged_for 1 (local_access_entries b) ++ [e] /\
     l_key e = k /\
     perms e = spec_perms_union evs) /\
  (evs <> [] ->
   forall e0, local_find k (local_access_entries b) = Some e0 ->
   length (staged_for 1 (local_access_entries b')) =
     length (staged_for 1 (local_access_entries b)) /\
   exists e,
     local_find k (local_access_entries b') = Some e /\
     perms e = Z.lor (perms e0) (spec_perms_union evs)).
Proof.
  split; [by vm_compute |].
  apply (statement_adds_at_most_one_staging_entry
           [(mkRTE RTE_RELATION 1 ACL_INSERT, demo_env 10 104)] demo_names
           (collect_truncate_hook demo_truncate (demo_backend 5 false)) 1);
    reflexivity.
Defined.

(** ** What a spill pass leaves alone *)

(** [relaccess_stats_dump] touches the current database only, also when a
    write fails: the dump file and the table entries of every other
    database are as before. *)
Theorem relaccess_stats_dump_other_databases (b : backend) (w : world)
    (d : Oid) :
  unique_keys (relaccesses w) -> d <> MyDatabaseId b ->
  let s' := relaccess_stats_dump (b, w) in
  file_records d s'.2 = file_records d w /\
  entries_of_db d (relaccesses s'.2) = entries_of_db d (relaccesses w).
Proof.
  intros Hu Hd. unfold relaccess_stats_dump.
  pose proof (relaccess_dump_to_files_spec true b w Hu) as Hspec.
  cbv zeta in Hspec |- *.
  destruct Hspec as (files & vis & unv & Hscope & Hsplit & Hstore & Hfiles & _).
  assert (Hout : d ∉ files) by (intros Hin; by apply Hscope in Hin).
  rewrite Hfiles, Hstore, Hsplit. split.
  - rewrite filter_none; [by rewrite app_nil_r |]. by intros x _ [_ Hx].
  - unfold entries_of_db. rewrite !filter_app, list_filter_filter. f_equal.
    apply list_filter_iff. intros x. split; [by intros [] |].
    intros Hx. split; [done |]. by rewrite Hx.
Qed.

Lemma relaccess_stats_dump_other_databases_example :
  let s' := relaccess_stats_dump
              (demo_backend 5 false, demo_world_store [true; false]) in
  file_records 6 s'.2 = file_records 6 (demo_world_store [true; false]) /\
  entries_of_db 6 (relaccesses s'.2) =
    entries_of_db 6 (relaccesses (demo_world_store [true; false])).
Proof.
  apply (relaccess_stats_dump_other_databases (demo_backend 5 false)
           (demo_world_store [true; false]) 6).
  - exact demo_store_unique_keys.
  - vm_compute. discriminate.
Defined.

(** A pass over all databases in which no write fails. *)
Lemma spill_all_spec b w :
  unique_keys (relaccesses w) -> false ∉ fwrite_results w ->
  let s' := relaccess_dump_to_files false (b, w) in
  relaccesses s'.2 = [] /\
  (forall d, file_records d s'.2 =
             file_records d w ++ entries_of_db d (relaccesses w)) /\
  server_log s'.1 = server_log b.
Proof.
  intros Hu Hok.
  pose proof (relaccess_dump_to_files_spec false b w Hu) as Hspec.
  cbv zeta in Hspec |- *.
  destruct Hspec as (files & vis & unv & Hscope & Hsplit & Hstore & Hfiles &
                     _ & Hend & _).
  destruct Hend as [[-> Hlog] | (e & rest & _ & _ & Hfalse & _)]; [| done].
  rewrite app_nil_r in Hsplit, Hstore. subst vis.
  assert (Hall : forall x, x ∈ relaccesses w -> dbid (key x) ∈ files).
  { intros x Hx. apply Hscope. simpl. by exists x. }
  split; [| split; [| done]].
  - rewrite Hstore. apply filter_none. intros x Hx Hn. by apply Hn, Hall.
  - intros d. rewrite Hfiles. f_equal. unfold entries_of_db.
    apply filter_ext_elem. intros x Hx. split; [by intros [] |].
    intros Hd. split; [done |]. rewrite <- Hd. by apply Hall.
Qed.

(** [relaccess_shmem_shutdown]: an exit with a non-zero code leaves the
    table and the files alone; a clean exit in which no write fails empties
    the table into the dump files, each database's entries appended to its
    own file in scan order, without a warning. *)
Theorem relaccess_shmem_shutdown_spills_all (code : Z) (b : backend)
    (w : world) :
  unique_keys (relaccesses w) -> false ∉ fwrite_results w ->
  let s' := relaccess_shmem_shutdown code (b, w) in
  (code <> 0 -> s' = (b, w)) /\
  (code = 0 ->
   relaccesses s'.2 = [] /\
   (forall d, file_records d s'.2 =
              file_records d w ++ entries_of_db d (relaccesses w)) /\
   server_log s'.1 = server_log b).
Proof.
  intros Hu Hok. cbv zeta. unfold relaccess_shmem_shutdown. split.
  - intros Hc. apply Z.eqb_neq in Hc. by rewrite Hc.
  - intros ->. simpl. by apply spill_all_spec.
Qed.

Lemma relaccess_shmem_shutdown_example :
  let b := demo_backend 5 false in
  let w := demo_world_store [] in
  let s' := relaccess_shmem_shutdown 0 (b, w) in
  (0 <> 0 -> s' = (b, w)) /\
  (0 = 0 ->
   relaccesses s'.2 = [] /\
   (forall d, file_records d s'.2 =
              file_records d w ++ entries_of_db d (relaccesses w)) /\
   server_log s'.1 = server_log b).
Proof.
  apply (relaccess_shmem_shutdown_spills_all 0 (demo_backend 5 false)
           (demo_world_store [])).
  - exact demo_store_unique_keys.
  - vm_compute. by apply not_elem_of_nil.
Defined.

(** ** [relaccess_stats_update] *)

(** The spill of the current database when no write fails. *)
Lemma spill_mine_spec b w :
  unique_keys (relaccesses w) -> false ∉ fwrite_results w ->
  let s' := relaccess_dump_to_files true (b, w) in
  let db := MyDatabaseId b in
  MyDatabaseId s'.1 = db /\
  relaccesses s'.2 = filter (fun e => dbid (key e) <> db) (relaccesses w) /\
  file_records db s'.2 =
    file_records db w ++ entries_of_db db (relaccesses w) /\
  (forall d, d <> db -> file_records d s'.2 = file_records d w).
Proof.
  intros Hu Hok.
  pose proof (relaccess_dump_to_files_spec true b w Hu) as Hspec.
  cbv zeta in Hspec |- *.
  destruct Hspec as (files & vis & unv & Hscope & Hsplit & Hstore & Hfiles &
                     _ & Hend & _ & Hdb & _).
  destruct Hend as [[-> _] | (e & rest & _ & _ & Hfalse & _)]; [| done].
  rewrite app_nil_r in Hsplit, Hstore. subst vis.
  split; [done |]. split; [| split].
  - rewrite Hstore. apply list_filter_iff. intros x.
    split; intros Hx Hy; apply Hx; by apply Hscope.
  - rewrite Hfiles. f_equal. unfold entries_of_db.
    apply list_filter_iff. intros x. split; [by intros [? _] |].
    intros Hx. split; [done |]. by apply Hscope.
  - intros d Hd. rewrite Hfiles. rewrite filter_none; [by rewrite app_nil_r |].
    intros x _ [_ Hx]. by apply Hscope in Hx.
Qed.

(** A call of [relaccess_stats_update] in which no write fails and both SPI
    calls succeed: it returns normally; the rows offered to the upsert
    query are the records the dump file of the database held followed by
    the entries of the database that were in the table; afterwards the
    table holds no entry of the database, its dump file is gone (reading it
    back gives no row), and the files of the other databases are as
    before. *)
Theorem relaccess_stats_update_success (b : backend) (w : world)
    (connect ret : Z) :
  0 <= connect -> 0 <= ret ->
  unique_keys (relaccesses w) -> false ∉ fwrite_results w ->
  let db := MyDatabaseId b in
  let offered := relaccess_dump_to_files true (b, w) in
  let r := relaccess_stats_update connect (SPI_returns ret) (b, w) in
  r.1 = RETURN_VOID /\
  relaccess_stats_from_dump offered =
    map stats_row (file_records db w ++ entries_of_db db (relaccesses w)) /\
  r.2 = (offered.1, unlink db offered.2) /\
  relaccesses r.2.2 = filter (fun e => dbid (key e) <> db) (relaccesses w) /\
  dump_files r.2.2 !! db = None /\
  relaccess_stats_from_dump r.2 = [] /\
  (forall d, d <> db -> file_records d r.2.2 = file_records d w).
Proof.
  intros Hc Hr Hu Hok db offered r.
  pose proof (spill_mine_spec b w Hu Hok) as H. cbv zeta in H.
  fold offered in H. fold db in H. destruct H as (Hdb & Hrel & Hmine & Hoth).
  assert (Hres : r = (RETURN_VOID, (offered.1, unlink db offered.2))).
  { unfold r, relaccess_stats_update. fold offered.
    destruct offered as [b1 w1]. simpl in *. unfold relaccess_upsert_from_file.
    destruct (Z.ltb_spec connect 0); [lia |].
    destruct (Z.ltb_spec ret 0); [lia |]. by rewrite Hdb. }
  rewrite Hres. cbn [fst snd].
  split; [done |]. split; [| split; [done | split; [done | split; [| split]]]].
  - unfold relaccess_stats_from_dump, read_dump_file. rewrite Hdb.
    fold (file_records db offered.2). by rewrite Hmine.
  - apply lookup_delete_eq.
  - unfold relaccess_stats_from_dump, read_dump_file. cbn [fst snd].
    rewrite Hdb. unfold unlink. simpl. by rewrite lookup_delete_eq.
  - intros d Hd. rewrite <- (Hoth d Hd). unfold file_records, unlink. simpl.
    by rewrite lookup_delete_ne.
Qed.

Lemma relaccess_stats_update_success_example :
  let b := demo_backend 5 false in
  let w := demo_world_store [] in
  let db := MyDatabaseId b in
  let offered := relaccess_dump_to_files true (b, w) in
  let r := relaccess_stats_update 0 (SPI_returns 5) (b, w) in
  r.1 = RETURN_VOID /\
  relaccess_stats_from_dump offered =
    map stats_row (file_records db w ++ entries_of_db db (relaccesses w)) /\
  r.2 = (offered.1, unlink db offered.2) /\
  relaccesses r.2.2 = filter (fun e => dbid (key e) <> db) (relaccesses w) /\
  dump_files r.2.2 !! db = None /\
  relaccess_stats_from_dump r.2 = [] /\
  (forall d, d <> db -> file_records d r.2.2 = file_records d w).
Proof.
  apply (relaccess_stats_update_success (demo_backend 5 false)
           (demo_world_store []) 0 5); [lia | lia | |].
  - exact demo_store_unique_keys.
  - vm_compute. by apply not_elem_of_nil.
Defined.

(** A call of [relaccess_stats_update] that fails before the [unlink]
    ([SPI_connect] fails, or the query raises) reports the error and leaves
    the state that the spill left; when no write of the spill failed, the
    table then holds no entry of the database and its dump file holds the
    records it held before followed by those entries, none deleted. *)
Theorem relaccess_stats_update_early_failure (b : backend) (w : world)
    (connect : Z) (exec : spi_outcome) :
  connect < 0 \/ exec = SPI_raises ->
  unique_keys (relaccesses w) ->
  let db := MyDatabaseId b in
  let r := relaccess_stats_update connect exec (b, w) in
  r.1 = (if connect <? 0 then ERROR_SPI_connect connect else ERROR_raised) /\
  r.2 = relaccess_dump_to_files true (b, w) /\
  (false ∉ fwrite_results w ->
   relaccesses r.2.2 = filter (fun e => dbid (key e) <> db) (relaccesses w) /\
   file_records db r.2.2 =
     file_records db w ++ entries_of_db db (relaccesses w)).
Proof.
  intros Hfail Hu db r.
  assert (Hres : r = (if connect <? 0 then ERROR_SPI_connect connect
                      else ERROR_raised,
                      relaccess_dump_to_files true (b, w))).
  { unfold r, relaccess_stats_update, relaccess_upsert_from_file.
    destruct (relaccess_dump_to_files true (b, w)) as [b1 w1].
    destruct (Z.ltb_spec connect 0); [done |].
    destruct Hfail as [Hlt | ->]; [lia | done]. }
  rewrite Hres. cbn [fst snd]. split; [done |]. split; [done |].
  intros Hok. pose proof (spill_mine_spec b w Hu Hok) as H. cbv zeta in H.
  by destruct H as (_ & Hrel & Hmine & _).
Qed.

Lemma relaccess_stats_update_early_failure_example :
  let b := demo_backend 5 false in
  let w := demo_world_store [] in
  let db := MyDatabaseId b in
  let r := relaccess_stats_update (-1) (SPI_returns 0) (b, w) in
  r.1 = (if -1 <? 0 then ERROR_SPI_connect (-1) else ERROR_raised) /\
  r.2 = relaccess_dump_to_files true (b, w) /\
  (false ∉ fwrite_results w ->
   relaccesses r.2.2 = filter (fun e => dbid (key e) <> db) (relaccesses w) /\
   file_records db r.2.2 =
     file_records db w ++ entries_of_db db (relaccesses w)).
Proof.
  apply (relaccess_stats_update_early_failure (demo_backend 5 false)
           (demo_world_store []) (-1) (SPI_returns 0)).
  - left. lia.
  - exact demo_store_unique_keys.
Defined.

(** ** Overflow with a spill in which writes fail *)

Lemma relaccess_dump_scan_length files scan : forall s,
  (length (relaccesses (relaccess_dump_scan files scan s).2) <=
   length (relaccesses s.2))%nat.
Proof.
  induction scan as [| entry rest IH]; intros [b0 w0]; simpl; [done |].
  case_decide; [| apply IH].
  pose proof (fwrite_spec w0) as (Hr0 & _).
  destruct (fwrite w0) as [[] w2]; simpl in *; [| by rewrite Hr0].
  etransitivity; [apply IH |]. simpl.
  rewrite Hr0. apply hash_remove_length.
Qed.

(** The pass over all databases, unfolded to its scan. *)
Lemma relaccess_dump_to_files_all b w :
  exists files w1,
    relaccess_dump_to_files false (b, w) =
      relaccess_dump_scan files (relaccesses w) (b, w1) /\
    relaccesses w1 = relaccesses w /\
    fwrite_results w1 = fwrite_results w /\
    relaccess_size w1 = relaccess_size w /\
    (forall d, file_records d w1 = file_records d w) /\
    (forall e, e ∈ relaccesses w -> dbid (key e) ∈ files).
Proof.
  unfold relaccess_dump_to_files, relaccess_dump_to_files_internal.
  pose proof (add_file_dump_entries_spec (relaccesses w) ∅ w) as Hspec.
  cbv zeta in Hspec. destruct Hspec as (Hin & Hr & Hf & Hsz & Hfw).
  destruct (fold_left _ _ _) as [files w1]. exists files, w1.
  simpl in *. rewrite Hr. repeat split; try done.
  intros e He. apply Hin. right. by exists e.
Qed.

Lemma relaccess_dump_scan_log files scan : forall s,
  server_log (relaccess_dump_scan files scan s).1 = server_log s.1 \/
  exists d,
    server_log (relaccess_dump_scan files scan s).1 =
    server_log s.1 ++ [WARN_could_not_write d].
Proof.
  induction scan as [| entry rest IH]; intros [b0 w0]; simpl; [by left |].
  case_decide; [| apply IH].
  destruct (fwrite w0) as [[] w2]; simpl.
  - apply (IH (set_had_ht_overflow false b0, _)).
  - right. by eexists.
Qed.

(** A commit-merge step for a new key on a table at capacity, with
    spill-on-overflow enabled, is decided by the first write of the spill.
    When that write fails, nothing is removed or written, the staged access
    is dropped, the flag is set, and the log gets the warning of the failed
    file and, when the flag was clear, the warning that the table could not
    be dumped.  When it succeeds, a slot is free whatever happens to the
    later writes: the new key is in the table afterwards, the flag is
    clear, and the only warning the step can log is that of a later write
    that failed. *)
Theorem overflow_spill_first_write (src : localAccessEntry) (b : backend)
    (w : world) (first : relaccessEntry) (rest : list relaccessEntry) :
  let k := mkKey (MyDatabaseId b) (l_relid (l_key src)) in
  relaccesses w = first :: rest ->
  Z.of_nat (length (relaccesses w)) = relaccess_size w ->
  hash_find k (relaccesses w) = None ->
  dump_on_overflow b = true ->
  let s' := commit_entry src (b, w) in
  (head (fwrite_results w) = Some false ->
   relaccesses s'.2 = relaccesses w /\
   (forall d, file_records d s'.2 = file_records d w) /\
   had_ht_overflow s'.1 = true /\
   server_log s'.1 =
     server_log b ++ [WARN_could_not_write (dbid (key first))] ++
     (if had_ht_overflow b then [] else [WARN_unable_to_dump])) /\
  (head (fwrite_results w) <> Some false ->
   is_Some (hash_find k (relaccesses s'.2)) /\
   had_ht_overflow s'.1 = false /\
   (server_log s'.1 = server_log b \/
    exists d, server_log s'.1 = server_log b ++ [WARN_could_not_write d])).
Proof.
  intros k Hw Hfull Habs Hspill s'. unfold s'.
  pose proof (commit_entry_after_spill src b w Habs ltac:(lia) Hspill) as Hce.
  cbv zeta in Hce. fold k in Hce.
  destruct (relaccess_dump_to_files_all b w)
    as (files & w1 & Heq & Hr1 & Hfw1 & Hsz1 & Hfile1 & Hin).
  pose proof (relaccess_dump_to_files_session false (b, w)) as Hs.
  cbv zeta in Hs. destruct Hs as (_ & _ & _ & _ & _ & _ & _ & Hsz).
  cbn [snd] in Hsz. rewrite Hsz in Hce.
  assert (Hfirst : dbid (key first) ∈ files).
  { apply Hin. rewrite Hw. apply list_elem_of_here. }
  rewrite Hw in Heq. cbn [relaccess_dump_scan] in Heq.
  rewrite decide_True in Heq by done. cbn [snd fst] in Heq.
  split.
  - intros Hhead.
    assert (Hfw : fwrite w1 =
                  (false, set_fwrite_results (tail (fwrite_results w)) w1)).
    { unfold fwrite. rewrite Hfw1.
      destruct (fwrite_results w) as [| x rs]; [done |].
      simpl in Hhead. by injection Hhead as ->. }
    rewrite Hfw in Heq. rewrite Heq in Hce. cbn [fst snd] in Hce.
    change (relaccesses (set_fwrite_results _ ?x)) with (relaccesses x) in Hce.
    rewrite Hr1 in Hce.
    destruct (Z.ltb_spec (Z.of_nat (length (relaccesses w))) (relaccess_size w));
      [lia |].
    rewrite Hce. cbn [fst snd].
    change (relaccesses (set_fwrite_results _ ?x)) with (relaccesses x).
    split; [done |]. split; [intros d; apply Hfile1 |].
    change (had_ht_overflow (elog _ ?x)) with (had_ht_overflow x).
    destruct (had_ht_overflow b) eqn:Hfl; simpl.
    + by rewrite Hfl.
    + split; [done |]. by rewrite <- app_assoc.
  - intros Hhead.
    assert (Hfw : exists w2, fwrite w1 = (true, w2) /\
                    relaccesses w2 = relaccesses w).
    { pose proof (fwrite_spec w1) as (Hr2 & _ & _ & Hfalse & _).
      destruct (fwrite w1) as [[] w2] eqn:E; simpl in *.
      - exists w2. split; [done | congruence].
      - destruct (Hfalse eq_refl) as (rs & Hrs). rewrite Hfw1 in Hrs.
        rewrite Hrs in Hhead. by destruct Hhead. }
    destruct Hfw as (w2 & Hfw & Hr2). rewrite Hfw in Heq.
    pose proof (relaccess_dump_scan_length files rest
                  (set_had_ht_overflow false b,
                   set_relaccesses (hash_remove (key first) (relaccesses w2))
                     (append_record (dbid (key first)) first w2))) as Hl.
    rewrite <- Heq in Hl. cbn [snd] in Hl.
    change (relaccesses (set_relaccesses ?t _)) with t in Hl.
    rewrite Hr2, Hw in Hl. cbn [hash_remove] in Hl.
    rewrite key_eqb_refl in Hl. rewrite Hw in Hfull. cbn [length] in Hfull.
    destruct (Z.ltb_spec
                (Z.of_nat (length (relaccesses
                   (relaccess_dump_to_files false (b, w)).2)))
                (relaccess_size w)); [| lia].
    rewrite Hce. rewrite record_access_flag, record_access_log.
    rewrite record_access_relaccesses. cbn [fst snd].
    change (relaccesses (set_relaccesses ?t _)) with t.
    change (server_log (set_had_ht_overflow _ ?x)) with (server_log x).
    split; [| split; [done |]].
    + eexists. apply (hash_find_store_same k _ (fresh_entry k));
        [| by rewrite merge_entry_key].
      rewrite hash_find_app, (relaccess_dump_to_files_absent _ _ _ _ Habs).
      apply hash_find_fresh.
    + rewrite Heq.
      apply (relaccess_dump_scan_log files rest (set_had_ht_overflow false b, _)).
Qed.

Lemma overflow_spill_first_write_example :
  let b := demo_spill_backend in
  let w := set_fwrite_results [false] demo_two_world in
  let src := demo_staged_read in
  let first := demo_entry 5 1 10 100 1 in
  let k := mkKey (MyDatabaseId b) (l_relid (l_key src)) in
  let s' := commit_entry src (b, w) in
  (server_log s'.1 = [WARN_could_not_write 5; WARN_unable_to_dump] /\
   hash_find k (relaccesses s'.2) = None) /\
  (head (fwrite_results w) = Some false ->
   relaccesses s'.2 = relaccesses w /\
   (forall d, file_records d s'.2 = file_records d w) /\
   had_ht_overflow s'.1 = true /\
   server_log s'.1 =
     server_log b ++ [WARN_could_not_write (dbid (key first))] ++
     (if had_ht_overflow b then [] else [WARN_unable_to_dump])) /\
  (head (fwrite_results w) <> Some false ->
   is_Some (hash_find k (relaccesses s'.2)) /\
   had_ht_overflow s'.1 = false /\
   (server_log s'.1 = server_log b \/
    exists d, server_log s'.1 = server_log b ++ [WARN_could_not_write d])).
Proof.
  split; [by vm_compute |].
  apply (overflow_spill_first_write demo_staged_read demo_spill_backend
           (set_fwrite_results [false] demo_two_world)
           (demo_entry 5 1 10 100 1) [demo_entry 5 2 10 102 1]); reflexivity.
Defined.

(** ** The name a commit records *)

Lemma substring_length_le (s : string) : forall n,
  (String.length (String.substring 0 n s) <= n)%nat.
Proof.
  induction s as [| a s IH]; intros [| n]; simpl; try lia.
  specialize (IH n). lia.
Qed.

Lemma substring_idemp (s : string) : forall n,
  String.substring 0 n (String.substring 0 n s) = String.substring 0 n s.
Proof.
  induction s as [| a s IH]; intros [| n]; simpl; try done.
  by rewrite IH.
Qed.

Lemma substring_short (s : string) : forall n,
  (String.length s <= n)%nat -> String.substring 0 n s = s.
Proof.
  induction s as [| a s IH]; intros [| n] Hn; simpl in *; try done; try lia.
  rewrite IH; [done | lia].
Qed.

Lemma record_calls_settings g cs : forall b,
  Gp_role (fold_left (record_call g) cs b) = Gp_role b /\
  is_enabled (fold_left (record_call g) cs b) = is_enabled b /\
  MyDatabaseId (fold_left (record_call g) cs b) = MyDatabaseId b.
Proof.
  induction cs as [| [[[r p] env] nm] cs IH]; intros b; cbn [fold_left];
    [done |].
  destruct (IH (record_call g b (r, p, env, nm))) as (-> & -> & ->).
  unfold record_call, update_relname_cache, memorize_local_access_entry.
  destruct (relname_cache _ !! r); by destruct (local_find _ _).
Qed.

Lemma memorize_events_is_Some r evs b :
  evs <> [] ->
  is_Some (local_find (mkLocalKey r (stmt_counter b))
             (local_access_entries (memorize_events r evs b))).
Proof.
  destruct evs as [| [p env] rest]; [done |]. intros _.
  pose proof (memorize_events_replay r p env rest b) as H. cbv zeta in H.
  rewrite H. by eexists.
Qed.

Lemma staged_for_nonempty k t :
  is_Some (local_find k t) -> staged_for (l_relid k) t <> [].
Proof.
  intros [e He] Hnil. rewrite <- local_find_staged_for in He.
  by rewrite Hnil in He.
Qed.

(** The name a relation is recorded under is the first one the transaction
    saw: when a statement of an enabled dispatcher touches a relation [r]
    that the name cache does not know, and any later statement touches
    whatever it does under whatever names the catalog then gives (after a
    rename, say), a commit that finds room stores for [r] the catalog name
    of the first statement, cut to 63 characters; the name itself when it
    is that short. *)
Theorem commit_records_first_name
    (rt1 rt2 : list (RangeTblEntry * call_env)) (g1 g2 : Oid -> string)
    (b : backend) (w : world) (r : Oid) :
  is_dispatch (Gp_role b) = true -> is_enabled b = true ->
  relname_cache b !! r = None ->
  events_for r (calls_of_rangeTable rt1) <> [] ->
  let b2 :=
    collect_relaccess_hook rt2 g2
      (relaccess_executor_end_hook (collect_relaccess_hook rt1 g1 b)) in
  Z.of_nat (length (relaccesses w)) +
    Z.of_nat (length (local_access_entries b2)) <= relaccess_size w ->
  let s' := relaccess_xact_callback XACT_EVENT_COMMIT (b2, w) in
  exists e',
    hash_find (mkKey (MyDatabaseId b) r) (relaccesses s'.2) = Some e' /\
    relname e' = strlcpy (g1 r) NAMEDATALEN /\
    (String.length (relname e') <= 63)%nat /\
    ((String.length (g1 r) <= 63)%nat -> relname e' = g1 r).
Proof.
  intros Hd He Hnone Hevs b2 Hroom s'.
  set (b1 := collect_relaccess_hook rt1 g1 b) in *.
  set (b1' := relaccess_executor_end_hook b1) in *.
  assert (Hb1 : b1 = fold_left (record_call g1) (calls_of_rangeTable rt1) b)
    by (by apply collect_relaccess_hook_calls).
  destruct (record_calls_settings g1 (calls_of_rangeTable rt1) b)
    as (Hg1 & He1 & Hdb1).
  rewrite <- Hb1 in Hg1, He1, Hdb1.
  assert (Hb2 : b2 = fold_left (record_call g2) (calls_of_rangeTable rt2) b1').
  { apply collect_relaccess_hook_calls; unfold b1'; simpl; congruence. }
  destruct (record_calls_settings g2 (calls_of_rangeTable rt2) b1')
    as (Hg2 & He2 & Hdb2).
  rewrite <- Hb2 in Hg2, He2, Hdb2.
  change (Gp_role b1') with (Gp_role b1) in Hg2.
  change (is_enabled b1') with (is_enabled b1) in He2.
  change (MyDatabaseId b1') with (MyDatabaseId b1) in Hdb2.
  (* the cache after the first statement, and after the second *)
  assert (Hc1 : relname_cache b1 !! r = Some (strlcpy (g1 r) NAMEDATALEN)).
  { rewrite Hb1, record_calls_relname_cache, Hnone, names_for_rangeTable.
    by destruct (events_for r (calls_of_rangeTable rt1)). }
  assert (Hc2 : relname_cache b2 !! r = Some (strlcpy (g1 r) NAMEDATALEN)).
  { rewrite Hb2, record_calls_relname_cache.
    change (relname_cache b1') with (relname_cache b1). by rewrite Hc1. }
  (* the staging entry of the first statement is still there *)
  assert (Hst : staged_for r (local_access_entries b2) <> []).
  { apply (staged_for_nonempty (mkLocalKey r (stmt_counter b))).
    rewrite Hb2, record_calls_other_statement.
    - change (local_access_entries b1') with (local_access_entries b1).
      rewrite Hb1.
      destruct (record_calls_lookup g1 r (stmt_counter b)
                  (calls_of_rangeTable rt1) b eq_refl) as [-> _].
      by apply memorize_events_is_Some.
    - simpl. unfold b1', relaccess_executor_end_hook.
      change (stmt_counter (set_stmt_counter ?n _)) with n.
      rewrite Hb1.
      destruct (record_calls_lookup g1 r (stmt_counter b)
                  (calls_of_rangeTable rt1) b eq_refl) as [_ ->].
      intros Heq. by apply (add32_next (stmt_counter b)). }
  (* the commit *)
  unfold s', relaccess_xact_callback.
  rewrite Hg2, He2, Hg1, He1, Hd, He. simpl negb. simpl orb. cbv iota.
  pose proof (commit_fold_with_room (local_access_entries b2) b2 w Hroom) as H.
  cbv zeta in H.
  destruct (fold_left _ (local_access_entries b2) (b2, w)) as [b3 w3].
  cbn [fst snd] in *.
  destruct H as (Hr & _).
  destruct (Hr r) as [_ Hcons].
  destruct (Hcons Hst) as (e' & Hf & _ & Hn).
  rewrite Hdb2, Hdb1 in Hf.
  exists e'. split; [done |].
  assert (Hname : relname e' = strlcpy (g1 r) NAMEDATALEN).
  { rewrite (Hn _ Hc2). unfold strlcpy. apply substring_idemp. }
  rewrite Hname. split; [done |]. split.
  - unfold strlcpy. apply (substring_length_le (g1 r) 63).
  - intros Hshort. unfold strlcpy. by apply substring_short.
Qed.

Lemma commit_records_first_name_example :
  let b := demo_backend 5 false in
  let s' := relaccess_xact_callback XACT_EVENT_COMMIT
              (demo_renamed b, demo_world 128) in
  exists e',
    hash_find (mkKey (MyDatabaseId b) 7) (relaccesses s'.2) = Some e' /\
    relname e' = strlcpy (demo_old_names 7) NAMEDATALEN /\
    (String.length (relname e') <= 63)%nat /\
    ((String.length (demo_old_names 7%Z) <= 63)%nat ->
     relname e' = demo_old_names 7).
Proof.
  apply (commit_records_first_name
           [(mkRTE RTE_RELATION 7 ACL_INSERT, demo_env 10 100)]
           [(mkRTE RTE_RELATION 7 ACL_SELECT, demo_env 10 110)]
           demo_old_names demo_new_names (demo_backend 5 false)
           (demo_world 128) 7); try reflexivity.
  - vm_compute. discriminate.
  - vm_compute. discriminate.
Defined.

(** ** A failing ingestion *)

Lemma relaccess_dump_scan_file_exists files scan d : forall s,
  is_Some (dump_files s.2 !! d) ->
  is_Some (dump_files (relaccess_dump_scan files scan s).2 !! d).
Proof.
  induction scan as [| entry rest IH]; intros [b w] Hd; simpl; [done |].
  case_decide; [| by apply IH].
  pose proof (fwrite_spec w) as (_ & Hf & _).
  destruct (fwrite w) as [[] w1]; simpl in *; [| by rewrite Hf].
  apply IH. simpl. destruct (decide (d = dbid (key entry))) as [-> | Hne].
  - rewrite lookup_insert_eq. by eexists.
  - rewrite lookup_insert_ne by done. by rewrite Hf.
Qed.

(** After a spill of the current database its dump file exists. *)
Lemma relaccess_dump_to_files_file_exists b w :
  is_Some (dump_files (relaccess_dump_to_files true (b, w)).2 !! MyDatabaseId b).
Proof.
  unfold relaccess_dump_to_files, relaccess_dump_to_files_internal.
  assert (Hd : is_Some (dump_files
                          (add_file_dump_entry (MyDatabaseId b) (∅, w)).2
                        !! MyDatabaseId b)).
  { unfold add_file_dump_entry. rewrite decide_False by set_solver.
    destruct (dump_files w !! MyDatabaseId b) eqn:E; simpl.
    - rewrite E. by eexists.
    - rewrite lookup_insert_eq. by eexists. }
  destruct (add_file_dump_entry (MyDatabaseId b) (∅, w)) as [files w1].
  by apply (relaccess_dump_scan_file_exists files _ _ (b, w1)).
Qed.

(** C1. The ingestion collaborator is the query that [SPI_execute] runs; it
    reports a failure by raising.  For every call of
    [relaccess_stats_update] in which it does, the error reaches the caller
    and the state is the one the spill left: the dump file of the database
    exists and is not deleted; when no write of the spill failed it holds
    the records it held before followed by the entries of the database
    that were in the table; and a retry finds all of it again, in front of
    whatever it spills itself. *)
Theorem C1_ingestion_failure_keeps_file (b : backend) (w : world)
    (connect : Z) :
  0 <= connect -> unique_keys (relaccesses w) ->
  let db := MyDatabaseId b in
  let r := relaccess_stats_update connect SPI_raises (b, w) in
  r.1 = ERROR_raised /\
  r.2 = relaccess_dump_to_files true (b, w) /\
  is_Some (dump_files r.2.2 !! db) /\
  (false ∉ fwrite_results w ->
   read_dump_file r.2 =
     read_dump_file (b, w) ++ entries_of_db db (relaccesses w)) /\
  (exists more,
     read_dump_file (relaccess_dump_to_files true r.2) =
     read_dump_file r.2 ++ more).
Proof.
  intros Hc Hu db r.
  assert (Hr : r = (ERROR_raised, relaccess_dump_to_files true (b, w))).
  { unfold r, relaccess_stats_update, relaccess_upsert_from_file.
    destruct (relaccess_dump_to_files true (b, w)) as [b1 w1].
    destruct (Z.ltb_spec connect 0); [lia | done]. }
  rewrite Hr. cbn [fst snd].
  pose proof (relaccess_dump_to_files_session true (b, w)) as Hs.
  cbv zeta in Hs. destruct Hs as (Hdb & _). cbn [fst] in Hdb.
  split; [done |]. split; [done |].
  split; [apply relaccess_dump_to_files_file_exists |]. split.
  - intros Hok.
    pose proof (spill_mine_spec b w Hu Hok) as H. cbv zeta in H.
    destruct H as (_ & _ & Hmine & _).
    unfold read_dump_file. rewrite Hdb. cbn [fst snd].
    fold (file_records (MyDatabaseId b) (relaccess_dump_to_files true (b, w)).2).
    fold (file_records (MyDatabaseId b) w). exact Hmine.
  - pose proof (unique_keys_dump true b w Hu) as Hu1.
    destruct (relaccess_dump_to_files true (b, w)) as [b1 w1] eqn:E.
    cbn [fst snd] in *.
    pose proof (relaccess_dump_to_files_spec true b1 w1 Hu1) as Hspec.
    cbv zeta in Hspec.
    destruct Hspec as (files & vis & unv & _ & _ & _ & Hfiles & _ & _ & _ &
                       Hdb1 & _).
    eexists. unfold read_dump_file. rewrite Hdb1. cbn [fst snd].
    fold (file_records (MyDatabaseId b1) (relaccess_dump_to_files true (b1, w1)).2).
    fold (file_records (MyDatabaseId b1) w1). apply Hfiles.
Qed.

Lemma C1_witness :
  let b := demo_backend 5 false in
  let w := demo_world_store [] in
  let db := MyDatabaseId b in
  let r := relaccess_stats_update 0 SPI_raises (b, w) in
  r.1 = ERROR_raised /\
  r.2 = relaccess_dump_to_files true (b, w) /\
  is_Some (dump_files r.2.2 !! db) /\
  (false ∉ fwrite_results w ->
   read_dump_file r.2 =
     read_dump_file (b, w) ++ entries_of_db db (relaccesses w)) /\
  (exists more,
     read_dump_file (relaccess_dump_to_files true r.2) =
     read_dump_file r.2 ++ more).
Proof.
  apply (C1_ingestion_failure_keeps_file (demo_backend 5 false)
           (demo_world_store []) 0); [lia |].
  exact demo_store_unique_keys.
Defined.

(** ** The overflow flag over a backend's own calls *)

Lemma overflow_means_full_drop_scan d scan : forall s,
  overflow_means_full s -> overflow_means_full (relaccess_drop_scan d scan s).
Proof.
  induction scan as [| entry rest IH]; intros [b w] Hs; simpl; [done |].
  destruct (dbid (key entry) =? d); [| by apply IH].
  apply IH. unfold overflow_means_full. simpl. discriminate.
Qed.

(** If the flag of a backend, when set, finds the table at capacity, then
    so it is after any call of that backend into the module: the end of a
    transaction, [relaccess_stats_dump], [relaccess_stats_update] whatever
    its outcome, the object-access hook and the shutdown hook.  Each of
    them clears the flag whenever it removes an entry. *)
Theorem overflow_means_full_own_calls (s : backend * world)
    (event : XactEvent) (connect : Z) (exec : spi_outcome)
    (access : ObjectAccessType) (classId objectId : Oid) (code : Z) :
  overflow_means_full s ->
  overflow_means_full (relaccess_xact_callback event s) /\
  overflow_means_full (relaccess_stats_dump s) /\
  overflow_means_full (relaccess_stats_update connect exec s).2 /\
  overflow_means_full (relaccess_drop_hook access classId objectId s) /\
  overflow_means_full (relaccess_shmem_shutdown code s).
Proof.
  intros Hs. split; [by apply overflow_means_full_xact_callback |].
  split; [by apply overflow_means_full_dump |]. split; [| split].
  - unfold relaccess_stats_update.
    pose proof (overflow_means_full_dump true s Hs) as H.
    destruct (relaccess_dump_to_files true s) as [b w].
    unfold relaccess_upsert_from_file.
    destruct (connect <? 0); [done |]. destruct exec as [ret |]; [| done].
    by destruct (ret <? 0).
  - unfold relaccess_drop_hook. destruct access; try done.
    destruct (classId =? DatabaseRelationId); [| done].
    pose proof (overflow_means_full_drop_scan objectId (relaccesses s.2) s Hs)
      as H.
    by destruct (relaccess_drop_scan objectId (relaccesses s.2) s) as [b w].
  - unfold relaccess_shmem_shutdown. destruct (negb _); [done |].
    by apply overflow_means_full_dump.
Qed.

Lemma overflow_means_full_own_calls_example :
  let s := (demo_flagged_backend, demo_full_world) in
  (had_ht_overflow s.1 = true /\
   had_ht_overflow (relaccess_stats_dump s).1 = false /\
   relaccesses (relaccess_stats_dump s).2 = []) /\
  overflow_means_full (relaccess_xact_callback XACT_EVENT_COMMIT s) /\
  overflow_means_full (relaccess_stats_dump s) /\
  overflow_means_full (relaccess_stats_update 0 SPI_raises s).2 /\
  overflow_means_full (relaccess_drop_hook OAT_DROP DatabaseRelationId 5 s) /\
  overflow_means_full (relaccess_shmem_shutdown 0 s).
Proof.
  split; [by vm_compute |].
  apply (overflow_means_full_own_calls (demo_flagged_backend, demo_full_world)
           XACT_EVENT_COMMIT 0 SPI_raises OAT_DROP DatabaseRelationId 5 0).
  intros _. vm_compute. discriminate.
Defined.

(** ** Reading back a dump file that existed before the spill *)

(** C8 as stated fails: the dump file of database 5 holds a record when
    the two entries of that database are spilled; what is read back is
    that record followed by the two entries, not the two entries. *)
Lemma C8_counterexample_existing_file :
  let w := set_dump_files {[5 := [demo_entry 5 7 10 50 4]]}
             (demo_world_store []) in
  let s' := relaccess_stats_dump (demo_backend 5 false, w) in
  entries_of_db 5 (relaccesses w) =
    [demo_entry 5 1 10 100 1; demo_entry 5 2 10 102 2] /\
  read_dump_file s' =
    [demo_entry 5 7 10 50 4; demo_entry 5 1 10 100 1; demo_entry 5 2 10 102 2].
Proof. vm_compute. split; reflexivity. Qed.
